(** * GLcommon/objectNameManager.cpp: local/global object names of a share group

    A shallow embedding of the four classes of objectNameManager.cpp
    (GlobalNameSpace, NameSpace, ShareGroup, ObjectNameManager) as programs
    of a small state-and-failure monad, and the properties of the name
    tables, the object data store, the texture reference counters and the
    registry of share groups that are proved about them.

    Conventions.  C++ unsigned integers are [N] with the wrap-around written
    where the code does arithmetic ([++m_nextName], [val++], [val--]);
    [std::unordered_map] is stdpp's [gmap]; a raw pointer that may be null is
    an [option]; a [void*] key of the registry is its address, the null pointer
    the address 0; a [std::shared_ptr<ShareGroup>] is the address of the group
    in a heap of live groups.  The locks (emugl::Mutex) serialise the calls
    and have no counterpart here: every method is one atomic step. *)

From Stdlib Require Import NArith Lia.
From stdpp Require Import base option list vector gmap fin_maps.

Local Open Scope N_scope.

(** ** Outcomes and the monad of methods *)

(** What a call does: it returns, it stops the process (a failed [assert],
    a call through an unbound function pointer, a null dereference), or it
    never returns. *)
Inductive outcome (A : Type) : Type :=
| Ret (a : A)
| Fault
| Diverge.
Arguments Ret {A} a.
Arguments Fault {A}.
Arguments Diverge {A}.

(** A method of an object with state [S] and result [A]. *)
Definition M (S A : Type) : Type := S -> outcome (A * S).

Definition ret {S A} (a : A) : M S A := fun s => Ret (a, s).

Definition bind {S A B} (m : M S A) (k : A -> M S B) : M S B :=
  fun s =>
    match m s with
    | Ret (a, s') => k a s'
    | Fault => Fault
    | Diverge => Diverge
    end.

Definition gets {S A} (f : S -> A) : M S A := fun s => Ret (f s, s).
Definition modify {S} (f : S -> S) : M S unit := fun s => Ret (tt, f s).
Definition fault {S A} : M S A := fun _ => Fault.
Definition diverge {S A} : M S A := fun _ => Diverge.

(** [assert(b)] of <cassert>. *)
Definition assert {S} (b : bool) : M S unit := if b then ret tt else fault.

(** A method of a part [T] of the state run on the whole state [S]. *)
Definition zoom {S T A} (proj : S -> T) (upd : T -> S -> S) (m : M T A) : M S A :=
  fun s =>
    match m (proj s) with
    | Ret (a, t') => Ret (a, upd t' s)
    | Fault => Fault
    | Diverge => Diverge
    end.

Notation "x <- m ;; k" := (bind m (fun x => k))
  (at level 20, m at level 99, k at level 200, only parsing).
Notation "m ;;; k" := (bind m (fun _ => k))
  (at level 20, k at level 200, only parsing).

(** ** Types of names *)

(** Modelled from the spec: [enum NamedObjectType] is declared in
    GLcommon/objectNameManager.h, which is not among the sources.  The spec
    gives the closed enumeration VertexBuffer, Texture, Renderbuffer,
    Framebuffer, Shader followed by a count sentinel; the values are the
    positions in that order.  An enum is an integer in C++ and callers can
    pass values at or past [NUM_OBJECT_TYPES], so the type is the integer
    and every comparison of the source is written on it. *)
Abbreviation NamedObjectType := N (only parsing).
Definition VERTEXBUFFER : N := 0.
Definition TEXTURE : N := 1.
Definition RENDERBUFFER : N := 2.
Definition FRAMEBUFFER : N := 3.
Definition SHADER : N := 4.
Definition NUM_OBJECT_TYPES : N := 5.

(** Modelled from the spec: [ObjectLocalName] is declared in the same
    header; the spec has it unsigned, of 32 bits or more, and it is taken
    as the 64-bit [unsigned long long].  [unsigned int] has 32 bits and
    [size_t] 64, as on the LP64 hosts of the emulator. *)
Abbreviation ObjectLocalName := N (only parsing).
Definition local_name_bits : N := 64.
Definition uint_bits : N := 32.
Definition size_t_bits : N := 64.

Definition wrap (bits x : N) : N := x mod 2 ^ bits.

(** [NamesMap] is [std::unordered_map<ObjectLocalName, unsigned int>]; the
    source uses the same type for both directions. *)
Abbreviation NamesMap := (gmap N N) (only parsing).

(** ** GlobalNameSpace: names of the host driver *)

(** The calls made through [GLEScontext::dispatcher()], most recent first. *)
Inductive GLcall : Type :=
| GlGen (t : N) (name : N)      (* glGenBuffers, glGenTextures, ... (1, &name) *)
| GlDelete (t : N) (name : N).  (* glDeleteBuffers, ... (1, &name) *)

#[global] Instance GLcall_eq_dec : EqDecision GLcall.
Proof. solve_decision. Defined.

Record GlobalNameSpace : Type := mkGlobalNameSpace {
  m_deleteInitialized : bool;
  gl_calls : list GLcall
}.

(** [GlobalNameSpace::GlobalNameSpace].  Modelled from the spec: the class
    is declared in the header; the deleters are bound lazily by the first
    [genName], so [m_deleteInitialized] starts false. *)
Definition GlobalNameSpace_new : GlobalNameSpace :=
  {| m_deleteInitialized := false; gl_calls := [] |}.

Definition set_deleteInitialized (b : bool) (g : GlobalNameSpace) : GlobalNameSpace :=
  {| m_deleteInitialized := b; gl_calls := gl_calls g |}.

Definition log_call (c : GLcall) (g : GlobalNameSpace) : GlobalNameSpace :=
  {| m_deleteInitialized := m_deleteInitialized g; gl_calls := c :: gl_calls g |}.

(** The object types the driver has names for: the four cases of the
    [switch] of [GlobalNameSpace::genName] that call the dispatcher, which
    are the four entries of [m_glDelete] that are ever bound. *)
Definition driver_type (t : N) : bool := t <? SHADER.

(** How often the dispatcher deleted the name [g] of type [t]. *)
Definition deletions (t g : N) (calls : list GLcall) : nat :=
  length (filter (fun c => c = GlDelete t g) calls).

Section Driver.

(** The host driver: the name it writes for a glGen* call of a type, given
    the calls made so far.  Every sequence of answers is such a function,
    as every call extends the history. *)
Variable glGen : N -> list GLcall -> N.

(** [GlobalNameSpace::genName] *)
Definition GlobalNameSpace_genName (p_type : NamedObjectType) : M GlobalNameSpace N :=
  if NUM_OBJECT_TYPES <=? p_type then ret 0
  else
    name <- (if driver_type p_type
             then
               calls <- gets gl_calls ;;
               let name := wrap uint_bits (glGen p_type calls) in
               modify (log_call (GlGen p_type name)) ;;;
               ret name
             else ret 0) ;;
    initialized <- gets m_deleteInitialized ;;
    (if negb initialized then modify (set_deleteInitialized true) else ret tt) ;;;
    ret name.

(** [GlobalNameSpace::deleteName].  [m_glDelete[p_type]] is bound by the
    first [genName] and only for the driver types; a call through an entry
    that is not bound, or past the end of the array, stops the process. *)
Definition GlobalNameSpace_deleteName (p_type : NamedObjectType) (p_name : N)
  : M GlobalNameSpace unit :=
  if negb (p_type =? SHADER) then
    initialized <- gets m_deleteInitialized ;;
    assert (initialized && driver_type p_type) ;;;
    modify (log_call (GlDelete p_type p_name))
  else ret tt.

(** ** NameSpace: the name table of one object type *)

Record NameSpace : Type := mkNameSpace {
  m_type : NamedObjectType;
  m_nextName : ObjectLocalName;
  m_localToGlobalMap : NamesMap;
  m_globalToLocalMap : NamesMap
}.

(** [NameSpace::NameSpace].  Modelled from the spec: the constructor leaves
    [m_nextName] to its initialiser in the header; the counter of the spec
    only goes up, and it is started at 0. *)
Definition NameSpace_new (p_type : NamedObjectType) : NameSpace :=
  {| m_type := p_type; m_nextName := 0;
     m_localToGlobalMap := ∅; m_globalToLocalMap := ∅ |}.

Definition set_nextName (n : N) (ns : NameSpace) : NameSpace :=
  {| m_type := m_type ns; m_nextName := n;
     m_localToGlobalMap := m_localToGlobalMap ns;
     m_globalToLocalMap := m_globalToLocalMap ns |}.

Definition set_maps (l2g g2l : gmap N N) (ns : NameSpace) : NameSpace :=
  {| m_type := m_type ns; m_nextName := m_nextName ns;
     m_localToGlobalMap := l2g; m_globalToLocalMap := g2l |}.

(** A name the do-while loop of [genName] passes over. *)
Definition taken (names : gmap N N) (localName : N) : bool :=
  (localName =? 0) || bool_decide (is_Some (names !! localName)).

(** The loop [do { localName = ++m_nextName; } while (localName == 0 ||
    found)], run for at most [fuel] rounds: the value the counter stops at. *)
Fixpoint next_free (fuel : nat) (names : gmap N N) (nextName : N) : option N :=
  match fuel with
  | O => None
  | S fuel' =>
      let localName := wrap local_name_bits (nextName + 1) in
      if taken names localName then next_free fuel' names localName
      else Some localName
  end.

(** Rounds after which a loop that has not stopped never stops
    ([next_free_exhausted] below). *)
Definition rounds (names : gmap N N) : nat := size names + 2.

(** A method of the global name space called from a name space
    ([m_globalNameSpace->...]). *)
Definition global {A} (m : M GlobalNameSpace A) : M (NameSpace * GlobalNameSpace) A :=
  zoom snd (fun g s => (fst s, g)) m.

Definition this_ns {A} (f : NameSpace -> A) : M (NameSpace * GlobalNameSpace) A :=
  gets (fun s => f (fst s)).

Definition update_ns (f : NameSpace -> NameSpace) : M (NameSpace * GlobalNameSpace) unit :=
  modify (fun s => (f (fst s), snd s)).

(** [NameSpace::genName] *)
Definition NameSpace_genName (p_localName : ObjectLocalName) (genGlobal genLocal : bool)
  : M (NameSpace * GlobalNameSpace) N :=
  localName <- (if genLocal
                then
                  names <- this_ns m_localToGlobalMap ;;
                  nextName <- this_ns m_nextName ;;
                  match next_free (rounds names) names nextName with
                  | Some localName =>
                      update_ns (set_nextName localName) ;;; ret localName
                  | None => diverge
                  end
                else ret p_localName) ;;
  (if genGlobal
   then
     type <- this_ns m_type ;;
     globalName <- global (GlobalNameSpace_genName type) ;;
     update_ns (fun ns =>
       set_maps (<[localName := globalName]> (m_localToGlobalMap ns))
                (<[globalName := localName]> (m_globalToLocalMap ns)) ns)
   else ret tt) ;;;
  ret localName.

(** [NameSpace::genGlobalName] *)
Definition NameSpace_genGlobalName : M (NameSpace * GlobalNameSpace) N :=
  type <- this_ns m_type ;;
  global (GlobalNameSpace_genName type).

(** [NameSpace::getGlobalName] *)
Definition NameSpace_getGlobalName (p_localName : ObjectLocalName)
  : M (NameSpace * GlobalNameSpace) N :=
  n <- this_ns (fun ns => m_localToGlobalMap ns !! p_localName) ;;
  match n with
  | Some globalName => ret globalName
  | None => ret 0
  end.

(** [NameSpace::getLocalName] *)
Definition NameSpace_getLocalName (p_globalName : N)
  : M (NameSpace * GlobalNameSpace) N :=
  it <- this_ns (fun ns => m_globalToLocalMap ns !! p_globalName) ;;
  match it with
  | Some localName => ret localName
  | None => ret 0
  end.

(** [NameSpace::deleteName] *)
Definition NameSpace_deleteName (p_localName : ObjectLocalName)
  : M (NameSpace * GlobalNameSpace) unit :=
  n <- this_ns (fun ns => m_localToGlobalMap ns !! p_localName) ;;
  match n with
  | Some globalName =>
      type <- this_ns m_type ;;
      (if negb (type =? TEXTURE)
       then global (GlobalNameSpace_deleteName type globalName)
       else ret tt) ;;;
      update_ns (fun ns =>
        set_maps (delete p_localName (m_localToGlobalMap ns))
                 (delete globalName (m_globalToLocalMap ns)) ns)
  | None => ret tt
  end.

(** [NameSpace::isObject] *)
Definition NameSpace_isObject (p_localName : ObjectLocalName)
  : M (NameSpace * GlobalNameSpace) bool :=
  this_ns (fun ns => bool_decide (is_Some (m_localToGlobalMap ns !! p_localName))).

(** [emplace] of [std::unordered_map]: inserts unless the key is there. *)
Definition emplace `{Countable K} {V} (k : K) (v : V) (m : gmap K V) : gmap K V :=
  match m !! k with
  | Some _ => m
  | None => <[k := v]> m
  end.

(** [NameSpace::replaceGlobalName] *)
Definition NameSpace_replaceGlobalName (p_localName : ObjectLocalName) (p_globalName : N)
  : M (NameSpace * GlobalNameSpace) unit :=
  n <- this_ns (fun ns => m_localToGlobalMap ns !! p_localName) ;;
  match n with
  | Some globalName =>
      type <- this_ns m_type ;;
      (if negb (type =? TEXTURE)
       then global (GlobalNameSpace_deleteName type globalName)
       else ret tt) ;;;
      update_ns (fun ns =>
        set_maps (<[p_localName := p_globalName]> (m_localToGlobalMap ns))
                 (emplace p_globalName p_localName
                    (delete globalName (m_globalToLocalMap ns))) ns)
  | None => ret tt
  end.

(** [NameSpace::~NameSpace]: every global name left in the table is deleted,
    textures too.  The order is that of the iteration of the unordered map,
    which C++ does not fix; here it is the order of [map_to_list]. *)
Definition NameSpace_destroy (ns : NameSpace) : M GlobalNameSpace unit :=
  foldr (fun n rest => GlobalNameSpace_deleteName (m_type ns) n.2 ;;; rest)
        (ret tt) (map_to_list (m_localToGlobalMap ns)).

End Driver.

(** ** ShareGroup: the name tables, object data and texture counters of a group *)

(** [ObjectDataPtr], a shared pointer to the data of an object: [None] is
    the empty pointer, [Some a] points at the object [a]. *)
Abbreviation ObjectDataPtr := (option N) (only parsing).

(** The key built by [TypedObjectName(type, name)]; its [operator==]
    compares both fields. *)
Definition TypedObjectName (type : NamedObjectType) (name : ObjectLocalName) : N * N :=
  (name, type).

Record ShareGroup : Type := mkShareGroup {
  m_nameSpace : vec NameSpace 5;
  m_objectsData : option (gmap (N * N) (option N));
  m_globalTextureRefCounter : option (gmap N N)
}.

Definition set_nameSpace (v : vec NameSpace 5) (sg : ShareGroup) : ShareGroup :=
  {| m_nameSpace := v; m_objectsData := m_objectsData sg;
     m_globalTextureRefCounter := m_globalTextureRefCounter sg |}.

Definition set_objectsData (d : option (gmap (N * N) (option N))) (sg : ShareGroup)
  : ShareGroup :=
  {| m_nameSpace := m_nameSpace sg; m_objectsData := d;
     m_globalTextureRefCounter := m_globalTextureRefCounter sg |}.

Definition set_globalTextureRefCounter (c : option (gmap N N)) (sg : ShareGroup)
  : ShareGroup :=
  {| m_nameSpace := m_nameSpace sg; m_objectsData := m_objectsData sg;
     m_globalTextureRefCounter := c |}.

(** [ShareGroup::ShareGroup]: one name space per type.  Modelled from the
    spec: the constructor leaves [m_objectsData] and
    [m_globalTextureRefCounter] to their initialisers in the header; both
    maps are created on first use ([if (!map) map = new ...]), so the
    pointers start null. *)
Definition ShareGroup_new : ShareGroup :=
  {| m_nameSpace := [# NameSpace_new VERTEXBUFFER; NameSpace_new TEXTURE;
                       NameSpace_new RENDERBUFFER; NameSpace_new FRAMEBUFFER;
                       NameSpace_new SHADER ];
     m_objectsData := None;
     m_globalTextureRefCounter := None |}.

(** The slot of [m_nameSpace] an object type indexes, if it is in the array. *)
Definition type_index (p_type : NamedObjectType) : option (fin 5) :=
  match p_type with
  | 0 => Some 0%fin
  | 1 => Some 1%fin
  | 2 => Some 2%fin
  | 3 => Some 3%fin
  | 4 => Some 4%fin
  | _ => None
  end.

(** The name spaces are built with their own index as type and never change
    it. *)
Definition typed (sg : ShareGroup) : Prop :=
  forall i : fin 5, m_type (m_nameSpace sg !!! i) = N.of_nat (fin_to_nat i).

Section DriverGroup.

Variable glGen : N -> list GLcall -> N.

Definition this_sg {A} (f : ShareGroup -> A) : M (ShareGroup * GlobalNameSpace) A :=
  gets (fun s => f (fst s)).

Definition update_sg (f : ShareGroup -> ShareGroup) : M (ShareGroup * GlobalNameSpace) unit :=
  modify (fun s => (f (fst s), snd s)).

(** A method of [m_nameSpace[p_type]]; an index past the array is a wild
    pointer. *)
Definition name_space {A} (p_type : NamedObjectType) (m : M (NameSpace * GlobalNameSpace) A)
  : M (ShareGroup * GlobalNameSpace) A :=
  match type_index p_type with
  | Some i =>
      zoom (fun s => (m_nameSpace (fst s) !!! i, snd s))
           (fun t s => (set_nameSpace (vinsert i (fst t) (m_nameSpace (fst s))) (fst s),
                        snd t))
           m
  | None => fault
  end.

(** [ShareGroup::incTexRefCounterNoLock]; [operator[]] of the map starts a
    missing counter at 0. *)
Definition ShareGroup_incTexRefCounterNoLock (p_globalName : N)
  : M (ShareGroup * GlobalNameSpace) N :=
  counters <- this_sg m_globalTextureRefCounter ;;
  let map := match counters with Some map => map | None => ∅ end in
  let val := wrap size_t_bits (default 0 (map !! p_globalName) + 1) in
  update_sg (set_globalTextureRefCounter (Some (<[p_globalName := val]> map))) ;;;
  ret val.

(** [ShareGroup::incTexRefCounter] *)
Definition ShareGroup_incTexRefCounter (p_globalName : N)
  : M (ShareGroup * GlobalNameSpace) N :=
  ShareGroup_incTexRefCounterNoLock p_globalName.

(** [ShareGroup::decTexRefCounterAndReleaseIf0].  [assert] stops the
    process; where it is compiled out, [map->find] through the null pointer
    does.  After [assert(val != 0)] the decrement does not wrap. *)
Definition ShareGroup_decTexRefCounterAndReleaseIf0 (p_globalName : N)
  : M (ShareGroup * GlobalNameSpace) N :=
  counters <- this_sg m_globalTextureRefCounter ;;
  match counters with
  | None => fault
  | Some map =>
      match map !! p_globalName with
      | None => ret 0
      | Some val =>
          assert (negb (val =? 0)) ;;;
          let val := val - 1 in
          if negb (val =? 0)
          then
            update_sg (set_globalTextureRefCounter (Some (<[p_globalName := val]> map))) ;;;
            ret val
          else
            update_sg (set_globalTextureRefCounter (Some (delete p_globalName map))) ;;;
            name_space TEXTURE (global (GlobalNameSpace_deleteName TEXTURE p_globalName)) ;;;
            ret 0
      end
  end.

(** [ShareGroup::genName] *)
Definition ShareGroup_genName (p_type : NamedObjectType) (p_localName : ObjectLocalName)
    (genLocal : bool) : M (ShareGroup * GlobalNameSpace) N :=
  if NUM_OBJECT_TYPES <=? p_type then ret 0
  else
    localName <- name_space p_type (NameSpace_genName glGen p_localName true genLocal) ;;
    (if p_type =? TEXTURE
     then
       globalName <- name_space p_type (NameSpace_getGlobalName localName) ;;
       ShareGroup_incTexRefCounterNoLock globalName ;;; ret tt
     else ret tt) ;;;
    ret localName.

(** [ShareGroup::genGlobalName] *)
Definition ShareGroup_genGlobalName (p_type : NamedObjectType)
  : M (ShareGroup * GlobalNameSpace) N :=
  if NUM_OBJECT_TYPES <=? p_type then ret 0
  else name_space p_type (NameSpace_genGlobalName glGen).

(** [ShareGroup::getGlobalName] *)
Definition ShareGroup_getGlobalName (p_type : NamedObjectType) (p_localName : ObjectLocalName)
  : M (ShareGroup * GlobalNameSpace) N :=
  if NUM_OBJECT_TYPES <=? p_type then ret 0
  else name_space p_type (NameSpace_getGlobalName p_localName).

(** [ShareGroup::getLocalName] *)
Definition ShareGroup_getLocalName (p_type : NamedObjectType) (p_globalName : N)
  : M (ShareGroup * GlobalNameSpace) N :=
  if NUM_OBJECT_TYPES <=? p_type then ret 0
  else name_space p_type (NameSpace_getLocalName p_globalName).

(** [ShareGroup::deleteName] *)
Definition ShareGroup_deleteName (p_type : NamedObjectType) (p_localName : ObjectLocalName)
  : M (ShareGroup * GlobalNameSpace) unit :=
  if NUM_OBJECT_TYPES <=? p_type then ret tt
  else
    name_space p_type (NameSpace_deleteName p_localName) ;;;
    data <- this_sg m_objectsData ;;
    match data with
    | Some map =>
        update_sg (set_objectsData
                     (Some (delete (TypedObjectName p_type p_localName) map)))
    | None => ret tt
    end.

(** [ShareGroup::isObject] *)
Definition ShareGroup_isObject (p_type : NamedObjectType) (p_localName : ObjectLocalName)
  : M (ShareGroup * GlobalNameSpace) bool :=
  if NUM_OBJECT_TYPES <=? p_type then ret false
  else name_space p_type (NameSpace_isObject p_localName).

(** [ShareGroup::replaceGlobalName] *)
Definition ShareGroup_replaceGlobalName (p_type : NamedObjectType)
    (p_localName : ObjectLocalName) (p_globalName : N)
  : M (ShareGroup * GlobalNameSpace) unit :=
  if NUM_OBJECT_TYPES <=? p_type then ret tt
  else name_space p_type (NameSpace_replaceGlobalName p_localName p_globalName).

(** [ShareGroup::setObjectData] *)
Definition ShareGroup_setObjectData (p_type : NamedObjectType)
    (p_localName : ObjectLocalName) (data : ObjectDataPtr)
  : M (ShareGroup * GlobalNameSpace) unit :=
  if NUM_OBJECT_TYPES <=? p_type then ret tt
  else
    data_map <- this_sg m_objectsData ;;
    let map := match data_map with Some map => map | None => ∅ end in
    let id := TypedObjectName p_type p_localName in
    update_sg (set_objectsData (Some (emplace id data map))).

(** [ShareGroup::getObjectData] *)
Definition ShareGroup_getObjectData (p_type : NamedObjectType) (p_localName : ObjectLocalName)
  : M (ShareGroup * GlobalNameSpace) ObjectDataPtr :=
  if NUM_OBJECT_TYPES <=? p_type then ret None
  else
    data_map <- this_sg m_objectsData ;;
    match data_map with
    | Some map =>
        match map !! TypedObjectName p_type p_localName with
        | Some data => ret data
        | None => ret None
        end
    | None => ret None
    end.

(** [ShareGroup::~ShareGroup]: the name spaces are deleted in the order of
    their types; the two maps hold no names of the driver. *)
Definition ShareGroup_destroy (sg : ShareGroup) : M GlobalNameSpace unit :=
  foldr (fun ns rest => NameSpace_destroy ns ;;; rest) (ret tt)
        (vec_to_list (m_nameSpace sg)).

End DriverGroup.

(** ** ObjectNameManager: the registry of share groups *)

(** [ShareGroupPtr], a [std::shared_ptr<ShareGroup>]: [None] is the empty
    pointer, [Some p] owns the group at address [p]. *)
Abbreviation ShareGroupPtr := (option N) (only parsing).

(** The manager with the objects its pointers reach.  A group lives as long
    as a shared pointer owns it: an entry of [m_groups], or a copy the
    manager returned to a caller, who holds it ([held], one entry per copy)
    until the copy is dropped. *)
Record ObjectNameManager : Type := mkObjectNameManager {
  m_groups : gmap N N;
  heap : gmap N ShareGroup;
  held : list N;
  m_globalNameSpace : GlobalNameSpace
}.

Definition set_groups (m : gmap N N) (w : ObjectNameManager) : ObjectNameManager :=
  {| m_groups := m; heap := heap w; held := held w;
     m_globalNameSpace := m_globalNameSpace w |}.

Definition set_heap (h : gmap N ShareGroup) (w : ObjectNameManager) : ObjectNameManager :=
  {| m_groups := m_groups w; heap := h; held := held w;
     m_globalNameSpace := m_globalNameSpace w |}.

Definition set_held (l : list N) (w : ObjectNameManager) : ObjectNameManager :=
  {| m_groups := m_groups w; heap := heap w; held := l;
     m_globalNameSpace := m_globalNameSpace w |}.

Definition set_globalNameSpace (g : GlobalNameSpace) (w : ObjectNameManager)
  : ObjectNameManager :=
  {| m_groups := m_groups w; heap := heap w; held := held w;
     m_globalNameSpace := g |}.

(** [ObjectNameManager::ObjectNameManager] *)
Definition ObjectNameManager_new (globalNameSpace : GlobalNameSpace) : ObjectNameManager :=
  {| m_groups := ∅; heap := ∅; held := []; m_globalNameSpace := globalNameSpace |}.

(** Some shared pointer owns the group at [p]. *)
Definition owned (p : N) (w : ObjectNameManager) : bool :=
  bool_decide (p ∈ (map_to_list (m_groups w)).*2 ∨ p ∈ held w).

(** The end of a shared pointer to [p]: the group is destroyed when it was
    the last one. *)
Definition release (p : N) : M ObjectNameManager unit :=
  still <- gets (owned p) ;;
  if still then ret tt
  else
    group <- gets (fun w => heap w !! p) ;;
    match group with
    | Some sg =>
        zoom m_globalNameSpace set_globalNameSpace (ShareGroup_destroy sg) ;;;
        modify (fun w => set_heap (delete p (heap w)) w)
    | None => ret tt
    end.

(** A copy of the pointer goes to the caller. *)
Definition hand_out (p : N) : M ObjectNameManager ShareGroupPtr :=
  modify (fun w => set_held (p :: held w) w) ;;;
  ret (Some p).

(** One copy less of [p] among the copies held. *)
Fixpoint remove_one (p : N) (l : list N) : list N :=
  match l with
  | [] => []
  | q :: l' => if bool_decide (p = q) then l' else q :: remove_one p l'
  end.

(** The caller drops a copy it holds. *)
Definition ShareGroupPtr_drop (p : N) : M ObjectNameManager unit :=
  copies <- gets held ;;
  if bool_decide (p ∈ copies)
  then
    modify (fun w => set_held (remove_one p (held w)) w) ;;;
    release p
  else ret tt.

(** [ObjectNameManager::createShareGroup]; [new ShareGroup] is at an address
    where no group lives. *)
Definition ObjectNameManager_createShareGroup (p_groupName : N)
  : M ObjectNameManager ShareGroupPtr :=
  s <- gets (fun w => m_groups w !! p_groupName) ;;
  match s with
  | Some p => hand_out p
  | None =>
      p <- gets (fun w => fresh (dom (heap w))) ;;
      modify (fun w => set_heap (<[p := ShareGroup_new]> (heap w)) w) ;;;
      modify (fun w => set_groups (emplace p_groupName p (m_groups w)) w) ;;;
      hand_out p
  end.

(** [ObjectNameManager::getShareGroup] *)
Definition ObjectNameManager_getShareGroup (p_groupName : N)
  : M ObjectNameManager ShareGroupPtr :=
  s <- gets (fun w => m_groups w !! p_groupName) ;;
  match s with
  | Some p => hand_out p
  | None => ret None
  end.

(** [ObjectNameManager::attachShareGroup] *)
Definition ObjectNameManager_attachShareGroup (p_groupName p_existingGroupName : N)
  : M ObjectNameManager ShareGroupPtr :=
  s <- gets (fun w => m_groups w !! p_existingGroupName) ;;
  match s with
  | None => ret None
  | Some p =>
      found <- gets (fun w => m_groups w !! p_groupName) ;;
      (if bool_decide (found = None)
       then modify (fun w => set_groups (emplace p_groupName p (m_groups w)) w)
       else ret tt) ;;;
      hand_out p
  end.

(** [ObjectNameManager::deleteShareGroup] *)
Definition ObjectNameManager_deleteShareGroup (p_groupName : N)
  : M ObjectNameManager unit :=
  s <- gets (fun w => m_groups w !! p_groupName) ;;
  match s with
  | Some p =>
      modify (fun w => set_groups (delete p_groupName (m_groups w)) w) ;;;
      release p
  | None => ret tt
  end.

(** [ObjectNameManager::getGlobalContext]: the null pointer for an empty
    registry, the key of the first entry otherwise; [begin()] is the first
    entry of an order C++ does not fix, here that of [map_to_list]. *)
Definition ObjectNameManager_getGlobalContext : M ObjectNameManager N :=
  gets (fun w =>
          match map_to_list (m_groups w) with
          | [] => 0
          | first :: _ => first.1
          end).

(** A method of the group a shared pointer owns, called through it. *)
Definition through {A} (ptr : ShareGroupPtr) (m : M (ShareGroup * GlobalNameSpace) A)
  : M ObjectNameManager A :=
  match ptr with
  | None => fault
  | Some p =>
      fun w =>
        match heap w !! p with
        | None => Fault
        | Some sg =>
            zoom (fun w => (sg, m_globalNameSpace w))
                 (fun t w => set_globalNameSpace (snd t)
                               (set_heap (<[p := fst t]> (heap w)) w))
                 m w
        end
  end.

(** ** Sequences of calls and what is observed of them *)

(** [n] calls of a method in a row, with their results in order. *)
Fixpoint repeat_m {S A} (n : nat) (m : M S A) : M S (list A) :=
  match n with
  | O => ret []
  | S n' => a <- m ;; rest <- repeat_m n' m ;; ret (a :: rest)
  end.

(** The counter of a global texture name, if the group has one. *)
Definition counter (sg : ShareGroup) (g : N) : option N :=
  match m_globalTextureRefCounter sg with
  | Some map => map !! g
  | None => None
  end.

(** The group with the counter of [g] at [c], and without it. *)
Definition counted (c g : N) (sg : ShareGroup) : ShareGroup :=
  set_globalTextureRefCounter
    (Some (<[g := c]> (default ∅ (m_globalTextureRefCounter sg)))) sg.

Definition uncounted (g : N) (sg : ShareGroup) : ShareGroup :=
  set_globalTextureRefCounter
    (Some (delete g (default ∅ (m_globalTextureRefCounter sg)))) sg.

(** The entry of the object data store for a key, if there is one. *)
Definition stored (sg : ShareGroup) (t l : N) : option (option N) :=
  match m_objectsData sg with
  | Some map => map !! TypedObjectName t l
  | None => None
  end.

(** The global name a group has for a local name of a type, and the local
    name it has for a global one, if any. *)
Definition global_of (sg : ShareGroup) (t l : N) : option N :=
  match type_index t with
  | Some i => m_localToGlobalMap (m_nameSpace sg !!! i) !! l
  | None => None
  end.

Definition local_of (sg : ShareGroup) (t g : N) : option N :=
  match type_index t with
  | Some i => m_globalToLocalMap (m_nameSpace sg !!! i) !! g
  | None => None
  end.

(** The driver is called to delete names of its four types, except
    textures, when they leave a name table. *)
Definition deleted_with_name (t : N) : bool := driver_type t && negb (t =? TEXTURE).

(** The two maps of a name space are inverses of each other. *)
Definition inverse (ns : NameSpace) : Prop :=
  forall l g, m_localToGlobalMap ns !! l = Some g <-> m_globalToLocalMap ns !! g = Some l.

(** The calls that change a name table. *)
Inductive table_op : Type :=
| Generate (requestedLocal : N) (allocateGlobal allocateLocal : bool)
| Remove (localName : N)
| Rebind (localName newGlobal : N).

Definition table_step (glGen : N -> list GLcall -> N) (op : table_op)
  : M (NameSpace * GlobalNameSpace) unit :=
  match op with
  | Generate requestedLocal allocateGlobal allocateLocal =>
      NameSpace_genName glGen requestedLocal allocateGlobal allocateLocal ;;; ret tt
  | Remove localName => NameSpace_deleteName localName
  | Rebind localName newGlobal => NameSpace_replaceGlobalName localName newGlobal
  end.

(** The value a call returns, if it returns. *)
Definition returned {A S} (o : outcome (A * S)) : option A :=
  match o with
  | Ret (a, _) => Some a
  | _ => None
  end.

(** The names a call brings into the table are new to it: a requested local
    name is not yet a key, the global name the driver hands out is bound to
    no local name, and the global name of a rebind is bound to no other
    local name. *)
Definition brings_new_names (glGen : N -> list GLcall -> N) (op : table_op)
    (s : NameSpace * GlobalNameSpace) : Prop :=
  match op with
  | Generate requestedLocal true allocateLocal =>
      (allocateLocal = false -> m_localToGlobalMap s.1 !! requestedLocal = None) /\
      (forall globalName,
         returned (GlobalNameSpace_genName glGen (m_type s.1) s.2) = Some globalName ->
         m_globalToLocalMap s.1 !! globalName = None)
  | Generate _ false _ => True
  | Remove _ => True
  | Rebind localName newGlobal =>
      forall l, m_globalToLocalMap s.1 !! newGlobal = Some l -> l = localName
  end.

(** The states a table goes through from [s0] under calls that bring new
    names, with the calls made so far. *)
Inductive observed (glGen : N -> list GLcall -> N) (s0 : NameSpace * GlobalNameSpace)
  : list table_op -> NameSpace * GlobalNameSpace -> Prop :=
| observed_start : observed glGen s0 [] s0
| observed_step ops s op s' :
    observed glGen s0 ops s ->
    brings_new_names glGen op s ->
    table_step glGen op s = Ret (tt, s') ->
    observed glGen s0 (ops ++ [op]) s'.

(** A group can be destroyed: its name spaces have their types, and the
    deleters of the global name space are bound unless the tables have no
    names. *)
Definition sound (sg : ShareGroup) (g : GlobalNameSpace) : Prop :=
  typed sg /\
  (m_deleteInitialized g = true \/
   forall i : fin 5, m_localToGlobalMap (m_nameSpace sg !!! i) = ∅).

(** The groups of a manager can be destroyed. *)
Definition destructible (w : ObjectNameManager) : Prop :=
  forall p sg, heap w !! p = Some sg -> sound sg (m_globalNameSpace w).

(** A method of a group keeps it so, and does not unbind the deleters. *)
Definition keeps_sound {A} (m : M (ShareGroup * GlobalNameSpace) A) : Prop :=
  forall sg g a sg' g',
    sound sg g -> m (sg, g) = Ret (a, (sg', g')) ->
    sound sg' g' /\ (m_deleteInitialized g = true -> m_deleteInitialized g' = true).

(** The same of a method of a name space. *)
Definition keeps_sound_ns {A} (m : M (NameSpace * GlobalNameSpace) A) : Prop :=
  forall ns g a ns' g',
    m_type ns < NUM_OBJECT_TYPES ->
    m (ns, g) = Ret (a, (ns', g')) ->
    m_type ns' = m_type ns /\
    (m_deleteInitialized g = true -> m_deleteInitialized g' = true) /\
    (m_deleteInitialized g = true \/ m_localToGlobalMap ns = ∅ ->
     m_deleteInitialized g' = true \/ m_localToGlobalMap ns' = ∅).

(** ** The calls of a group and of the registry *)

(** The public methods of a share group, as calls. *)
Inductive group_call : Type :=
| GenName (t l : N) (genLocal : bool)
| GenGlobalName (t : N)
| GetGlobalName (t l : N)
| GetLocalName (t g : N)
| DeleteName (t l : N)
| IsObject (t l : N)
| ReplaceGlobalName (t l g : N)
| SetObjectData (t l : N) (data : option N)
| GetObjectData (t l : N)
| IncTexRefCounter (g : N)
| DecTexRefCounterAndReleaseIf0 (g : N).

Definition group_step (glGen : N -> list GLcall -> N) (c : group_call)
  : M (ShareGroup * GlobalNameSpace) unit :=
  match c with
  | GenName t l genLocal => ShareGroup_genName glGen t l genLocal ;;; ret tt
  | GenGlobalName t => ShareGroup_genGlobalName glGen t ;;; ret tt
  | GetGlobalName t l => ShareGroup_getGlobalName t l ;;; ret tt
  | GetLocalName t g => ShareGroup_getLocalName t g ;;; ret tt
  | DeleteName t l => ShareGroup_deleteName t l
  | IsObject t l => ShareGroup_isObject t l ;;; ret tt
  | ReplaceGlobalName t l g => ShareGroup_replaceGlobalName t l g
  | SetObjectData t l data => ShareGroup_setObjectData t l data
  | GetObjectData t l => ShareGroup_getObjectData t l ;;; ret tt
  | IncTexRefCounter g => ShareGroup_incTexRefCounter g ;;; ret tt
  | DecTexRefCounterAndReleaseIf0 g => ShareGroup_decTexRefCounterAndReleaseIf0 g ;;; ret tt
  end.

(** The states of a group and the global name space it was built on: the
    group starts as the constructor makes it, on any global name space whose
    deleters are bound or not, and goes on by calls that return. *)
Inductive group_reaches (glGen : N -> list GLcall -> N)
  : ShareGroup * GlobalNameSpace -> Prop :=
| group_starts g : group_reaches glGen (ShareGroup_new, g)
| group_goes_on s c s' :
    group_reaches glGen s ->
    group_step glGen c s = Ret (tt, s') ->
    group_reaches glGen s'.

(** Every key of the registry leads to a group that lives. *)
Definition live_keys (w : ObjectNameManager) : Prop :=
  forall key p, m_groups w !! key = Some p -> is_Some (heap w !! p).

(** The calls made on the registry: its public methods, a caller dropping a
    copy of a pointer it was given, and a method of a group called through
    a pointer. *)
Inductive registry_call : Type :=
| CreateShareGroup (key : N)
| GetShareGroup (key : N)
| AttachShareGroup (key existing : N)
| DeleteShareGroup (key : N)
| GetGlobalContext
| DropPtr (p : N)
| Through (p : N) (c : group_call).

Definition registry_step (glGen : N -> list GLcall -> N) (c : registry_call)
  : M ObjectNameManager unit :=
  match c with
  | CreateShareGroup key => ObjectNameManager_createShareGroup key ;;; ret tt
  | GetShareGroup key => ObjectNameManager_getShareGroup key ;;; ret tt
  | AttachShareGroup key existing =>
      ObjectNameManager_attachShareGroup key existing ;;; ret tt
  | DeleteShareGroup key => ObjectNameManager_deleteShareGroup key
  | GetGlobalContext => ObjectNameManager_getGlobalContext ;;; ret tt
  | DropPtr p => ShareGroupPtr_drop p
  | Through p c => through (Some p) (group_step glGen c)
  end.

(** The calls that are methods of the registry or the end of a pointer. *)
Definition of_registry (c : registry_call) : bool :=
  match c with
  | Through _ _ => false
  | _ => true
  end.

(** The states of a manager: it starts as the constructor makes it, on any
    global name space, and goes on by calls that return. *)
Inductive registry_reaches (glGen : N -> list GLcall -> N) : ObjectNameManager -> Prop :=
| registry_starts g : registry_reaches glGen (ObjectNameManager_new g)
| registry_goes_on w c w' :
    registry_reaches glGen w ->
    registry_step glGen c w = Ret (tt, w') ->
    registry_reaches glGen w'.

(** A group lives exactly as long as a shared pointer owns it. *)
Definition lives_while_owned (w : ObjectNameManager) : Prop :=
  forall p, is_Some (heap w !! p) <-> owned p w = true.

(** ** Inputs of the examples *)

(** A driver that numbers the names it hands out by the calls made. *)
Definition counting (t : N) (calls : list GLcall) : N := N.of_nat (length calls) + 1.

(** A manager with one group under the two keys 100 and 200, as
    [createShareGroup(100)] and [attachShareGroup(200, 100)] leave it once
    the callers have dropped their copies. *)
Definition two_keys_one_group : ObjectNameManager :=
  {| m_groups := {[ 100 := 0; 200 := 0 ]};
     heap := {[ 0 := ShareGroup_new ]};
     held := [];
     m_globalNameSpace := GlobalNameSpace_new |}.

(** A manager with one group under the key 100 and no copy held. *)
Definition one_key_one_group : ObjectNameManager :=
  {| m_groups := {[ 100 := 0 ]};
     heap := {[ 0 := ShareGroup_new ]};
     held := [];
     m_globalNameSpace := GlobalNameSpace_new |}.

(** A manager with one group under the null key, as [createShareGroup(nullptr)]
    leaves it once the caller has dropped its copy. *)
Definition null_key_one_group : ObjectNameManager :=
  {| m_groups := {[ 0 := 0 ]};
     heap := {[ 0 := ShareGroup_new ]};
     held := [];
     m_globalNameSpace := GlobalNameSpace_new |}.

(** A manager after [createShareGroup(100)], the caller holding the
    pointer it was given. *)
Definition one_key_one_group_held : ObjectNameManager :=
  {| m_groups := {[ 100 := 0 ]};
     heap := {[ 0 := ShareGroup_new ]};
     held := [0];
     m_globalNameSpace := GlobalNameSpace_new |}.

(** A framebuffer name space with the one name 1, global 1, and the global
    name space after the call of the driver that made it. *)
Definition one_framebuffer : NameSpace :=
  {| m_type := FRAMEBUFFER; m_nextName := 1;
     m_localToGlobalMap := {[ 1 := 1 ]};
     m_globalToLocalMap := {[ 1 := 1 ]} |}.

Definition after_one_gen (t : N) : GlobalNameSpace :=
  {| m_deleteInitialized := true; gl_calls := [GlGen t 1] |}.

(** A new group with that name space in the slot of the framebuffers. *)
Definition group_with_one_framebuffer : ShareGroup :=
  set_nameSpace (vinsert 3%fin one_framebuffer (m_nameSpace ShareGroup_new)) ShareGroup_new.

(** A framebuffer name space with the one name 1 and the counter at its
    last value, and the name space after a [genName] that picks the name:
    the counter wraps to 0, passes over it and over 1, and stops at 2. *)
Definition framebuffer_before_wrap : NameSpace :=
  {| m_type := FRAMEBUFFER; m_nextName := 2 ^ 64 - 1;
     m_localToGlobalMap := {[ 1 := 1 ]};
     m_globalToLocalMap := {[ 1 := 1 ]} |}.

Definition framebuffer_after_wrap : NameSpace :=
  {| m_type := FRAMEBUFFER; m_nextName := 2;
     m_localToGlobalMap := <[ 2 := 2 ]> {[ 1 := 1 ]};
     m_globalToLocalMap := <[ 2 := 2 ]> {[ 1 := 1 ]} |}.

Definition after_two_gens (t : N) : GlobalNameSpace :=
  {| m_deleteInitialized := true; gl_calls := [GlGen t 2; GlGen t 1] |}.

(** A texture name space with the one name 1, global 1, and a new group
    with it in the slot of the textures and the global name counted once:
    the group after its first [genName] of a texture. *)
Definition one_texture : NameSpace :=
  {| m_type := TEXTURE; m_nextName := 1;
     m_localToGlobalMap := {[ 1 := 1 ]};
     m_globalToLocalMap := {[ 1 := 1 ]} |}.

Definition group_with_one_texture : ShareGroup :=
  counted 1 1
    (set_nameSpace (vinsert 1%fin one_texture (m_nameSpace ShareGroup_new)) ShareGroup_new).

(** * Properties *)

(** ** Arithmetic of the wrapped counters *)

Ltac lia_mod := zify; Z.to_euclidean_division_equations; lia.

Lemma wrap_wrap_add bits a b : wrap bits (wrap bits a + b) = wrap bits (a + b).
Proof. unfold wrap. apply N.Div0.add_mod_idemp_l. Qed.

Lemma wrap_small bits a : a < 2 ^ bits -> wrap bits a = a.
Proof. unfold wrap. apply N.mod_small. Qed.

Lemma wrap_name_lt a : wrap local_name_bits a < 2 ^ 64.
Proof. unfold wrap, local_name_bits. lia_mod. Qed.

(** Fewer steps than the counter has values lead to different values. *)
Lemma wrap_name_distinct n i j :
  1 <= i -> i < j -> j <= 2 ^ 64 ->
  wrap local_name_bits (n + i) <> wrap local_name_bits (n + j).
Proof. unfold wrap, local_name_bits. intros. lia_mod. Qed.

(** In as many steps as the counter has values, it takes each of them. *)
Lemma wrap_name_onto n x :
  x < 2 ^ 64 -> exists i, 1 <= i <= 2 ^ 64 /\ wrap local_name_bits (n + i) = x.
Proof.
  unfold wrap, local_name_bits. intros Hx.
  destruct (decide ((x + 2 ^ 64 - n mod 2 ^ 64) mod 2 ^ 64 = 0)) as [E|E].
  - exists (2 ^ 64). lia_mod.
  - exists ((x + 2 ^ 64 - n mod 2 ^ 64) mod 2 ^ 64). lia_mod.
Qed.

(** ** The loop that picks a local name *)

Lemma taken_false (m : gmap N N) l : taken m l = false <-> l <> 0 /\ m !! l = None.
Proof.
  unfold taken. rewrite orb_false_iff, N.eqb_neq, bool_decide_eq_false.
  rewrite <- eq_None_not_Some. reflexivity.
Qed.

Lemma taken_true (m : gmap N N) l :
  taken m l = true <-> is_Some (<[0 := 0]> m !! l).
Proof.
  unfold taken. rewrite orb_true_iff, N.eqb_eq, bool_decide_eq_true.
  destruct (decide (l = 0)) as [->|Hne].
  - rewrite lookup_insert_eq. split; [eauto | intros _; left; reflexivity].
  - rewrite lookup_insert_ne by congruence. split; [intros [?|?]; [contradiction | assumption] | auto].
Qed.

Lemma next_free_Some_inv f (m : gmap N N) n l :
  next_free f m n = Some l -> taken m l = false.
Proof.
  revert n. induction f as [|f IH]; intros n; simpl; [discriminate|].
  destruct (taken m (wrap local_name_bits (n + 1))) eqn:E; [apply IH|].
  intros [= <-]. exact E.
Qed.

(** The loop runs out of rounds exactly when it passes over every name it
    meets. *)
Lemma next_free_None f (m : gmap N N) n :
  next_free f m n = None <->
  forall i : nat, (1 <= i <= f)%nat ->
    taken m (wrap local_name_bits (n + N.of_nat i)) = true.
Proof.
  revert n. induction f as [|f IH]; intros n; simpl.
  - split; [intros _ i Hi; lia | reflexivity].
  - destruct (taken m (wrap local_name_bits (n + 1))) eqn:E.
    + rewrite IH. split.
      * intros H i Hi. destruct (decide (i = 1%nat)) as [->|Hne]; [exact E|].
        specialize (H (i - 1)%nat ltac:(lia)).
        rewrite wrap_wrap_add in H.
        replace (n + N.of_nat i) with (n + 1 + N.of_nat (i - 1)) by lia. exact H.
      * intros H i Hi. rewrite wrap_wrap_add.
        replace (n + 1 + N.of_nat i) with (n + N.of_nat (S i)) by lia.
        apply H. lia.
    + split; [discriminate|]. intros H. specialize (H 1%nat ltac:(lia)).
      change (N.of_nat 1) with 1 in H. congruence.
Qed.

(** Pigeonhole: a table with room stops the loop within [rounds]. *)
Lemma next_free_finds (m : gmap N N) n :
  N.of_nat (size m) + 2 <= 2 ^ 64 ->
  exists l, next_free (rounds m) m n = Some l.
Proof.
  intros Hroom. destruct (next_free (rounds m) m n) as [l|] eqn:E; [eauto|].
  exfalso. rewrite next_free_None in E.
  set (step := fun i : nat => wrap local_name_bits (n + N.of_nat i)).
  set (L := step <$> seq 1 (rounds m)).
  assert (HL : NoDup L).
  { apply NoDup_fmap_2_strong; [|apply NoDup_seq].
    intros i j Hi%elem_of_seq Hj%elem_of_seq Heq. unfold rounds in Hi, Hj.
    destruct (decide (i = j)) as [|Hne]; [assumption|]. exfalso.
    destruct (decide (i < j)%nat).
    - apply (wrap_name_distinct n (N.of_nat i) (N.of_nat j)); [lia..|exact Heq].
    - apply (wrap_name_distinct n (N.of_nat j) (N.of_nat i)); [lia..|symmetry; exact Heq]. }
  assert (Hsub : L ⊆+ (map_to_list (<[0 := 0]> m)).*1).
  { apply NoDup_submseteq; [exact HL|].
    intros x (i & -> & Hi%elem_of_seq)%list_elem_of_fmap.
    destruct (proj1 (taken_true m (step i))) as [v Hv]; [apply E; lia|].
    apply list_elem_of_fmap. exists (step i, v). split; [reflexivity|].
    apply elem_of_map_to_list. exact Hv. }
  apply submseteq_length in Hsub.
  unfold L in Hsub. rewrite !length_fmap, length_seq, length_map_to_list in Hsub.
  assert (size (<[0%N := 0%N]> m) <= S (size m))%nat.
  { destruct (m !! 0) eqn:E0.
    - rewrite map_size_insert_Some by eauto. lia.
    - rewrite map_size_insert_None by assumption. lia. }
  unfold rounds in Hsub. lia.
Qed.

(** A loop that has not stopped within [rounds] never stops: it has gone
    through every value of the counter, so more rounds find nothing. *)
Lemma next_free_exhausted (m : gmap N N) n :
  next_free (rounds m) m n = None -> forall fuel, next_free fuel m n = None.
Proof.
  intros E fuel.
  assert (Hfull : ~ N.of_nat (size m) + 2 <= 2 ^ 64).
  { intros H. destruct (next_free_finds m n H) as [l Hl]. congruence. }
  rewrite next_free_None in E. apply next_free_None. intros i _.
  destruct (wrap_name_onto n (wrap local_name_bits (n + N.of_nat i))
              (wrap_name_lt _)) as (k & Hk & <-).
  replace k with (N.of_nat (N.to_nat k)) by lia.
  apply E. unfold rounds. lia.
Qed.

(** ** Running the methods *)

#[local] Arguments vinsert : simpl never.

Ltac run :=
  unfold this_ns, update_ns, global, this_sg, update_sg, assert, zoom,
         bind, ret, gets, modify, fault, diverge;
  cbv beta iota delta [fst snd]; simpl.

Lemma type_index_in_range t :
  t < NUM_OBJECT_TYPES ->
  exists i : fin 5, type_index t = Some i /\ N.of_nat (fin_to_nat i) = t.
Proof.
  unfold NUM_OBJECT_TYPES. intros Ht.
  assert (t = 0 \/ t = 1 \/ t = 2 \/ t = 3 \/ t = 4) as Hcases by lia.
  destruct Hcases as [->|[->|[->|[->| ->]]]]; eexists; split; reflexivity.
Qed.

Lemma type_index_Some t i : type_index t = Some i -> N.of_nat (fin_to_nat i) = t.
Proof.
  unfold type_index. destruct t as [|p]; [intros [= <-]; reflexivity|].
  do 3 (try destruct p as [p|p|]); try discriminate; intros [= <-]; reflexivity.
Qed.

Lemma type_index_inj t t' i : type_index t = Some i -> type_index t' = Some i -> t = t'.
Proof. intros H%type_index_Some H'%type_index_Some. congruence. Qed.

Lemma type_index_lt t i : type_index t = Some i -> t < NUM_OBJECT_TYPES.
Proof.
  intros H%type_index_Some. pose proof (fin_to_nat_lt i). unfold NUM_OBJECT_TYPES. lia.
Qed.

Lemma typed_type sg t i : typed sg -> type_index t = Some i -> m_type (m_nameSpace sg !!! i) = t.
Proof. intros Hty H%type_index_Some. rewrite Hty. assumption. Qed.

Lemma type_index_out_of_range t : NUM_OBJECT_TYPES <= t -> type_index t = None.
Proof.
  intros Ht. destruct (type_index t) as [i|] eqn:E; [|reflexivity].
  apply type_index_lt in E. lia.
Qed.

Lemma in_range_leb t : t < NUM_OBJECT_TYPES -> (NUM_OBJECT_TYPES <=? t) = false.
Proof. intros. apply N.leb_gt. assumption. Qed.

Lemma out_of_range_leb t : NUM_OBJECT_TYPES <= t -> (NUM_OBJECT_TYPES <=? t) = true.
Proof. intros. apply N.leb_le. assumption. Qed.

Lemma set_nameSpace_self i sg :
  set_nameSpace (vinsert i (m_nameSpace sg !!! i) (m_nameSpace sg)) sg = sg.
Proof. rewrite vlookup_insert_self. destruct sg. reflexivity. Qed.

(** A method of a name space, seen from the group. *)
Lemma name_space_run {A} t i (m : M (NameSpace * GlobalNameSpace) A) sg g :
  type_index t = Some i ->
  name_space t m (sg, g) =
    match m (m_nameSpace sg !!! i, g) with
    | Ret (a, (ns', g')) =>
        Ret (a, (set_nameSpace (vinsert i ns' (m_nameSpace sg)) sg, g'))
    | Fault => Fault
    | Diverge => Diverge
    end.
Proof.
  intros Hi. unfold name_space. rewrite Hi. run.
  destruct (m _) as [[a [ns' g']]| |]; reflexivity.
Qed.

(** A method that leaves the name space and the driver alone leaves the
    group alone. *)
Lemma name_space_read {A} t i (m : M (NameSpace * GlobalNameSpace) A) sg g a :
  type_index t = Some i ->
  m (m_nameSpace sg !!! i, g) = Ret (a, (m_nameSpace sg !!! i, g)) ->
  name_space t m (sg, g) = Ret (a, (sg, g)).
Proof.
  intros Hi Hm. rewrite (name_space_run t i) by assumption.
  rewrite Hm, set_nameSpace_self. reflexivity.
Qed.

Lemma NameSpace_getGlobalName_run l ns g :
  NameSpace_getGlobalName l (ns, g) =
    Ret (default 0 (m_localToGlobalMap ns !! l), (ns, g)).
Proof.
  unfold NameSpace_getGlobalName. run.
  destruct (m_localToGlobalMap ns !! l); reflexivity.
Qed.

Lemma NameSpace_getLocalName_run gn ns g :
  NameSpace_getLocalName gn (ns, g) =
    Ret (default 0 (m_globalToLocalMap ns !! gn), (ns, g)).
Proof.
  unfold NameSpace_getLocalName. run.
  destruct (m_globalToLocalMap ns !! gn); reflexivity.
Qed.

Lemma NameSpace_isObject_run l ns g :
  NameSpace_isObject l (ns, g) =
    Ret (bool_decide (is_Some (m_localToGlobalMap ns !! l)), (ns, g)).
Proof. reflexivity. Qed.

(** ** Object types past the enumeration *)

(** C4.  With an object type at or past [NUM_OBJECT_TYPES], each of the
    nine methods of a share group that take a type returns its "not found"
    value (0, false, the empty pointer, nothing) and leaves the group (name
    tables, object data, texture counters) and the global name space as
    they were; none of them stops the process. *)
Theorem out_of_range_type_is_noop
    (glGen : N -> list GLcall -> N) (t l gn : N) (b : bool) (d : option N)
    (s : ShareGroup * GlobalNameSpace) :
  NUM_OBJECT_TYPES <= t ->
  ShareGroup_genName glGen t l b s = Ret (0, s) /\
  ShareGroup_genGlobalName glGen t s = Ret (0, s) /\
  ShareGroup_getGlobalName t l s = Ret (0, s) /\
  ShareGroup_getLocalName t gn s = Ret (0, s) /\
  ShareGroup_isObject t l s = Ret (false, s) /\
  ShareGroup_deleteName t l s = Ret (tt, s) /\
  ShareGroup_replaceGlobalName t l gn s = Ret (tt, s) /\
  ShareGroup_setObjectData t l d s = Ret (tt, s) /\
  ShareGroup_getObjectData t l s = Ret (None, s).
Proof.
  intros Ht%out_of_range_leb.
  unfold ShareGroup_genName, ShareGroup_genGlobalName, ShareGroup_getGlobalName,
    ShareGroup_getLocalName, ShareGroup_isObject, ShareGroup_deleteName,
    ShareGroup_replaceGlobalName, ShareGroup_setObjectData,
    ShareGroup_getObjectData.
  rewrite Ht. repeat split.
Qed.

(** The first value past the enumeration, on a new group. *)
Lemma out_of_range_type_is_noop_witness :
  ShareGroup_genName counting 5 1 true (ShareGroup_new, GlobalNameSpace_new)
    = Ret (0, (ShareGroup_new, GlobalNameSpace_new)) /\
  ShareGroup_genGlobalName counting 5 (ShareGroup_new, GlobalNameSpace_new)
    = Ret (0, (ShareGroup_new, GlobalNameSpace_new)) /\
  ShareGroup_getGlobalName 5 1 (ShareGroup_new, GlobalNameSpace_new)
    = Ret (0, (ShareGroup_new, GlobalNameSpace_new)) /\
  ShareGroup_getLocalName 5 1 (ShareGroup_new, GlobalNameSpace_new)
    = Ret (0, (ShareGroup_new, GlobalNameSpace_new)) /\
  ShareGroup_isObject 5 1 (ShareGroup_new, GlobalNameSpace_new)
    = Ret (false, (ShareGroup_new, GlobalNameSpace_new)) /\
  ShareGroup_deleteName 5 1 (ShareGroup_new, GlobalNameSpace_new)
    = Ret (tt, (ShareGroup_new, GlobalNameSpace_new)) /\
  ShareGroup_replaceGlobalName 5 1 1 (ShareGroup_new, GlobalNameSpace_new)
    = Ret (tt, (ShareGroup_new, GlobalNameSpace_new)) /\
  ShareGroup_setObjectData 5 1 (Some 3) (ShareGroup_new, GlobalNameSpace_new)
    = Ret (tt, (ShareGroup_new, GlobalNameSpace_new)) /\
  ShareGroup_getObjectData 5 1 (ShareGroup_new, GlobalNameSpace_new)
    = Ret (None, (ShareGroup_new, GlobalNameSpace_new)).
Proof.
  apply (out_of_range_type_is_noop counting 5 1 1 true (Some 3)
           (ShareGroup_new, GlobalNameSpace_new)).
  vm_compute. discriminate.
Defined.

(** ** Lookups *)

(** C10.  The four lookups of a share group return and leave the group
    and the global name space exactly as they were, whatever the type and
    the name: [getGlobalName], [getLocalName] and [isObject] return what
    the table of the type has (0, 0 and false when it has nothing or the
    type is past the enumeration), and [getObjectData] on a group without
    object data map does not create the map. *)
Theorem lookups_do_not_mutate (t l gn : N) (s : ShareGroup * GlobalNameSpace) :
  ShareGroup_getGlobalName t l s = Ret (default 0 (global_of s.1 t l), s) /\
  ShareGroup_getLocalName t gn s = Ret (default 0 (local_of s.1 t gn), s) /\
  ShareGroup_isObject t l s = Ret (bool_decide (is_Some (global_of s.1 t l)), s) /\
  (exists d, ShareGroup_getObjectData t l s = Ret (d, s)).
Proof.
  destruct s as [sg g].
  unfold ShareGroup_getGlobalName, ShareGroup_getLocalName, ShareGroup_isObject,
    ShareGroup_getObjectData, global_of, local_of.
  destruct (N.leb_spec NUM_OBJECT_TYPES t) as [Hout|Hin].
  - rewrite (type_index_out_of_range t Hout). repeat split. eexists. reflexivity.
  - destruct (type_index_in_range t Hin) as (i & Hi & _). rewrite Hi.
    repeat split.
    + apply (name_space_read t i); [assumption | apply NameSpace_getGlobalName_run].
    + apply (name_space_read t i); [assumption | apply NameSpace_getLocalName_run].
    + apply (name_space_read t i); [assumption | apply NameSpace_isObject_run].
    + run. destruct (m_objectsData sg) as [map|]; [|eexists; reflexivity].
      destruct (map !! TypedObjectName t l); eexists; reflexivity.
Qed.

(** ** Object data *)

Lemma emplace_lookup `{Countable K} {V} (k : K) (v : V) (m : gmap K V) :
  emplace k v m !! k = Some (default v (m !! k)).
Proof.
  unfold emplace. destruct (m !! k) eqn:E; simpl; [assumption | apply lookup_insert_eq].
Qed.

Lemma emplace_lookup_ne `{Countable K} {V} (k k' : K) (v : V) (m : gmap K V) :
  k <> k' -> emplace k v m !! k' = m !! k'.
Proof.
  intros Hne. unfold emplace. destruct (m !! k); [reflexivity | by apply lookup_insert_ne].
Qed.

Lemma emplace_present `{Countable K} {V} (k : K) (v v0 : V) (m : gmap K V) :
  m !! k = Some v0 -> emplace k v m = m.
Proof. intros E. unfold emplace. rewrite E. reflexivity. Qed.

Lemma emplace_absent `{Countable K} {V} (k : K) (v : V) (m : gmap K V) :
  m !! k = None -> emplace k v m = <[k := v]> m.
Proof. intros E. unfold emplace. rewrite E. reflexivity. Qed.

(** On a key without entry, [setObjectData] stores the data and the next
    [getObjectData] returns it. *)
Lemma setObjectData_absent (t l : N) (d : option N) sg g :
  t < NUM_OBJECT_TYPES ->
  stored sg t l = None ->
  exists sg',
    ShareGroup_setObjectData t l d (sg, g) = Ret (tt, (sg', g)) /\
    stored sg' t l = Some d /\
    ShareGroup_getObjectData t l (sg', g) = Ret (d, (sg', g)).
Proof.
  intros Ht%in_range_leb Habs. unfold stored in Habs.
  unfold ShareGroup_setObjectData, ShareGroup_getObjectData. rewrite Ht. run.
  eexists. split; [reflexivity|]. unfold stored. simpl.
  destruct (m_objectsData sg) as [map|].
  - rewrite emplace_absent by assumption. rewrite lookup_insert_eq. auto.
  - rewrite emplace_absent by apply lookup_empty. rewrite lookup_insert_eq. auto.
Qed.

(** C3 (what the code does on a key that has an entry).  [setObjectData]
    on a key that already has an entry [d0] returns without storing the
    new data: the group is unchanged and the next [getObjectData] returns
    the old [d0], not the [d] that was set.  ([emplace] does not replace.) *)
Theorem setObjectData_keeps_present_entry (t l : N) (d d0 : option N) sg g :
  t < NUM_OBJECT_TYPES ->
  stored sg t l = Some d0 ->
  (ShareGroup_setObjectData t l d ;;; ShareGroup_getObjectData t l) (sg, g)
    = Ret (d0, (sg, g)).
Proof.
  intros Ht%in_range_leb Hpre. unfold stored in Hpre.
  unfold ShareGroup_setObjectData, ShareGroup_getObjectData. rewrite Ht. run.
  destruct (m_objectsData sg) as [map|] eqn:E; [|discriminate].
  rewrite (emplace_present _ _ d0) by assumption. rewrite Hpre.
  destruct sg; simpl in *. subst. reflexivity.
Qed.

(** Set twice, read once: the first value comes back. *)
Lemma setObjectData_keeps_present_entry_witness :
  TEXTURE < NUM_OBJECT_TYPES /\
  (ShareGroup_setObjectData TEXTURE 1 (Some 10) ;;;
   ShareGroup_setObjectData TEXTURE 1 (Some 20) ;;;
   ShareGroup_getObjectData TEXTURE 1) (ShareGroup_new, GlobalNameSpace_new)
  = Ret (Some 10,
         (set_objectsData (Some {[ TypedObjectName TEXTURE 1 := Some 10 ]}) ShareGroup_new,
          GlobalNameSpace_new)).
Proof.
  split; [reflexivity|].
  exact (setObjectData_keeps_present_entry TEXTURE 1 (Some 20) (Some 10)
           (set_objectsData (Some {[ TypedObjectName TEXTURE 1 := Some 10 ]}) ShareGroup_new)
           GlobalNameSpace_new eq_refl eq_refl).
Defined.

(** ** Texture counters *)

(** C9 as stated fails on a group that never counted a texture: the
    pointer to the counters is still null, [assert(m_globalTextureRefCounter)]
    stops the process. *)
Lemma release_on_new_group_faults :
  ShareGroup_decTexRefCounterAndReleaseIf0 7 (ShareGroup_new, GlobalNameSpace_new) = Fault.
Proof. reflexivity. Qed.

(** C9, amended.  Once the group has its map of counters, releasing a
    global name that has no counter returns 0 and leaves the group and the
    global name space as they were: nothing is deleted, nothing stops. *)
Theorem release_without_counter_is_noop (g : N) sg gns (map : gmap N N) :
  m_globalTextureRefCounter sg = Some map ->
  map !! g = None ->
  ShareGroup_decTexRefCounterAndReleaseIf0 g (sg, gns) = Ret (0, (sg, gns)).
Proof.
  intros Hmap Hg. unfold ShareGroup_decTexRefCounterAndReleaseIf0. run.
  rewrite Hmap, Hg. reflexivity.
Qed.

Lemma release_without_counter_is_noop_witness :
  ShareGroup_decTexRefCounterAndReleaseIf0 7
    (set_globalTextureRefCounter (Some {[ 3 := 1 ]}) ShareGroup_new, GlobalNameSpace_new)
  = Ret (0, (set_globalTextureRefCounter (Some {[ 3 := 1 ]}) ShareGroup_new,
             GlobalNameSpace_new)).
Proof.
  exact (release_without_counter_is_noop 7
           (set_globalTextureRefCounter (Some {[ 3 := 1 ]}) ShareGroup_new)
           GlobalNameSpace_new {[ 3 := 1 ]} eq_refl eq_refl).
Defined.

(** ** The global name space *)

Section GlobalNameSpaceFacts.

Variable glGen : N -> list GLcall -> N.

Lemma deletions_log_delete t n calls :
  deletions t n (GlDelete t n :: calls) = S (deletions t n calls).
Proof. unfold deletions. rewrite filter_cons_True; reflexivity. Qed.

(** [genName] always returns; it deletes nothing, and after a call with a
    type of the enumeration the deleters are bound. *)
Lemma GlobalNameSpace_genName_returns t g :
  exists name g',
    GlobalNameSpace_genName glGen t g = Ret (name, g') /\
    (t < NUM_OBJECT_TYPES -> m_deleteInitialized g' = true) /\
    (m_deleteInitialized g = true -> m_deleteInitialized g' = true) /\
    (gl_calls g' = gl_calls g \/ gl_calls g' = GlGen t name :: gl_calls g).
Proof.
  unfold GlobalNameSpace_genName.
  destruct (N.leb_spec NUM_OBJECT_TYPES t) as [Hout|Hin].
  - exists 0, g. repeat split; [lia | auto | auto].
  - destruct g as [init calls]. run.
    destruct (driver_type t); destruct init; simpl; eexists _, _;
      (split; [reflexivity|]); simpl; auto.
Qed.

(** [deleteName] with bound deleters: one call of the driver for the four
    types it knows, none for shaders. *)
Lemma GlobalNameSpace_deleteName_run t n g :
  t < NUM_OBJECT_TYPES ->
  m_deleteInitialized g = true ->
  GlobalNameSpace_deleteName t n g =
    Ret (tt, if driver_type t then log_call (GlDelete t n) g else g).
Proof.
  unfold NUM_OBJECT_TYPES. intros Ht Hinit.
  assert (t = 0 \/ t = 1 \/ t = 2 \/ t = 3 \/ t = 4) as Hcases by lia.
  destruct Hcases as [->|[->|[->|[->| ->]]]];
    unfold GlobalNameSpace_deleteName; run; rewrite ?Hinit; reflexivity.
Qed.

(** Shaders have no name of the driver to delete. *)
Lemma GlobalNameSpace_deleteName_shader n g :
  GlobalNameSpace_deleteName SHADER n g = Ret (tt, g).
Proof. reflexivity. Qed.

End GlobalNameSpaceFacts.

(** ** The name table *)

Section NameSpaceFacts.

Variable glGen : N -> list GLcall -> N.

(** What a returning [genName] has done. *)
Lemma NameSpace_genName_inv r (aG aL : bool) ns g l ns' g' :
  NameSpace_genName glGen r aG aL (ns, g) = Ret (l, (ns', g')) ->
  m_type ns' = m_type ns /\
  (if aL
   then taken (m_localToGlobalMap ns) l = false /\ m_nextName ns' = l
   else l = r /\ m_nextName ns' = m_nextName ns) /\
  (if aG
   then exists globalName,
          GlobalNameSpace_genName glGen (m_type ns) g = Ret (globalName, g') /\
          m_localToGlobalMap ns' = <[l := globalName]> (m_localToGlobalMap ns) /\
          m_globalToLocalMap ns' = <[globalName := l]> (m_globalToLocalMap ns)
   else g' = g /\
        m_localToGlobalMap ns' = m_localToGlobalMap ns /\
        m_globalToLocalMap ns' = m_globalToLocalMap ns).
Proof.
  unfold NameSpace_genName. run.
  destruct aL.
  - destruct (next_free _ _ _) as [l0|] eqn:Efree; simpl; [|intros [=]].
    apply next_free_Some_inv in Efree.
    destruct aG; run.
    + destruct (GlobalNameSpace_genName glGen (m_type ns) g) as [[gname g1]| |] eqn:Egen;
        simpl; try (intros [=]; fail).
      intros [= <- <- <-]. simpl. repeat split; eauto.
    + intros [= <- <- <-]. simpl. repeat split; auto.
  - destruct aG; run.
    + destruct (GlobalNameSpace_genName glGen (m_type ns) g) as [[gname g1]| |] eqn:Egen;
        simpl; try (intros [=]; fail).
      intros [= <- <- <-]. simpl. repeat split; eauto.
    + intros [= <- <- <-]. simpl. repeat split; auto.
Qed.

(** [genName] returns, unless it is to pick a name in a table without a
    free one. *)
Lemma NameSpace_genName_returns r (aG aL : bool) ns g :
  (aL = true -> N.of_nat (size (m_localToGlobalMap ns)) + 2 <= 2 ^ 64) ->
  exists l ns' g', NameSpace_genName glGen r aG aL (ns, g) = Ret (l, (ns', g')).
Proof.
  intros Hroom. unfold NameSpace_genName. run.
  destruct aL.
  - destruct (next_free_finds (m_localToGlobalMap ns) (m_nextName ns) (Hroom eq_refl))
      as [l0 ->]. simpl.
    destruct aG; run; [|eauto].
    destruct (GlobalNameSpace_genName_returns glGen (m_type ns) g)
      as (gname & g1 & -> & _). run. eauto.
  - destruct aG; run; [|eauto].
    destruct (GlobalNameSpace_genName_returns glGen (m_type ns) g)
      as (gname & g1 & -> & _). run. eauto.
Qed.

(** A [genName] that does not return never returns: the loop would not
    stop with more rounds either. *)
Lemma NameSpace_genName_no_fault r (aG aL : bool) ns g :
  NameSpace_genName glGen r aG aL (ns, g) <> Fault.
Proof.
  unfold NameSpace_genName. run.
  destruct aL.
  - destruct (next_free _ _ _); simpl; [|discriminate].
    destruct aG; run; [|discriminate].
    destruct (GlobalNameSpace_genName_returns glGen (m_type ns) g)
      as (gname & g1 & -> & _). discriminate.
  - destruct aG; run; [|discriminate].
    destruct (GlobalNameSpace_genName_returns glGen (m_type ns) g)
      as (gname & g1 & -> & _). discriminate.
Qed.

(** What a returning [deleteName] has done. *)
Lemma NameSpace_deleteName_inv l ns g ns' g' :
  NameSpace_deleteName l (ns, g) = Ret (tt, (ns', g')) ->
  m_type ns' = m_type ns /\ m_nextName ns' = m_nextName ns /\
  match m_localToGlobalMap ns !! l with
  | Some globalName =>
      m_localToGlobalMap ns' = delete l (m_localToGlobalMap ns) /\
      m_globalToLocalMap ns' = delete globalName (m_globalToLocalMap ns) /\
      (if m_type ns =? TEXTURE then g' = g
       else GlobalNameSpace_deleteName (m_type ns) globalName g = Ret (tt, g'))
  | None => ns' = ns /\ g' = g
  end.
Proof.
  unfold NameSpace_deleteName. run.
  destruct (m_localToGlobalMap ns !! l) as [gname|]; simpl.
  - destruct (m_type ns =? TEXTURE); run.
    + intros [= <- <-]. simpl. auto.
    + destruct (GlobalNameSpace_deleteName (m_type ns) gname g) as [[[] g1]| |] eqn:E;
        simpl; try (intros [=]; fail).
      intros [= <- <-]. simpl. auto.
  - intros [= <- <-]. auto.
Qed.

(** What a returning [replaceGlobalName] has done. *)
Lemma NameSpace_replaceGlobalName_inv l gn ns g ns' g' :
  NameSpace_replaceGlobalName l gn (ns, g) = Ret (tt, (ns', g')) ->
  m_type ns' = m_type ns /\ m_nextName ns' = m_nextName ns /\
  match m_localToGlobalMap ns !! l with
  | Some globalName =>
      m_localToGlobalMap ns' = <[l := gn]> (m_localToGlobalMap ns) /\
      m_globalToLocalMap ns' =
        emplace gn l (delete globalName (m_globalToLocalMap ns)) /\
      (if m_type ns =? TEXTURE then g' = g
       else GlobalNameSpace_deleteName (m_type ns) globalName g = Ret (tt, g'))
  | None => ns' = ns /\ g' = g
  end.
Proof.
  unfold NameSpace_replaceGlobalName. run.
  destruct (m_localToGlobalMap ns !! l) as [gname|]; simpl.
  - destruct (m_type ns =? TEXTURE); run.
    + intros [= <- <-]. simpl. auto.
    + destruct (GlobalNameSpace_deleteName (m_type ns) gname g) as [[[] g1]| |] eqn:E;
        simpl; try (intros [=]; fail).
      intros [= <- <-]. simpl. auto.
  - intros [= <- <-]. auto.
Qed.

End NameSpaceFacts.

(** ** Fresh local names *)

(** C8 as stated fails: with [allocateLocal] unset the requested name is
    taken as it is, so a call that requests 0 returns 0 and makes 0 a key of
    the local-to-global map. *)
Lemma requested_zero_becomes_key :
  NameSpace_genName counting 0 true false (NameSpace_new FRAMEBUFFER, GlobalNameSpace_new)
  = Ret (0, ({| m_type := FRAMEBUFFER; m_nextName := 0;
                m_localToGlobalMap := {[ 0 := 1 ]};
                m_globalToLocalMap := {[ 1 := 0 ]} |},
             {| m_deleteInitialized := true; gl_calls := [GlGen FRAMEBUFFER 1] |})) /\
  ({[ 0 := 1 ]} : gmap N N) !! 0 = Some 1.
Proof. split; reflexivity. Qed.

(** C8, amended.  In a table that has a free name (fewer than 2^64 - 1
    entries), a [genName] that is to pick the local name returns, the name
    is not 0 and was not a key of the table before the call, and the call
    leaves what the table has at key 0 as it was: it never makes 0 a key.
    A [genName] that is not to pick the local name returns, in every table,
    the name requested as it is, 0 or a key of the table included, and
    leaves the counter alone; when it is to allocate a global name it binds
    the requested name to it, so that the name is a key afterwards, and
    otherwise it changes nothing. *)
Theorem generated_local_name_is_new
    (glGen : N -> list GLcall -> N) (r : N) (aG : bool) ns g :
  (N.of_nat (size (m_localToGlobalMap ns)) + 2 <= 2 ^ 64 ->
   exists l ns' g',
     NameSpace_genName glGen r aG true (ns, g) = Ret (l, (ns', g')) /\
     l <> 0 /\
     m_localToGlobalMap ns !! l = None /\
     m_localToGlobalMap ns' !! 0 = m_localToGlobalMap ns !! 0) /\
  (exists ns' g',
     NameSpace_genName glGen r aG false (ns, g) = Ret (r, (ns', g')) /\
     m_nextName ns' = m_nextName ns /\
     if aG
     then exists globalName,
            GlobalNameSpace_genName glGen (m_type ns) g = Ret (globalName, g') /\
            m_localToGlobalMap ns' = <[r := globalName]> (m_localToGlobalMap ns) /\
            m_globalToLocalMap ns' = <[globalName := r]> (m_globalToLocalMap ns) /\
            m_localToGlobalMap ns' !! r = Some globalName
     else ns' = ns /\ g' = g).
Proof.
  split.
  - intros Hroom.
    destruct (NameSpace_genName_returns glGen r aG true ns g (fun _ => Hroom))
      as (l & ns' & g' & E).
    exists l, ns', g'. split; [exact E|].
    apply NameSpace_genName_inv in E as (_ & [Hfree _] & Hmaps).
    apply taken_false in Hfree as [Hl Hnew].
    repeat split; [assumption..|].
    destruct aG.
    + destruct Hmaps as (gname & _ & -> & _). apply lookup_insert_ne. assumption.
    + destruct Hmaps as (_ & -> & _). reflexivity.
  - destruct (NameSpace_genName_returns glGen r aG false ns g) as (l & ns' & g' & E);
      [discriminate|].
    pose proof (NameSpace_genName_inv glGen r aG false ns g l ns' g' E)
      as (Hty & [-> Hnext] & Hmaps).
    exists ns', g'. split; [exact E|]. split; [exact Hnext|].
    destruct aG.
    + destruct Hmaps as (gname & Egen & Hl2g & Hg2l). exists gname.
      repeat split; try assumption. rewrite Hl2g. apply lookup_insert_eq.
    + destruct Hmaps as (-> & Hl2g & Hg2l). split; [|reflexivity].
      destruct ns, ns'; simpl in *; congruence.
Qed.

Lemma generated_local_name_is_new_witness :
  (exists l ns' g',
     NameSpace_genName counting 0 true true
       (NameSpace_new TEXTURE, GlobalNameSpace_new) = Ret (l, (ns', g')) /\
     l <> 0 /\
     m_localToGlobalMap (NameSpace_new TEXTURE) !! l = None /\
     m_localToGlobalMap ns' !! 0 = m_localToGlobalMap (NameSpace_new TEXTURE) !! 0) /\
  (exists ns' g',
     NameSpace_genName counting 0 true false
       (NameSpace_new TEXTURE, GlobalNameSpace_new) = Ret (0, (ns', g')) /\
     is_Some (m_localToGlobalMap ns' !! 0)).
Proof.
  destruct (generated_local_name_is_new counting 0 true
              (NameSpace_new TEXTURE) GlobalNameSpace_new) as [Hpicked Hrequested].
  split.
  - apply Hpicked. vm_compute. discriminate.
  - destruct Hrequested as (ns' & g' & E & _ & gname & _ & _ & _ & Hkey).
    exists ns', g'. split; [exact E|]. exists gname. exact Hkey.
Defined.

(** ** The two maps as inverses *)

Ltac both_ways Hinv :=
  split; intros Hside; try congruence; try discriminate;
  try (apply Hinv in Hside; congruence).

Lemma inverse_insert (l2g g2l : gmap N N) l g :
  (forall l0 g0, l2g !! l0 = Some g0 <-> g2l !! g0 = Some l0) ->
  l2g !! l = None -> g2l !! g = None ->
  forall l0 g0, <[l := g]> l2g !! l0 = Some g0 <-> <[g := l]> g2l !! g0 = Some l0.
Proof.
  intros Hinv Hl Hg l0 g0. rewrite !lookup_insert.
  repeat case_decide; subst; both_ways Hinv.
Qed.

Lemma inverse_delete (l2g g2l : gmap N N) l g :
  (forall l0 g0, l2g !! l0 = Some g0 <-> g2l !! g0 = Some l0) ->
  l2g !! l = Some g ->
  forall l0 g0, delete l l2g !! l0 = Some g0 <-> delete g g2l !! g0 = Some l0.
Proof.
  intros Hinv Hl l0 g0. rewrite !lookup_delete.
  assert (g2l !! g = Some l) by (apply Hinv; assumption).
  repeat case_decide; subst; both_ways Hinv.
Qed.

Lemma inverse_rebind (l2g g2l : gmap N N) l g gn :
  (forall l0 g0, l2g !! l0 = Some g0 <-> g2l !! g0 = Some l0) ->
  l2g !! l = Some g ->
  (forall l', g2l !! gn = Some l' -> l' = l) ->
  forall l0 g0,
    <[l := gn]> l2g !! l0 = Some g0 <-> emplace gn l (delete g g2l) !! g0 = Some l0.
Proof.
  intros Hinv Hl Hnew l0 g0.
  assert (Hg : g2l !! g = Some l) by (apply Hinv; assumption).
  assert (Hgn : delete g g2l !! gn = None).
  { rewrite lookup_delete. case_decide; [reflexivity|].
    destruct (g2l !! gn) as [l'|] eqn:E; [|reflexivity].
    pose proof (Hnew l' eq_refl) as ->. apply Hinv in E. congruence. }
  rewrite (emplace_absent _ _ _ Hgn). rewrite !lookup_insert, lookup_delete.
  repeat case_decide; subst; both_ways Hinv.
  apply Hinv in Hside. apply Hnew in Hside. congruence.
Qed.

(** A call that brings new names keeps the maps inverse. *)
Lemma table_step_keeps_inverse (glGen : N -> list GLcall -> N) op ns g ns' g' :
  inverse ns ->
  brings_new_names glGen op (ns, g) ->
  table_step glGen op (ns, g) = Ret (tt, (ns', g')) ->
  inverse ns'.
Proof.
  unfold inverse. intros Hinv Hnew Hstep.
  destruct op as [r aG aL | l | l gn]; simpl in Hstep.
  - unfold bind in Hstep.
    destruct (NameSpace_genName glGen r aG aL (ns, g)) as [[l [ns1 g1]]| |] eqn:E;
      try discriminate.
    injection Hstep as -> ->.
    apply NameSpace_genName_inv in E as (_ & Hlocal & Hmaps).
    destruct aG.
    + destruct Hmaps as (gname & Egen & -> & ->).
      destruct Hnew as [Hreq Hglobal]. simpl in Hreq, Hglobal.
      apply inverse_insert; [assumption| |].
      * destruct aL.
        -- destruct Hlocal as [Hfree _]. apply taken_false in Hfree. tauto.
        -- destruct Hlocal as [-> _]. auto.
      * apply Hglobal. rewrite Egen. reflexivity.
    + destruct Hmaps as (_ & -> & ->). assumption.
  - apply NameSpace_deleteName_inv in Hstep as (_ & _ & Hmaps).
    destruct (m_localToGlobalMap ns !! l) as [g0|] eqn:El.
    + destruct Hmaps as (-> & -> & _). apply inverse_delete; assumption.
    + destruct Hmaps as [-> _]. assumption.
  - apply NameSpace_replaceGlobalName_inv in Hstep as (_ & _ & Hmaps).
    destruct (m_localToGlobalMap ns !! l) as [g0|] eqn:El.
    + destruct Hmaps as (-> & -> & _). apply inverse_rebind; assumption.
    + destruct Hmaps as [-> _]. assumption.
Qed.

(** C2 as stated fails: the allocator has no names for shaders and answers
    0 each time, so the second shader name of a table shares its global name
    with the first; local name 1 maps to 0, and 0 maps back to 2. *)
Lemma two_shader_names_are_not_inverse :
  (table_step counting (Generate 0 true true) ;;;
   table_step counting (Generate 0 true true))
    (NameSpace_new SHADER, GlobalNameSpace_new)
  = Ret (tt, ({| m_type := SHADER; m_nextName := 2;
                 m_localToGlobalMap := {[ 1 := 0; 2 := 0 ]};
                 m_globalToLocalMap := {[ 0 := 2 ]} |},
              {| m_deleteInitialized := true; gl_calls := [] |})) /\
  ~ inverse {| m_type := SHADER; m_nextName := 2;
               m_localToGlobalMap := {[ 1 := 0; 2 := 0 ]};
               m_globalToLocalMap := {[ 0 := 2 ]} |}.
Proof.
  split; [reflexivity|].
  intros Hinv. specialize (Hinv 1 0). simpl in Hinv.
  destruct Hinv as [Hinv _]. specialize (Hinv eq_refl). discriminate Hinv.
Qed.

(** C2, amended.  From a table whose maps are inverses, under any sequence
    of [genName], [deleteName] and [replaceGlobalName] calls that bring new
    names (a requested local name that is not yet a key, a global name from
    the allocator that is bound to no local name, a rebind to a global name
    bound to no other local name), the maps are inverses at every state the
    table goes through. *)
Theorem maps_stay_inverse
    (glGen : N -> list GLcall -> N) (s0 s : NameSpace * GlobalNameSpace)
    (ops : list table_op) :
  inverse s0.1 ->
  observed glGen s0 ops s ->
  inverse s.1.
Proof.
  intros H0 Hobs. induction Hobs as [|ops s op s' _ IH Hnew Hstep]; [assumption|].
  destruct s as [ns g], s' as [ns' g'].
  exact (table_step_keeps_inverse glGen op ns g ns' g' IH Hnew Hstep).
Qed.

(** A framebuffer name is generated, bound to another global name, and
    deleted. *)
Lemma maps_stay_inverse_witness :
  inverse {| m_type := FRAMEBUFFER; m_nextName := 1;
             m_localToGlobalMap := {[ 1 := 9 ]};
             m_globalToLocalMap := {[ 9 := 1 ]} |} /\
  inverse {| m_type := FRAMEBUFFER; m_nextName := 1;
             m_localToGlobalMap := ∅; m_globalToLocalMap := ∅ |}.
Proof.
  assert (H0 : inverse (NameSpace_new FRAMEBUFFER, GlobalNameSpace_new).1).
  { intros l g. simpl. rewrite !lookup_empty. split; discriminate. }
  assert (H1 : observed counting (NameSpace_new FRAMEBUFFER, GlobalNameSpace_new)
                 [Generate 0 true true]
                 ({| m_type := FRAMEBUFFER; m_nextName := 1;
                     m_localToGlobalMap := {[ 1 := 1 ]};
                     m_globalToLocalMap := {[ 1 := 1 ]} |},
                  {| m_deleteInitialized := true;
                     gl_calls := [GlGen FRAMEBUFFER 1] |})).
  { apply (observed_step counting _ [] _ (Generate 0 true true) _ (observed_start _ _)).
    - split; [discriminate|]. intros gname _. apply lookup_empty.
    - reflexivity. }
  assert (H2 : observed counting (NameSpace_new FRAMEBUFFER, GlobalNameSpace_new)
                 [Generate 0 true true; Rebind 1 9]
                 ({| m_type := FRAMEBUFFER; m_nextName := 1;
                     m_localToGlobalMap := {[ 1 := 9 ]};
                     m_globalToLocalMap := {[ 9 := 1 ]} |},
                  {| m_deleteInitialized := true;
                     gl_calls := [GlDelete FRAMEBUFFER 1; GlGen FRAMEBUFFER 1] |})).
  { apply (observed_step counting _ [Generate 0 true true] _ (Rebind 1 9) _ H1).
    - intros l Hl. vm_compute in Hl. discriminate Hl.
    - reflexivity. }
  assert (H3 : observed counting (NameSpace_new FRAMEBUFFER, GlobalNameSpace_new)
                 [Generate 0 true true; Rebind 1 9; Remove 1]
                 ({| m_type := FRAMEBUFFER; m_nextName := 1;
                     m_localToGlobalMap := ∅; m_globalToLocalMap := ∅ |},
                  {| m_deleteInitialized := true;
                     gl_calls := [GlDelete FRAMEBUFFER 9; GlDelete FRAMEBUFFER 1;
                                  GlGen FRAMEBUFFER 1] |})).
  { apply (observed_step counting _ [Generate 0 true true; Rebind 1 9] _ (Remove 1) _ H2).
    - exact I.
    - reflexivity. }
  split.
  - exact (maps_stay_inverse counting _ _ _ H0 H2).
  - exact (maps_stay_inverse counting _ _ _ H0 H3).
Defined.

(** ** Deleting a name *)

(** [NameSpace::deleteName], run. *)
Lemma NameSpace_deleteName_run l ns g :
  m_type ns < NUM_OBJECT_TYPES ->
  (forall gn, m_localToGlobalMap ns !! l = Some gn ->
     deleted_with_name (m_type ns) = true -> m_deleteInitialized g = true) ->
  NameSpace_deleteName l (ns, g) =
    Ret (tt,
         match m_localToGlobalMap ns !! l with
         | Some gn =>
             (set_maps (delete l (m_localToGlobalMap ns))
                       (delete gn (m_globalToLocalMap ns)) ns,
              if deleted_with_name (m_type ns)
              then log_call (GlDelete (m_type ns) gn) g else g)
         | None => (ns, g)
         end).
Proof.
  unfold NUM_OBJECT_TYPES. intros Ht Hinit.
  unfold NameSpace_deleteName. run.
  destruct (m_localToGlobalMap ns !! l) as [gn|]; [|reflexivity].
  specialize (Hinit gn eq_refl). revert Hinit.
  assert (m_type ns = 0 \/ m_type ns = 1 \/ m_type ns = 2 \/ m_type ns = 3 \/
          m_type ns = 4) as Hcases by lia.
  unfold GlobalNameSpace_deleteName.
  destruct Hcases as [->|[->|[->|[->| ->]]]]; run; intros Hinit;
    try rewrite (Hinit eq_refl); run; reflexivity.
Qed.

(** C6 as stated fails twice.  A shader name is a name of a type other than
    texture, and deleting it calls no deleter of the driver
    ([GlobalNameSpace::deleteName] skips shaders).  And deleting a local name
    the table does not have still erases the object data stored for it. *)
Lemma deleteName_of_shader_and_of_absent_name :
  (ShareGroup_genName counting SHADER 0 true ;;;
   present <- ShareGroup_isObject SHADER 1 ;;
   ShareGroup_deleteName SHADER 1 ;;;
   ret present) (ShareGroup_new, GlobalNameSpace_new)
  = Ret (true,
         (set_nameSpace
            (vinsert 4%fin (set_nextName 1 (NameSpace_new SHADER))
               (m_nameSpace ShareGroup_new)) ShareGroup_new,
          {| m_deleteInitialized := true; gl_calls := [] |})) /\
  (present <- ShareGroup_isObject TEXTURE 7 ;;
   ShareGroup_deleteName TEXTURE 7 ;;;
   ret present)
    (set_objectsData (Some {[ TypedObjectName TEXTURE 7 := Some 10 ]}) ShareGroup_new,
     GlobalNameSpace_new)
  = Ret (false, (set_objectsData (Some ∅) ShareGroup_new, GlobalNameSpace_new)) /\
  set_objectsData (Some ∅) ShareGroup_new
  <> set_objectsData (Some {[ TypedObjectName TEXTURE 7 := Some 10 ]}) ShareGroup_new.
Proof.
  split; [reflexivity|]. split; [reflexivity|].
  intros H. apply (f_equal (fun sg => stored sg TEXTURE 7)) in H. discriminate H.
Qed.

(** C6, amended.  [deleteName] of a type of the enumeration returns.  The
    object data stored for the key is erased, whether the table has the
    local name or not; other object data and the texture counters stay.
    When the table has the local name, with global name [gn], the entry is
    removed in both directions and no other entry changes, and the driver is
    called once, to delete [gn], for vertex buffers, renderbuffers and
    framebuffers, and not at all for textures and shaders.  When the table
    does not have it, the name tables and the global name space stay as they
    were. *)
Theorem deleteName_effect (t l : N) sg g :
  typed sg ->
  t < NUM_OBJECT_TYPES ->
  (forall gn, global_of sg t l = Some gn -> deleted_with_name t = true ->
     m_deleteInitialized g = true) ->
  exists sg' g',
    ShareGroup_deleteName t l (sg, g) = Ret (tt, (sg', g')) /\
    stored sg' t l = None /\
    (forall t' l', (t', l') <> (t, l) -> stored sg' t' l' = stored sg t' l') /\
    m_globalTextureRefCounter sg' = m_globalTextureRefCounter sg /\
    match global_of sg t l with
    | Some gn =>
        global_of sg' t l = None /\
        local_of sg' t gn = None /\
        (forall t' l', (t', l') <> (t, l) -> global_of sg' t' l' = global_of sg t' l') /\
        (forall t' g0, (t', g0) <> (t, gn) -> local_of sg' t' g0 = local_of sg t' g0) /\
        g' = (if deleted_with_name t then log_call (GlDelete t gn) g else g)
    | None => m_nameSpace sg' = m_nameSpace sg /\ g' = g
    end.
Proof.
  intros Hty Ht Hinit.
  destruct (type_index_in_range t Ht) as (i & Hi & _).
  pose proof (typed_type sg t i Hty Hi) as Htype.
  unfold global_of in *. rewrite Hi in *.
  unfold ShareGroup_deleteName. rewrite (in_range_leb t Ht).
  unfold bind at 1. rewrite (name_space_run t i) by assumption.
  rewrite NameSpace_deleteName_run by (rewrite Htype; assumption).
  rewrite Htype.
  set (ns := m_nameSpace sg !!! i) in *.
  assert (Hstore : forall sg1 g1,
    m_objectsData sg1 = m_objectsData sg ->
    m_globalTextureRefCounter sg1 = m_globalTextureRefCounter sg ->
    exists sg',
      (data <- this_sg m_objectsData ;;
       match data with
       | Some map =>
           update_sg (set_objectsData (Some (delete (TypedObjectName t l) map)))
       | None => ret tt
       end) (sg1, g1) = Ret (tt, (sg', g1)) /\
      m_nameSpace sg' = m_nameSpace sg1 /\
      stored sg' t l = None /\
      (forall t' l', (t', l') <> (t, l) -> stored sg' t' l' = stored sg t' l') /\
      m_globalTextureRefCounter sg' = m_globalTextureRefCounter sg).
  { intros sg1 g1 Hdata Hcount. run. unfold stored. rewrite Hdata.
    destruct (m_objectsData sg) as [map|] eqn:E.
    - eexists. split; [reflexivity|]. simpl. repeat split; [|intros t' l' Hne|assumption].
      + apply lookup_delete_eq.
      + apply lookup_delete_ne. unfold TypedObjectName. congruence.
    - exists sg1. rewrite Hdata. repeat split; assumption. }
  destruct (m_localToGlobalMap ns !! l) as [gn|] eqn:El.
  - destruct (Hstore (set_nameSpace
                        (vinsert i (set_maps (delete l (m_localToGlobalMap ns))
                                             (delete gn (m_globalToLocalMap ns)) ns)
                                 (m_nameSpace sg)) sg)
                (if deleted_with_name t then log_call (GlDelete t gn) g else g)
                eq_refl eq_refl)
      as (sg' & E & Hns & Hs1 & Hs2 & Hc).
    exists sg', (if deleted_with_name t then log_call (GlDelete t gn) g else g).
    split; [exact E|]. repeat split; try assumption.
    + rewrite Hns. simpl. rewrite vlookup_insert. simpl. apply lookup_delete_eq.
    + unfold local_of. rewrite Hi, Hns. simpl. rewrite vlookup_insert. simpl.
      apply lookup_delete_eq.
    + intros t' l' Hne. rewrite Hns. simpl.
      destruct (type_index t') as [j|] eqn:Ej; [|reflexivity].
      destruct (decide (i = j)) as [<-|Hij].
      * rewrite vlookup_insert. simpl. apply lookup_delete_ne.
        pose proof (type_index_inj t t' i Hi Ej). congruence.
      * rewrite vlookup_insert_ne by assumption. reflexivity.
    + intros t' g0 Hne. unfold local_of. rewrite Hns. simpl.
      destruct (type_index t') as [j|] eqn:Ej; [|reflexivity].
      destruct (decide (i = j)) as [<-|Hij].
      * rewrite vlookup_insert. simpl. apply lookup_delete_ne.
        pose proof (type_index_inj t t' i Hi Ej). congruence.
      * rewrite vlookup_insert_ne by assumption. reflexivity.
  - destruct (Hstore (set_nameSpace (vinsert i ns (m_nameSpace sg)) sg) g
                eq_refl eq_refl)
      as (sg' & E & Hns & Hs1 & Hs2 & Hc).
    exists sg', g. split; [exact E|]. repeat split; try assumption.
    rewrite Hns. unfold ns. rewrite set_nameSpace_self. reflexivity.
Qed.

Lemma ShareGroup_new_typed : typed ShareGroup_new.
Proof.
  intros i. repeat (inv_fin i; [reflexivity | intros i]). inv_fin i.
Qed.

Lemma typed_set_nameSpace sg i ns :
  typed sg ->
  m_type ns = m_type (m_nameSpace sg !!! i) ->
  typed (set_nameSpace (vinsert i ns (m_nameSpace sg)) sg).
Proof.
  intros Hty Hns j. simpl. destruct (decide (i = j)) as [<-|Hne].
  - rewrite vlookup_insert, Hns. apply Hty.
  - rewrite vlookup_insert_ne by assumption. apply Hty.
Qed.

(** The first framebuffer name of a group, local 1 and global 1, is
    deleted: one call of the driver. *)
Lemma deleteName_effect_witness :
  exists sg' g',
    ShareGroup_deleteName FRAMEBUFFER 1
      (set_nameSpace
         (vinsert 3%fin {| m_type := FRAMEBUFFER; m_nextName := 1;
                           m_localToGlobalMap := {[ 1 := 1 ]};
                           m_globalToLocalMap := {[ 1 := 1 ]} |}
            (m_nameSpace ShareGroup_new)) ShareGroup_new,
       {| m_deleteInitialized := true; gl_calls := [GlGen FRAMEBUFFER 1] |})
    = Ret (tt, (sg', g')) /\
    global_of sg' FRAMEBUFFER 1 = None /\
    local_of sg' FRAMEBUFFER 1 = None /\
    g' = {| m_deleteInitialized := true;
            gl_calls := [GlDelete FRAMEBUFFER 1; GlGen FRAMEBUFFER 1] |}.
Proof.
  destruct (deleteName_effect FRAMEBUFFER 1
              (set_nameSpace
                 (vinsert 3%fin {| m_type := FRAMEBUFFER; m_nextName := 1;
                                   m_localToGlobalMap := {[ 1 := 1 ]};
                                   m_globalToLocalMap := {[ 1 := 1 ]} |}
                    (m_nameSpace ShareGroup_new)) ShareGroup_new)
              {| m_deleteInitialized := true; gl_calls := [GlGen FRAMEBUFFER 1] |})
    as (sg' & g' & E & _ & _ & _ & H).
  - apply typed_set_nameSpace; [apply ShareGroup_new_typed | reflexivity].
  - reflexivity.
  - intros; reflexivity.
  - exists sg', g'. split; [exact E|]. destruct H as (H1 & H2 & _ & _ & H3).
    repeat split; assumption.
Defined.

(** ** Counting the references to a texture *)

Section TextureCounters.

Variable gn : N.

Lemma counted_counted c c' sg : counted c gn (counted c' gn sg) = counted c gn sg.
Proof. unfold counted. simpl. rewrite insert_insert_eq. reflexivity. Qed.

Lemma counter_counted c sg : counter (counted c gn sg) gn = Some c.
Proof. unfold counter, counted. simpl. apply lookup_insert_eq. Qed.

Lemma uncounted_counted c sg : uncounted gn (counted c gn sg) = uncounted gn sg.
Proof. unfold uncounted, counted. simpl. rewrite delete_insert_eq. reflexivity. Qed.

Lemma counter_uncounted sg : counter (uncounted gn sg) gn = None.
Proof. unfold counter, uncounted. simpl. apply lookup_delete_eq. Qed.

(** [incTexRefCounter], run: the counter goes up by one, from 0 when there
    was none. *)
Lemma incTexRefCounter_run sg g :
  ShareGroup_incTexRefCounter gn (sg, g) =
    Ret (wrap size_t_bits (default 0 (counter sg gn) + 1),
         (counted (wrap size_t_bits (default 0 (counter sg gn) + 1)) gn sg, g)).
Proof.
  unfold ShareGroup_incTexRefCounter, ShareGroup_incTexRefCounterNoLock, counter, counted.
  run. destruct (m_globalTextureRefCounter sg); reflexivity.
Qed.

(** A release that is not the last one: the counter goes down by one and
    nothing else happens. *)
Lemma decTexRefCounter_run_more c sg g :
  1 <= c ->
  ShareGroup_decTexRefCounterAndReleaseIf0 gn (counted (c + 1) gn sg, g) =
    Ret (c, (counted c gn sg, g)).
Proof.
  intros Hc. unfold ShareGroup_decTexRefCounterAndReleaseIf0, counted. run.
  rewrite lookup_insert_eq.
  replace (c + 1 =? 0) with false by (symmetry; apply N.eqb_neq; lia). run.
  replace (c + 1 - 1) with c by lia.
  replace (c =? 0) with false by (symmetry; apply N.eqb_neq; lia). run.
  rewrite insert_insert_eq. reflexivity.
Qed.

(** The last release: the counter is erased and the driver deletes the
    texture. *)
Lemma decTexRefCounter_run_last sg g :
  m_deleteInitialized g = true ->
  ShareGroup_decTexRefCounterAndReleaseIf0 gn (counted 1 gn sg, g) =
    Ret (0, (uncounted gn sg, log_call (GlDelete TEXTURE gn) g)).
Proof.
  intros Hinit. unfold ShareGroup_decTexRefCounterAndReleaseIf0, counted, uncounted. run.
  rewrite lookup_insert_eq. run.
  rewrite (name_space_run TEXTURE 1%fin) by reflexivity.
  unfold GlobalNameSpace_deleteName. run. rewrite Hinit. run.
  rewrite vlookup_insert_self, delete_insert_eq.
  destruct sg. reflexivity.
Qed.

Lemma acquire_n n : forall c sg g,
  c + N.of_nat n < 2 ^ 64 ->
  repeat_m n (ShareGroup_incTexRefCounter gn) (counted c gn sg, g) =
    Ret ((fun i : nat => c + N.of_nat i) <$> seq 1 n,
         (counted (c + N.of_nat n) gn sg, g)).
Proof.
  induction n as [|n IH]; intros c sg g Hc.
  - change (N.of_nat 0) with 0. rewrite N.add_0_r. reflexivity.
  - cbn [repeat_m]. unfold bind at 1. rewrite incTexRefCounter_run.
    rewrite counter_counted. simpl default. rewrite counted_counted.
    rewrite wrap_small by (unfold size_t_bits; lia).
    unfold bind at 1. rewrite IH by lia. run.
    replace (c + 1 + N.of_nat n) with (c + N.of_nat (S n)) by lia.
    change (list_fmap nat N ?f ?l) with (f <$> l).
    change (N.of_nat 1) with 1.
    rewrite <- (fmap_S_seq 1), <- list_fmap_compose.
    do 3 f_equal. apply list_fmap_ext. intros _ i _. simpl. lia.
Qed.

Lemma release_n n : forall c sg g,
  1 <= c ->
  repeat_m n (ShareGroup_decTexRefCounterAndReleaseIf0 gn)
    (counted (c + N.of_nat n) gn sg, g) =
    Ret ((fun i : nat => c + N.of_nat i) <$> rev (seq 0 n), (counted c gn sg, g)).
Proof.
  induction n as [|n IH]; intros c sg g Hc.
  - change (N.of_nat 0) with 0. rewrite N.add_0_r. reflexivity.
  - rewrite seq_S, rev_app_distr. cbn [repeat_m]. unfold bind at 1.
    replace (c + N.of_nat (S n)) with (c + N.of_nat n + 1) by lia.
    rewrite decTexRefCounter_run_more by lia.
    unfold bind at 1. rewrite IH by lia. reflexivity.
Qed.

End TextureCounters.

Lemma bind_run {S A B} (m : M S A) (k : A -> M S B) s :
  bind m k s =
    match m s with
    | Ret (a, s') => k a s'
    | Fault => Fault
    | Diverge => Diverge
    end.
Proof. reflexivity. Qed.

Lemma repeat_m_snoc {S A} (m : M S A) n : forall s,
  repeat_m (Datatypes.S n) m s =
    (rs <- repeat_m n m ;; a <- m ;; ret (rs ++ [a])) s.
Proof.
  induction n as [|n IH]; intros s.
  - cbn [repeat_m]. unfold bind, ret.
    destruct (m s) as [[a s']| |]; reflexivity.
  - change (repeat_m (Datatypes.S (Datatypes.S n)) m)
      with (a <- m ;; rest <- repeat_m (Datatypes.S n) m ;; ret (a :: rest)).
    rewrite (bind_run m _ s).
    rewrite (bind_run (repeat_m (Datatypes.S n) m) _ s).
    change (repeat_m (Datatypes.S n) m s)
      with ((a <- m ;; rest <- repeat_m n m ;; ret (a :: rest)) s).
    rewrite (bind_run m _ s).
    destruct (m s) as [[a s']| |]; [|reflexivity..].
    rewrite (bind_run (repeat_m (Datatypes.S n) m) _ s'), IH.
    unfold bind, ret.
    destruct (repeat_m n m s') as [[rs s'']| |]; [|reflexivity..].
    destruct (m s'') as [[b s3]| |]; reflexivity.
Qed.

Section TextureNames.

Variable glGen : N -> list GLcall -> N.

(** What a returning [genName] of a texture has done: the name is in the
    table, its global name is counted once more, and the deleters of the
    global name space are bound. *)
Lemma ShareGroup_genName_texture_inv r (aL : bool) sg g l sg1 g1 :
  typed sg ->
  ShareGroup_genName glGen TEXTURE r aL (sg, g) = Ret (l, (sg1, g1)) ->
  exists gname sgm,
    global_of sg1 TEXTURE l = Some gname /\
    sg1 = counted (wrap size_t_bits (default 0 (counter sg gname) + 1)) gname sgm /\
    m_deleteInitialized g1 = true.
Proof.
  intros Hty. unfold ShareGroup_genName.
  change (NUM_OBJECT_TYPES <=? TEXTURE) with false. change (TEXTURE =? TEXTURE) with true.
  cbv iota. unfold bind at 1.
  rewrite (name_space_run TEXTURE 1%fin) by reflexivity.
  destruct (NameSpace_genName glGen r true aL (m_nameSpace sg !!! 1%fin, g))
    as [[l0 [ns' g']]| |] eqn:E; try discriminate.
  apply NameSpace_genName_inv in E as (_ & _ & gname & Egen & Hl2g & _).
  rewrite (typed_type sg TEXTURE 1%fin Hty eq_refl) in Egen.
  destruct (GlobalNameSpace_genName_returns glGen TEXTURE g)
    as (name0 & g0 & E0 & Hinit & _). rewrite E0 in Egen. injection Egen as -> ->.
  set (sgm := set_nameSpace (vinsert 1%fin ns' (m_nameSpace sg)) sg).
  assert (Hglobal : m_localToGlobalMap (m_nameSpace sgm !!! 1%fin) !! l0 = Some gname).
  { unfold sgm. simpl. rewrite vlookup_insert, Hl2g. apply lookup_insert_eq. }
  unfold bind at 1. unfold bind at 1. unfold bind at 1.
  rewrite (name_space_read TEXTURE 1%fin _ sgm g' gname eq_refl)
    by (rewrite NameSpace_getGlobalName_run, Hglobal; reflexivity).
  change (ShareGroup_incTexRefCounterNoLock gname (sgm, g'))
    with (ShareGroup_incTexRefCounter gname (sgm, g')).
  rewrite incTexRefCounter_run. unfold ret.
  intros [= <- <- <-]. exists gname, sgm. repeat split.
  - unfold global_of. simpl. exact Hglobal.
  - apply Hinit. reflexivity.
Qed.

(** [genName] of a group returns, unless it is to pick a name in a table
    without a free one. *)
Lemma ShareGroup_genName_returns t i r (aL : bool) sg g :
  type_index t = Some i ->
  (aL = true ->
   N.of_nat (size (m_localToGlobalMap (m_nameSpace sg !!! i))) + 2 <= 2 ^ 64) ->
  exists l sg1 g1, ShareGroup_genName glGen t r aL (sg, g) = Ret (l, (sg1, g1)).
Proof.
  intros Hi Hroom. unfold ShareGroup_genName.
  rewrite (in_range_leb t (type_index_lt t i Hi)).
  rewrite bind_run, (name_space_run t i) by assumption.
  destruct (NameSpace_genName_returns glGen r true aL (m_nameSpace sg !!! i) g Hroom)
    as (l & ns' & g' & ->).
  rewrite bind_run. destruct (t =? TEXTURE); [|unfold ret; eauto].
  rewrite bind_run, (name_space_run t i), NameSpace_getGlobalName_run by assumption.
  rewrite bind_run.
  change (ShareGroup_incTexRefCounterNoLock ?a ?s) with (ShareGroup_incTexRefCounter a s).
  rewrite incTexRefCounter_run. unfold ret. eauto.
Qed.

(** C1.  A texture name is generated in a group, and the global name
    [gn] it gets had no counter in the group before.  Then its counter is 1
    after the call.  From there, [n] acquires followed by [n] releases make
    no call of the driver and leave the counter at 1, the releases returning
    [n], ..., 1; with one more release, the last of [n + 1], that one
    returns 0, the counter of [gn] is gone, and the one call of the driver
    in the whole sequence is the deletion of the texture [gn], made by that
    last release: the driver has deleted [gn] once more than before.  ([n]
    is below the range of the [size_t] counter.) *)
Theorem texture_reference_count
    (r : N) (aL : bool) sg g l sg1 g1 (gn : N) (n : nat) :
  typed sg ->
  ShareGroup_genName glGen TEXTURE r aL (sg, g) = Ret (l, (sg1, g1)) ->
  global_of sg1 TEXTURE l = Some gn ->
  counter sg gn = None ->
  N.of_nat n + 1 < 2 ^ 64 ->
  counter sg1 gn = Some 1 /\
  (repeat_m n (ShareGroup_incTexRefCounter gn) ;;;
   repeat_m n (ShareGroup_decTexRefCounterAndReleaseIf0 gn)) (sg1, g1)
  = Ret ((fun i : nat => 1 + N.of_nat i) <$> rev (seq 0 n), (sg1, g1)) /\
  (repeat_m n (ShareGroup_incTexRefCounter gn) ;;;
   repeat_m (S n) (ShareGroup_decTexRefCounterAndReleaseIf0 gn)) (sg1, g1)
  = Ret (((fun i : nat => 1 + N.of_nat i) <$> rev (seq 0 n)) ++ [0],
         (uncounted gn sg1, log_call (GlDelete TEXTURE gn) g1)) /\
  counter (uncounted gn sg1) gn = None /\
  deletions TEXTURE gn (gl_calls (log_call (GlDelete TEXTURE gn) g1))
  = S (deletions TEXTURE gn (gl_calls g1)).
Proof.
  intros Hty Hgen Hgn Hfirst Hn.
  destruct (ShareGroup_genName_texture_inv r aL sg g l sg1 g1 Hty Hgen)
    as (gname & sgm & Hgname & -> & Hinit).
  assert (gname = gn) as -> by congruence.
  rewrite Hfirst. simpl default.
  change (wrap size_t_bits (0 + 1)) with 1.
  assert (Hpairs :
    (repeat_m n (ShareGroup_incTexRefCounter gn) ;;;
     repeat_m n (ShareGroup_decTexRefCounterAndReleaseIf0 gn)) (counted 1 gn sgm, g1)
    = Ret ((fun i : nat => 1 + N.of_nat i) <$> rev (seq 0 n), (counted 1 gn sgm, g1))).
  { unfold bind. rewrite acquire_n by lia. apply release_n. lia. }
  split; [apply counter_counted|]. split; [exact Hpairs|]. split; [|split].
  - unfold bind in *. rewrite acquire_n in * by lia.
    rewrite repeat_m_snoc. unfold bind. rewrite release_n by lia.
    rewrite decTexRefCounter_run_last by assumption.
    rewrite uncounted_counted. reflexivity.
  - apply counter_uncounted.
  - apply deletions_log_delete.
Qed.

End TextureNames.

(** The first texture of a new group, local 1 and global 1: two acquires,
    three releases. *)
Lemma texture_reference_count_witness :
  exists sg1 g1,
    ShareGroup_genName counting TEXTURE 0 true (ShareGroup_new, GlobalNameSpace_new)
    = Ret (1, (sg1, g1)) /\
    counter sg1 1 = Some 1 /\
    (repeat_m 2 (ShareGroup_incTexRefCounter 1) ;;;
     repeat_m 3 (ShareGroup_decTexRefCounterAndReleaseIf0 1)) (sg1, g1)
    = Ret ([2; 1; 0], (uncounted 1 sg1, log_call (GlDelete TEXTURE 1) g1)) /\
    gl_calls g1 = [GlGen TEXTURE 1] /\
    counter (uncounted 1 sg1) 1 = None.
Proof.
  eexists _, _. split; [reflexivity|].
  destruct (texture_reference_count counting 0 true
              ShareGroup_new GlobalNameSpace_new 1 _ _ 1 2
              ShareGroup_new_typed eq_refl eq_refl eq_refl eq_refl)
    as (H1 & _ & H3 & H4 & _).
  repeat split; assumption.
Defined.

(** ** The registry of share groups *)

Lemma owned_by_key w k p : m_groups w !! k = Some p -> owned p w = true.
Proof.
  intros H. unfold owned. apply bool_decide_eq_true. left.
  apply list_elem_of_fmap. exists (k, p). split; [reflexivity|].
  apply elem_of_map_to_list. assumption.
Qed.

(** C5.  [attachShareGroup(key, existing)]: when [existing] is not
    registered, it returns the empty pointer and changes nothing.  When
    [existing] is registered with the group at [p] and [key] is not
    registered, the registry gains exactly the entry of [key], bound to the
    same [p], so that both keys lead to the one group; no group is created
    or changed, and a pointer to [p] is returned.  When both are registered,
    the registry is unchanged, [key] keeps its group, and the pointer to the
    group of [existing] is returned. *)
Theorem attachShareGroup_effect (key existing : N) w :
  (m_groups w !! existing = None ->
   ObjectNameManager_attachShareGroup key existing w = Ret (None, w)) /\
  (forall p, m_groups w !! existing = Some p -> m_groups w !! key = None ->
   exists w',
     ObjectNameManager_attachShareGroup key existing w = Ret (Some p, w') /\
     m_groups w' = <[key := p]> (m_groups w) /\
     m_groups w' !! key = Some p /\
     m_groups w' !! existing = Some p /\
     heap w' = heap w /\
     m_globalNameSpace w' = m_globalNameSpace w /\
     held w' = p :: held w) /\
  (forall p q, m_groups w !! existing = Some p -> m_groups w !! key = Some q ->
   exists w',
     ObjectNameManager_attachShareGroup key existing w = Ret (Some p, w') /\
     m_groups w' = m_groups w /\
     heap w' = heap w /\
     m_globalNameSpace w' = m_globalNameSpace w /\
     held w' = p :: held w).
Proof.
  unfold ObjectNameManager_attachShareGroup, hand_out. run.
  split; [|split].
  - intros ->. reflexivity.
  - intros p He Hk. rewrite He, Hk. simpl. eexists. split; [reflexivity|]. simpl.
    rewrite (emplace_absent _ _ _ Hk). repeat split.
    + apply lookup_insert_eq.
    + destruct (decide (key = existing)) as [->|Hne]; [congruence|].
      rewrite lookup_insert_ne by assumption. assumption.
  - intros p q He Hk. rewrite He, Hk. simpl. eexists. split; [reflexivity|].
    destruct w. repeat split.
Qed.

Lemma attachShareGroup_effect_witness :
  ObjectNameManager_attachShareGroup 200 100 (ObjectNameManager_new GlobalNameSpace_new)
    = Ret (None, ObjectNameManager_new GlobalNameSpace_new) /\
  (exists w',
     ObjectNameManager_attachShareGroup 300 100 two_keys_one_group = Ret (Some 0, w') /\
     m_groups w' !! 300 = Some 0 /\
     m_groups w' !! 100 = Some 0 /\
     heap w' = heap two_keys_one_group) /\
  (exists w',
     ObjectNameManager_attachShareGroup 200 100 two_keys_one_group = Ret (Some 0, w') /\
     m_groups w' = m_groups two_keys_one_group).
Proof.
  split; [|split].
  - apply (proj1 (attachShareGroup_effect 200 100 (ObjectNameManager_new GlobalNameSpace_new))).
    reflexivity.
  - destruct (proj1 (proj2 (attachShareGroup_effect 300 100 two_keys_one_group))
                0 eq_refl eq_refl) as (w' & E & _ & Hk & He & Hh & _).
    exists w'. repeat split; assumption.
  - destruct (proj2 (proj2 (attachShareGroup_effect 200 100 two_keys_one_group))
                0 0 eq_refl eq_refl) as (w' & E & Hg & _).
    exists w'. split; assumption.
Defined.

(** Two keys of one group see the same names: a framebuffer name generated
    through the pointer of the attached key is found through the pointer of
    the first key. *)
Lemma attached_key_shares_names :
  (p1 <- ObjectNameManager_createShareGroup 100 ;;
   p2 <- ObjectNameManager_attachShareGroup 200 100 ;;
   l <- through p2 (ShareGroup_genName counting FRAMEBUFFER 0 true) ;;
   g <- through p2 (ShareGroup_getGlobalName FRAMEBUFFER l) ;;
   l' <- through p1 (ShareGroup_getLocalName FRAMEBUFFER g) ;;
   present <- through p1 (ShareGroup_isObject FRAMEBUFFER l) ;;
   ret (p1, p2, l, l', present)) (ObjectNameManager_new GlobalNameSpace_new)
  = Ret ((Some 0, Some 0, 1, 1, true),
         {| m_groups := {[ 100 := 0; 200 := 0 ]};
            heap := {[ 0 := set_nameSpace
                              (vinsert 3%fin {| m_type := FRAMEBUFFER; m_nextName := 1;
                                                m_localToGlobalMap := {[ 1 := 1 ]};
                                                m_globalToLocalMap := {[ 1 := 1 ]} |}
                                 (m_nameSpace ShareGroup_new)) ShareGroup_new ]};
            held := [0; 0];
            m_globalNameSpace := {| m_deleteInitialized := true;
                                    gl_calls := [GlGen FRAMEBUFFER 1] |} |}).
Proof. vm_compute. reflexivity. Qed.

(** ** Destroying a group *)

Lemma GlobalNameSpace_deleteName_bound t n g :
  t < NUM_OBJECT_TYPES ->
  m_deleteInitialized g = true ->
  exists g', GlobalNameSpace_deleteName t n g = Ret (tt, g') /\
             m_deleteInitialized g' = true.
Proof.
  intros Ht Hinit. rewrite GlobalNameSpace_deleteName_run by assumption.
  eexists. split; [reflexivity|]. destruct (driver_type t); assumption.
Qed.

Lemma NameSpace_destroy_returns ns g :
  m_type ns < NUM_OBJECT_TYPES ->
  m_deleteInitialized g = true ->
  exists g', NameSpace_destroy ns g = Ret (tt, g') /\ m_deleteInitialized g' = true.
Proof.
  intros Ht. unfold NameSpace_destroy.
  generalize (map_to_list (m_localToGlobalMap ns)) as names. intros names. revert g.
  induction names as [|[l gn] names IH]; intros g Hinit; simpl.
  - exists g. split; [reflexivity | assumption].
  - rewrite bind_run.
    destruct (GlobalNameSpace_deleteName_bound (m_type ns) gn g Ht Hinit)
      as (g1 & -> & Hinit1).
    apply IH. assumption.
Qed.

Lemma NameSpace_destroy_empty ns g :
  m_localToGlobalMap ns = ∅ -> NameSpace_destroy ns g = Ret (tt, g).
Proof.
  intros H. unfold NameSpace_destroy. rewrite H, map_to_list_empty. reflexivity.
Qed.

(** The destructor of a group returns when the deleters are bound, and when
    the group has no names. *)
Lemma ShareGroup_destroy_returns sg g :
  typed sg ->
  (m_deleteInitialized g = true \/
   forall i : fin 5, m_localToGlobalMap (m_nameSpace sg !!! i) = ∅) ->
  exists g', ShareGroup_destroy sg g = Ret (tt, g').
Proof.
  intros Hty Hsafe. unfold ShareGroup_destroy.
  assert (Htypes : Forall (fun ns => m_type ns < NUM_OBJECT_TYPES)
                     (vec_to_list (m_nameSpace sg))).
  { apply Forall_vlookup. intros i. rewrite Hty.
    pose proof (fin_to_nat_lt i). unfold NUM_OBJECT_TYPES. lia. }
  destruct Hsafe as [Hinit|Hempty].
  - revert g Hinit. induction Htypes as [|ns rest Hns _ IH]; intros g Hinit; simpl.
    + eauto.
    + rewrite bind_run.
      destruct (NameSpace_destroy_returns ns g Hns Hinit) as (g1 & -> & Hinit1).
      apply IH. assumption.
  - exists g. clear Htypes.
    assert (Hall : Forall (fun ns => m_localToGlobalMap ns = ∅)
                     (vec_to_list (m_nameSpace sg)))
      by (apply Forall_vlookup; assumption).
    induction Hall as [|ns rest Hns _ IH]; simpl; [reflexivity|].
    rewrite bind_run, NameSpace_destroy_empty by assumption. exact IH.
Qed.

(** C7.  In a manager whose groups can be destroyed, [deleteShareGroup]
    of a registered key returns; after it [getShareGroup] of the key returns
    the empty pointer; every other key keeps its entry, and the group of
    every other key, the group of the deleted key included when another key
    shares it, stays in the heap with its state and is returned by
    [getShareGroup] of that key.  As long as a pointer owns the group of
    the deleted key, nothing but the entry of the key changes. *)
Theorem deleteShareGroup_removes_only_key (key p : N) w :
  destructible w ->
  m_groups w !! key = Some p ->
  exists w1,
    ObjectNameManager_deleteShareGroup key w = Ret (tt, w1) /\
    ObjectNameManager_getShareGroup key w1 = Ret (None, w1) /\
    (forall key', key' <> key -> m_groups w1 !! key' = m_groups w !! key') /\
    (forall key' q, key' <> key -> m_groups w !! key' = Some q ->
       heap w1 !! q = heap w !! q /\
       ObjectNameManager_getShareGroup key' w1
       = Ret (Some q, set_held (q :: held w1) w1)) /\
    (owned p (set_groups (delete key (m_groups w)) w) = true ->
       w1 = set_groups (delete key (m_groups w)) w).
Proof.
  intros Hsafe Hkey.
  set (w' := set_groups (delete key (m_groups w)) w).
  assert (Hshape : exists w1,
    ObjectNameManager_deleteShareGroup key w = Ret (tt, w1) /\
    m_groups w1 = delete key (m_groups w) /\
    (heap w1 = heap w \/ (owned p w' = false /\ heap w1 = delete p (heap w))) /\
    (owned p w' = true -> w1 = w')).
  { unfold ObjectNameManager_deleteShareGroup, release. run. rewrite Hkey. simpl.
    fold w'. destruct (owned p w') eqn:Eown.
    - exists w'. split; [reflexivity|].
      split; [reflexivity|]. split; [left; reflexivity | reflexivity].
    - change (heap w' !! p) with (heap w !! p).
      destruct (heap w !! p) as [sg|] eqn:Eheap.
      + destruct (Hsafe p sg Eheap) as [Hty Hok].
        change (m_globalNameSpace w') with (m_globalNameSpace w).
        destruct (ShareGroup_destroy_returns sg (m_globalNameSpace w) Hty Hok)
          as (g' & ->).
        eexists. split; [reflexivity|]. simpl.
        split; [reflexivity|]. split; [right; split; reflexivity | discriminate].
      + exists w'. split; [reflexivity|].
        split; [reflexivity|]. split; [left; reflexivity | discriminate]. }
  destruct Hshape as (w1 & E & Hgroups & Hheap & Hsame).
  exists w1. split; [exact E|]. split; [|split; [|split; [|exact Hsame]]].
  - unfold ObjectNameManager_getShareGroup. run.
    rewrite Hgroups, lookup_delete_eq. reflexivity.
  - intros key' Hne. rewrite Hgroups. apply lookup_delete_ne. congruence.
  - intros key' q Hne Hq. split.
    + destruct Hheap as [->|[Hown ->]]; [reflexivity|].
      apply lookup_delete_ne. intros <-.
      assert (owned p w' = true); [|congruence].
      apply (owned_by_key w' key'). unfold w'. simpl.
      rewrite lookup_delete_ne by congruence. assumption.
    + unfold ObjectNameManager_getShareGroup, hand_out. run.
      rewrite Hgroups, lookup_delete_ne by congruence. rewrite Hq. reflexivity.
Qed.

Lemma ShareGroup_new_empty (i : fin 5) :
  m_localToGlobalMap (m_nameSpace ShareGroup_new !!! i) = ∅.
Proof. repeat (inv_fin i; [reflexivity | intros i]). inv_fin i. Qed.

(** A new manager has no group to destroy, and a group that
    [createShareGroup] makes can be destroyed. *)
Lemma destructible_new g : destructible (ObjectNameManager_new g).
Proof. intros p sg H. simpl in H. rewrite lookup_empty in H. discriminate. Qed.

Lemma destructible_createShareGroup key w ptr w' :
  destructible w ->
  ObjectNameManager_createShareGroup key w = Ret (ptr, w') ->
  destructible w'.
Proof.
  intros Hsafe. unfold ObjectNameManager_createShareGroup, hand_out. run.
  destruct (m_groups w !! key) as [p|]; intros [= <- <-]; [exact Hsafe|].
  intros p sg. simpl. rewrite lookup_insert. case_decide.
  - intros [= <-]. split; [apply ShareGroup_new_typed|].
    right. apply ShareGroup_new_empty.
  - apply Hsafe.
Qed.

Lemma destructible_two_keys_one_group : destructible two_keys_one_group.
Proof.
  intros p sg H. change (({[ 0 := ShareGroup_new ]} : gmap N ShareGroup) !! p = Some sg) in H.
  apply lookup_singleton_Some in H as [<- <-].
  split; [apply ShareGroup_new_typed|]. right. apply ShareGroup_new_empty.
Qed.

(** Key 100 is deleted; key 200 still leads to the group. *)
Lemma deleteShareGroup_removes_only_key_witness :
  exists w1,
    ObjectNameManager_deleteShareGroup 100 two_keys_one_group = Ret (tt, w1) /\
    ObjectNameManager_getShareGroup 100 w1 = Ret (None, w1) /\
    m_groups w1 !! 200 = Some 0 /\
    heap w1 !! 0 = Some ShareGroup_new.
Proof.
  destruct (deleteShareGroup_removes_only_key 100 0 two_keys_one_group
              destructible_two_keys_one_group eq_refl)
    as (w1 & E & Hget & Hother & Hgroup & _).
  exists w1. split; [exact E|]. split; [exact Hget|]. split.
  - rewrite Hother by discriminate. reflexivity.
  - destruct (Hgroup 200 0) as [-> _]; [discriminate | reflexivity | reflexivity].
Defined.

(** The group is destroyed with its last owner: after the second key is
    deleted too, no group is left. *)
Lemma last_key_destroys_group :
  (ObjectNameManager_deleteShareGroup 100 ;;;
   ObjectNameManager_deleteShareGroup 200) two_keys_one_group
  = Ret (tt, ObjectNameManager_new GlobalNameSpace_new).
Proof. vm_compute. reflexivity. Qed.

(** ** Groups stay destructible *)

(** The hypotheses [typed], [sound] and [destructible] of the theorems above
    hold of every group and manager the program builds: the constructors
    establish them and every method keeps them. *)

Lemma GlobalNameSpace_deleteName_inv t n g g' :
  GlobalNameSpace_deleteName t n g = Ret (tt, g') ->
  m_deleteInitialized g' = m_deleteInitialized g.
Proof.
  unfold GlobalNameSpace_deleteName. destruct (negb (t =? SHADER)); run.
  - destruct (m_deleteInitialized g && driver_type t); run; intros [= <-]; reflexivity.
  - intros [= <-]. reflexivity.
Qed.

Section KeepsSound.

Variable glGen : N -> list GLcall -> N.

Lemma reads_keep_sound_ns {A} (m : M (NameSpace * GlobalNameSpace) A) :
  (forall ns g, exists a, m (ns, g) = Ret (a, (ns, g))) -> keeps_sound_ns m.
Proof.
  intros Hread ns g a ns' g' _ E. destruct (Hread ns g) as [a0 E0].
  rewrite E0 in E. injection E as _ <- <-. auto.
Qed.

Lemma genName_keeps_sound_ns r aG aL :
  keeps_sound_ns (NameSpace_genName glGen r aG aL).
Proof.
  intros ns g l ns' g' Ht E.
  apply NameSpace_genName_inv in E as (Hty & _ & Hmaps). split; [assumption|].
  destruct aG.
  - destruct Hmaps as (gname & Egen & _ & _).
    destruct (GlobalNameSpace_genName_returns glGen (m_type ns) g)
      as (n0 & g0 & E0 & Hinit & Hmono & _).
    rewrite E0 in Egen. injection Egen as -> ->. auto.
  - destruct Hmaps as (-> & -> & _). auto.
Qed.

Lemma genGlobalName_keeps_sound_ns : keeps_sound_ns (NameSpace_genGlobalName glGen).
Proof.
  intros ns g a ns' g' Ht. unfold NameSpace_genGlobalName. run.
  destruct (GlobalNameSpace_genName_returns glGen (m_type ns) g)
    as (n0 & g0 & -> & Hinit & Hmono & _).
  intros [= <- <- <-]. auto.
Qed.

Lemma deleteName_keeps_sound_ns l : keeps_sound_ns (NameSpace_deleteName l).
Proof.
  intros ns g [] ns' g' Ht E.
  apply NameSpace_deleteName_inv in E as (Hty & _ & Hmaps). split; [assumption|].
  destruct (m_localToGlobalMap ns !! l) as [gn|] eqn:El.
  - destruct Hmaps as (_ & _ & Hg).
    assert (Hsame : m_deleteInitialized g' = m_deleteInitialized g).
    { destruct (m_type ns =? TEXTURE); [subst; reflexivity|].
      apply GlobalNameSpace_deleteName_inv in Hg. assumption. }
    rewrite Hsame. split; [auto|]. intros [Hi|He]; [auto|].
    rewrite He, lookup_empty in El. discriminate.
  - destruct Hmaps as [-> ->]. auto.
Qed.

Lemma replaceGlobalName_keeps_sound_ns l gn0 :
  keeps_sound_ns (NameSpace_replaceGlobalName l gn0).
Proof.
  intros ns g [] ns' g' Ht E.
  apply NameSpace_replaceGlobalName_inv in E as (Hty & _ & Hmaps). split; [assumption|].
  destruct (m_localToGlobalMap ns !! l) as [gn|] eqn:El.
  - destruct Hmaps as (_ & _ & Hg).
    assert (Hsame : m_deleteInitialized g' = m_deleteInitialized g).
    { destruct (m_type ns =? TEXTURE); [subst; reflexivity|].
      apply GlobalNameSpace_deleteName_inv in Hg. assumption. }
    rewrite Hsame. split; [auto|]. intros [Hi|He]; [auto|].
    rewrite He, lookup_empty in El. discriminate.
  - destruct Hmaps as [-> ->]. auto.
Qed.

Lemma global_deleteName_keeps_sound_ns t n :
  keeps_sound_ns (global (GlobalNameSpace_deleteName t n)).
Proof.
  intros ns g [] ns' g' _. run.
  destruct (GlobalNameSpace_deleteName t n g) as [[[] g1]| |] eqn:E; try discriminate.
  intros [= <- <-]. apply GlobalNameSpace_deleteName_inv in E. rewrite E. auto.
Qed.

Lemma keeps_sound_ret {A} (a : A) : keeps_sound (ret a).
Proof. intros sg g a0 sg' g' Hs [= <- <- <-]. auto. Qed.

Lemma keeps_sound_fault {A} : keeps_sound (@fault _ A).
Proof. intros sg g a sg' g' _ [=]. Qed.

Lemma keeps_sound_bind {A B} (m : M (ShareGroup * GlobalNameSpace) A)
    (k : A -> M (ShareGroup * GlobalNameSpace) B) :
  keeps_sound m -> (forall a, keeps_sound (k a)) -> keeps_sound (bind m k).
Proof.
  intros Hm Hk sg g b sg' g' Hs. rewrite bind_run.
  destruct (m (sg, g)) as [[a [sg1 g1]]| |] eqn:E; try discriminate.
  intros E'. destruct (Hm sg g a sg1 g1 Hs E) as [Hs1 Hmono1].
  destruct (Hk a sg1 g1 b sg' g' Hs1 E') as [Hs' Hmono']. auto.
Qed.

Lemma keeps_sound_this_sg {A} (f : ShareGroup -> A) : keeps_sound (this_sg f).
Proof. intros sg g a sg' g' Hs [= <- <- <-]. auto. Qed.

Lemma keeps_sound_update_sg (f : ShareGroup -> ShareGroup) :
  (forall sg, m_nameSpace (f sg) = m_nameSpace sg) -> keeps_sound (update_sg f).
Proof.
  intros Hf sg g [] sg' g' [Hty Hok] [= <- <-]. split; [|auto].
  split; [intros i; rewrite Hf; apply Hty|].
  destruct Hok as [|He]; [auto|]. right. intros i. rewrite Hf. apply He.
Qed.

Lemma keeps_sound_name_space {A} t (m : M (NameSpace * GlobalNameSpace) A) :
  keeps_sound_ns m -> keeps_sound (name_space t m).
Proof.
  intros Hm sg g a sg' g' [Hty Hok]. unfold name_space.
  destruct (type_index t) as [i|] eqn:Hi; [|intros [=]]. run.
  destruct (m (m_nameSpace sg !!! i, g)) as [[a0 [ns' g1]]| |] eqn:E; try discriminate.
  intros [= <- <- <-].
  destruct (Hm _ _ _ _ _ (eq_ind_r (fun t0 => t0 < NUM_OBJECT_TYPES)
                            (type_index_lt t i Hi) (typed_type sg t i Hty Hi)) E)
    as (Htype & Hmono & Hstep).
  split; [|exact Hmono]. split; [apply typed_set_nameSpace; assumption|].
  destruct Hok as [Hinit|He]; [auto|].
  destruct (Hstep (or_intror (He i))) as [|He']; [auto|].
  right. intros j. simpl. destruct (decide (i = j)) as [<-|Hne].
  - rewrite vlookup_insert. assumption.
  - rewrite vlookup_insert_ne by assumption. apply He.
Qed.

Ltac sound_steps :=
  repeat first
    [ apply keeps_sound_ret
    | apply keeps_sound_fault
    | apply keeps_sound_this_sg
    | apply keeps_sound_update_sg; intros; reflexivity
    | apply keeps_sound_name_space
    | apply keeps_sound_bind; [|intros ?]
    | match goal with
      | |- keeps_sound (if ?c then _ else _) => destruct c
      | |- keeps_sound (match ?x with Some _ => _ | None => _ end) => destruct x
      end ].

Lemma incTexRefCounter_keeps_sound gn : keeps_sound (ShareGroup_incTexRefCounter gn).
Proof.
  unfold ShareGroup_incTexRefCounter, ShareGroup_incTexRefCounterNoLock. sound_steps.
Qed.

Lemma decTexRefCounter_keeps_sound gn :
  keeps_sound (ShareGroup_decTexRefCounterAndReleaseIf0 gn).
Proof.
  unfold ShareGroup_decTexRefCounterAndReleaseIf0, assert. sound_steps.
  apply global_deleteName_keeps_sound_ns.
Qed.

Lemma genName_keeps_sound t r aL : keeps_sound (ShareGroup_genName glGen t r aL).
Proof.
  unfold ShareGroup_genName, ShareGroup_incTexRefCounterNoLock. sound_steps.
  - apply genName_keeps_sound_ns.
  - apply reads_keep_sound_ns. intros. eexists. apply NameSpace_getGlobalName_run.
Qed.

Lemma genGlobalName_keeps_sound t : keeps_sound (ShareGroup_genGlobalName glGen t).
Proof.
  unfold ShareGroup_genGlobalName. sound_steps. apply genGlobalName_keeps_sound_ns.
Qed.

Lemma deleteName_keeps_sound t l : keeps_sound (ShareGroup_deleteName t l).
Proof.
  unfold ShareGroup_deleteName. sound_steps. apply deleteName_keeps_sound_ns.
Qed.

Lemma replaceGlobalName_keeps_sound t l gn :
  keeps_sound (ShareGroup_replaceGlobalName t l gn).
Proof.
  unfold ShareGroup_replaceGlobalName. sound_steps.
  apply replaceGlobalName_keeps_sound_ns.
Qed.

Lemma setObjectData_keeps_sound t l d : keeps_sound (ShareGroup_setObjectData t l d).
Proof. unfold ShareGroup_setObjectData. sound_steps. Qed.

End KeepsSound.

Lemma NameSpace_destroy_inv ns g g' :
  NameSpace_destroy ns g = Ret (tt, g') ->
  m_deleteInitialized g' = m_deleteInitialized g.
Proof.
  unfold NameSpace_destroy.
  generalize (map_to_list (m_localToGlobalMap ns)) as names. intros names. revert g.
  induction names as [|[l gn] names IH]; intros g; simpl.
  - intros [= <-]. reflexivity.
  - rewrite bind_run.
    destruct (GlobalNameSpace_deleteName (m_type ns) gn g) as [[[] g1]| |] eqn:E;
      try discriminate.
    intros E'. apply IH in E'. apply GlobalNameSpace_deleteName_inv in E. congruence.
Qed.

Lemma ShareGroup_destroy_inv sg g g' :
  ShareGroup_destroy sg g = Ret (tt, g') ->
  m_deleteInitialized g' = m_deleteInitialized g.
Proof.
  unfold ShareGroup_destroy.
  generalize (vec_to_list (m_nameSpace sg)) as spaces. intros spaces. revert g.
  induction spaces as [|ns spaces IH]; intros g; simpl.
  - intros [= <-]. reflexivity.
  - rewrite bind_run.
    destruct (NameSpace_destroy ns g) as [[[] g1]| |] eqn:E; try discriminate.
    intros E'. apply IH in E'. apply NameSpace_destroy_inv in E. congruence.
Qed.

Lemma sound_same_deleters sg g g' :
  m_deleteInitialized g' = m_deleteInitialized g -> sound sg g -> sound sg g'.
Proof. intros E [Hty Hok]. split; [assumption|]. rewrite E. assumption. Qed.

Lemma destructible_ext w w' :
  heap w' = heap w -> m_globalNameSpace w' = m_globalNameSpace w ->
  destructible w -> destructible w'.
Proof. intros Hh Hg Hsafe p sg. rewrite Hh, Hg. apply Hsafe. Qed.

(** A method of a group, called through a pointer, keeps the groups of the
    manager destructible. *)
Lemma destructible_through {A} p (m : M (ShareGroup * GlobalNameSpace) A) w a w' :
  keeps_sound m ->
  destructible w ->
  through (Some p) m w = Ret (a, w') ->
  destructible w'.
Proof.
  intros Hm Hsafe. unfold through.
  destruct (heap w !! p) as [sg|] eqn:Ep; [|intros [=]]. run.
  destruct (m (sg, m_globalNameSpace w)) as [[a0 [sg1 g1]]| |] eqn:E; try discriminate.
  intros [= <- <-].
  destruct (Hm sg _ a0 sg1 g1 (Hsafe p sg Ep) E) as [Hs1 Hmono].
  intros q sgq. simpl. rewrite lookup_insert. case_decide.
  - intros [= <-]. assumption.
  - intros Hq. destruct (Hsafe q sgq Hq) as [Hty Hok]. split; [assumption|].
    destruct Hok; auto.
Qed.

Lemma destructible_release p w w' :
  destructible w -> release p w = Ret (tt, w') -> destructible w'.
Proof.
  intros Hsafe. unfold release. run.
  destruct (owned p w); [intros [= <-]; assumption|].
  destruct (heap w !! p) as [sg|] eqn:Ep; [|intros [= <-]; assumption]. run.
  destruct (ShareGroup_destroy sg (m_globalNameSpace w)) as [[[] g1]| |] eqn:E;
    try discriminate.
  intros [= <-]. intros q sgq. simpl. intros [_ Hq]%lookup_delete_Some.
  apply (sound_same_deleters sgq (m_globalNameSpace w)); [|apply (Hsafe q); assumption].
  apply ShareGroup_destroy_inv in E. assumption.
Qed.

Lemma destructible_deleteShareGroup key w w' :
  destructible w ->
  ObjectNameManager_deleteShareGroup key w = Ret (tt, w') ->
  destructible w'.
Proof.
  intros Hsafe. unfold ObjectNameManager_deleteShareGroup.
  rewrite bind_run. unfold gets.
  destruct (m_groups w !! key) as [p|]; [|intros [= <-]; assumption].
  rewrite bind_run. unfold modify. apply destructible_release.
  apply (destructible_ext w); [reflexivity..|assumption].
Qed.

Lemma destructible_drop p w w' :
  destructible w -> ShareGroupPtr_drop p w = Ret (tt, w') -> destructible w'.
Proof.
  intros Hsafe. unfold ShareGroupPtr_drop. rewrite bind_run. unfold gets.
  destruct (bool_decide (p ∈ held w)); [|intros [= <-]; assumption].
  rewrite bind_run. unfold modify. apply destructible_release.
  apply (destructible_ext w); [reflexivity..|assumption].
Qed.

Lemma destructible_getShareGroup key w ptr w' :
  destructible w ->
  ObjectNameManager_getShareGroup key w = Ret (ptr, w') ->
  destructible w'.
Proof.
  intros Hsafe. unfold ObjectNameManager_getShareGroup, hand_out. run.
  destruct (m_groups w !! key); intros [= <- <-]; assumption.
Qed.

Lemma destructible_attachShareGroup key existing w ptr w' :
  destructible w ->
  ObjectNameManager_attachShareGroup key existing w = Ret (ptr, w') ->
  destructible w'.
Proof.
  intros Hsafe. unfold ObjectNameManager_attachShareGroup, hand_out. run.
  destruct (m_groups w !! existing); [|intros [= <- <-]; assumption].
  destruct (bool_decide (m_groups w !! key = None)); intros [= <- <-]; assumption.
Qed.

(** * More of the code *)

(** ** The registry: creating, finding and deleting groups *)

(** X1.  [createShareGroup] gets or creates: it always returns a pointer,
    and the key is bound to it afterwards while every other key keeps its
    entry.  A key that was registered keeps its group and no group is
    created; a key that was not is bound to a new group, as the constructor
    makes it, at an address where no group lived.  After the call
    [getShareGroup] of the key returns the same pointer, and a second
    [createShareGroup] returns it again without creating a group. *)
Theorem createShareGroup_gets_or_creates (key : N) w :
  exists p w1,
    ObjectNameManager_createShareGroup key w = Ret (Some p, w1) /\
    m_groups w1 !! key = Some p /\
    (forall key', key' <> key -> m_groups w1 !! key' = m_groups w !! key') /\
    match m_groups w !! key with
    | Some q => q = p /\ heap w1 = heap w
    | None => heap w !! p = None /\ heap w1 = <[p := ShareGroup_new]> (heap w)
    end /\
    m_globalNameSpace w1 = m_globalNameSpace w /\
    ObjectNameManager_getShareGroup key w1
    = Ret (Some p, set_held (p :: held w1) w1) /\
    ObjectNameManager_createShareGroup key w1
    = Ret (Some p, set_held (p :: held w1) w1).
Proof.
  unfold ObjectNameManager_createShareGroup, ObjectNameManager_getShareGroup, hand_out.
  run. destruct (m_groups w !! key) as [q|] eqn:E.
  - exists q. eexists. split; [reflexivity|]. simpl. rewrite E. auto 10.
  - eexists _, _. split; [reflexivity|]. simpl.
    rewrite (emplace_absent _ _ _ E), lookup_insert_eq.
    split; [reflexivity|]. split.
    { intros key' Hne. apply lookup_insert_ne. congruence. }
    split; [|auto].
    split; [|reflexivity]. apply not_elem_of_dom, is_fresh.
Qed.

(** X2.  In a registry whose keys lead to live groups, the group that
    [createShareGroup] makes for a key that was not registered is the group
    of no other key, and the keys still lead to live groups. *)
Theorem createShareGroup_new_group_is_unshared (key : N) w :
  live_keys w ->
  m_groups w !! key = None ->
  exists p w1,
    ObjectNameManager_createShareGroup key w = Ret (Some p, w1) /\
    heap w1 !! p = Some ShareGroup_new /\
    (forall key', key' <> key -> m_groups w1 !! key' <> Some p) /\
    live_keys w1.
Proof.
  intros Hlive E.
  unfold ObjectNameManager_createShareGroup, hand_out. run. rewrite E.
  eexists _, _. split; [reflexivity|]. simpl.
  rewrite (emplace_absent _ _ _ E).
  assert (Hfresh : heap w !! fresh (dom (heap w)) = None)
    by apply not_elem_of_dom, is_fresh.
  split; [apply lookup_insert_eq|]. split.
  - intros key' Hne. rewrite lookup_insert_ne by congruence.
    intros Hkey'. destruct (Hlive key' _ Hkey') as [sg Hsg]. congruence.
  - intros k q. simpl. rewrite lookup_insert. case_decide.
    + intros [= <-]. rewrite lookup_insert_eq. eauto.
    + intros Hk. destruct (Hlive k q Hk) as [sg Hsg].
      rewrite lookup_insert. case_decide; eauto.
Qed.

Lemma live_keys_two_keys_one_group : live_keys two_keys_one_group.
Proof.
  intros k q H. change (({[ 100 := 0; 200 := 0 ]} : gmap N N) !! k = Some q) in H.
  apply lookup_insert_Some in H as [[_ <-]|[_ H]].
  - exists ShareGroup_new. reflexivity.
  - apply lookup_singleton_Some in H as [_ <-]. exists ShareGroup_new. reflexivity.
Qed.

Lemma createShareGroup_new_group_is_unshared_witness :
  exists p w1,
    ObjectNameManager_createShareGroup 300 two_keys_one_group = Ret (Some p, w1) /\
    heap w1 !! p = Some ShareGroup_new /\
    m_groups w1 !! 100 <> Some p /\
    m_groups w1 !! 200 <> Some p.
Proof.
  destruct (createShareGroup_new_group_is_unshared 300 two_keys_one_group
              live_keys_two_keys_one_group eq_refl)
    as (p & w1 & E & Hp & Hother & _).
  exists p, w1. split; [exact E|]. split; [exact Hp|].
  split; apply Hother; discriminate.
Defined.

(** X3.  [getGlobalContext] changes nothing.  It returns the null pointer
    when no key is registered and a registered key otherwise, so that a
    result other than the null pointer is a registered key; the null pointer
    is returned for the empty registry and also when it is itself the key
    returned, [createShareGroup] taking it as any other key. *)
Theorem getGlobalContext_is_a_registered_key w :
  exists r,
    ObjectNameManager_getGlobalContext w = Ret (r, w) /\
    (m_groups w = ∅ -> r = 0) /\
    (m_groups w <> ∅ -> is_Some (m_groups w !! r)) /\
    (r = 0 -> m_groups w = ∅ \/ is_Some (m_groups w !! 0)).
Proof.
  unfold ObjectNameManager_getGlobalContext, gets.
  eexists. split; [reflexivity|].
  destruct (map_to_list (m_groups w)) as [|[k p] rest] eqn:E; simpl.
  - apply map_to_list_empty_iff in E. split; [reflexivity|].
    split; [contradiction|]. auto.
  - assert (Hk : is_Some (m_groups w !! k))
      by (exists p; apply elem_of_map_to_list; rewrite E; left).
    split; [|split].
    + intros Hempty. rewrite Hempty, map_to_list_empty in E. discriminate.
    + intros _. exact Hk.
    + intros ->. right. exact Hk.
Qed.

Lemma getGlobalContext_is_a_registered_key_witness :
  ObjectNameManager_getGlobalContext null_key_one_group = Ret (0, null_key_one_group) /\
  m_groups null_key_one_group <> ∅ /\
  is_Some (m_groups null_key_one_group !! 0).
Proof.
  assert (Hkeys : m_groups null_key_one_group <> ∅).
  { intros H. apply (f_equal (fun m : gmap N N => m !! 0)) in H. discriminate H. }
  destruct (getGlobalContext_is_a_registered_key null_key_one_group)
    as (r & E & _ & Hkey & _).
  specialize (Hkey Hkeys).
  assert (r = 0) as ->.
  { destruct Hkey as [p Hp].
    change (({[ 0 := 0 ]} : gmap N N) !! r = Some p) in Hp.
    apply lookup_singleton_Some in Hp as [<- _]. reflexivity. }
  auto.
Defined.

(** X4.  [deleteShareGroup] of a key that is the last owner of its group
    (no other key is bound to it and no caller holds a copy) destroys the
    group: the destructor runs on the global name space and the group is
    gone from the heap; the other groups stay, and so do the copies held. *)
Theorem deleteShareGroup_of_last_owner_destroys (key p : N) w sg :
  destructible w ->
  m_groups w !! key = Some p ->
  heap w !! p = Some sg ->
  p ∉ held w ->
  (forall key', key' <> key -> m_groups w !! key' <> Some p) ->
  exists w1,
    ObjectNameManager_deleteShareGroup key w = Ret (tt, w1) /\
    ShareGroup_destroy sg (m_globalNameSpace w) = Ret (tt, m_globalNameSpace w1) /\
    heap w1 = delete p (heap w) /\
    m_groups w1 = delete key (m_groups w) /\
    held w1 = held w.
Proof.
  intros Hsafe Hkey Hheap Hheld Hlast.
  unfold ObjectNameManager_deleteShareGroup, release. run. rewrite Hkey. simpl.
  assert (Hown : owned p (set_groups (delete key (m_groups w)) w) = false).
  { unfold owned. apply bool_decide_eq_false. simpl. intros [Hin|Hin]; [|contradiction].
    apply list_elem_of_fmap in Hin as ([k q] & -> & Hin).
    apply elem_of_map_to_list in Hin. simpl in Hlast.
    apply lookup_delete_Some in Hin as [Hne Hin]. apply (Hlast k); congruence. }
  rewrite Hown. change (heap (set_groups (delete key (m_groups w)) w)) with (heap w).
  rewrite Hheap. run.
  destruct (Hsafe p sg Hheap) as [Hty Hok].
  destruct (ShareGroup_destroy_returns sg (m_globalNameSpace w) Hty Hok) as (g' & ->).
  eexists. split; [reflexivity|]. simpl. auto.
Qed.

Lemma destructible_one_key_one_group : destructible one_key_one_group.
Proof.
  intros p sg H. change (({[ 0 := ShareGroup_new ]} : gmap N ShareGroup) !! p = Some sg) in H.
  apply lookup_singleton_Some in H as [<- <-].
  split; [apply ShareGroup_new_typed|]. right. apply ShareGroup_new_empty.
Qed.

Lemma deleteShareGroup_of_last_owner_destroys_witness :
  exists w1,
    ObjectNameManager_deleteShareGroup 100 one_key_one_group = Ret (tt, w1) /\
    heap w1 = delete 0 (heap one_key_one_group) /\
    m_groups w1 = delete 100 (m_groups one_key_one_group).
Proof.
  destruct (deleteShareGroup_of_last_owner_destroys 100 0 one_key_one_group
              ShareGroup_new destructible_one_key_one_group eq_refl eq_refl)
    as (w1 & E & _ & Hheap & Hgroups & _).
  - intros Hin. inversion Hin.
  - intros key' Hne Hkey'.
    change (({[ 100 := 0 ]} : gmap N N) !! key' = Some 0) in Hkey'.
    apply lookup_singleton_Some in Hkey' as [<- _]. apply Hne. reflexivity.
  - exists w1. auto.
Defined.

(** ** The global name space: the first allocation binds the deleters *)

(** X5.  [GlobalNameSpace::genName] with a type of the enumeration always
    returns.  For the four types of the driver it makes one call of the
    driver and returns the name the driver wrote, as an unsigned int; for
    shaders it makes no call and returns 0.  In both cases the deleters of
    all four driver types are bound afterwards, whichever the type was:
    [deleteName] of any type of the enumeration then returns, with one call
    of the driver for its four types and none for shaders. *)
Theorem first_genName_binds_every_deleter
    (glGen : N -> list GLcall -> N) (t t' n : N) g :
  t < NUM_OBJECT_TYPES ->
  t' < NUM_OBJECT_TYPES ->
  exists name g1,
    GlobalNameSpace_genName glGen t g = Ret (name, g1) /\
    name < 2 ^ 32 /\
    (if driver_type t
     then gl_calls g1 = GlGen t name :: gl_calls g
     else name = 0 /\ gl_calls g1 = gl_calls g) /\
    GlobalNameSpace_deleteName t' n g1
    = Ret (tt, if driver_type t' then log_call (GlDelete t' n) g1 else g1).
Proof.
  intros Ht Ht'.
  assert (Hrun : exists name g1,
    GlobalNameSpace_genName glGen t g = Ret (name, g1) /\
    name < 2 ^ 32 /\
    (if driver_type t
     then gl_calls g1 = GlGen t name :: gl_calls g
     else name = 0 /\ gl_calls g1 = gl_calls g) /\
    m_deleteInitialized g1 = true).
  { unfold GlobalNameSpace_genName. rewrite (in_range_leb t Ht).
    destruct g as [init calls]. run.
    destruct (driver_type t); destruct init; simpl; eexists _, _;
      (split; [reflexivity|]); simpl;
      repeat split; try reflexivity;
      try (apply N.mod_upper_bound; discriminate). }
  destruct Hrun as (name & g1 & E & Hname & Hcalls & Hinit).
  exists name, g1. repeat split; try assumption.
  apply GlobalNameSpace_deleteName_run; assumption.
Qed.

Lemma first_genName_binds_every_deleter_witness :
  exists name g1,
    GlobalNameSpace_genName counting SHADER GlobalNameSpace_new = Ret (name, g1) /\
    name < 2 ^ 32 /\
    (name = 0 /\ gl_calls g1 = []) /\
    GlobalNameSpace_deleteName FRAMEBUFFER 7 g1
    = Ret (tt, log_call (GlDelete FRAMEBUFFER 7) g1).
Proof.
  exact (first_genName_binds_every_deleter counting SHADER FRAMEBUFFER 7
           GlobalNameSpace_new eq_refl eq_refl).
Defined.

(** ** The name table: which name is picked, and what a deletion undoes *)

Lemma next_free_first f (m : gmap N N) n l :
  next_free f m n = Some l ->
  exists k : nat,
    (1 <= k <= f)%nat /\
    l = wrap local_name_bits (n + N.of_nat k) /\
    forall i : nat, (1 <= i < k)%nat ->
      taken m (wrap local_name_bits (n + N.of_nat i)) = true.
Proof.
  revert n. induction f as [|f IH]; intros n; simpl; [discriminate|].
  destruct (taken m (wrap local_name_bits (n + 1))) eqn:E.
  - intros (k & Hk & -> & Hbefore)%IH. exists (S k). split; [lia|]. split.
    + rewrite wrap_wrap_add. f_equal. lia.
    + intros i Hi. destruct (decide (i = 1%nat)) as [->|Hne]; [exact E|].
      specialize (Hbefore (i - 1)%nat ltac:(lia)). rewrite wrap_wrap_add in Hbefore.
      replace (n + N.of_nat i) with (n + 1 + N.of_nat (i - 1)) by lia. exact Hbefore.
  - intros [= <-]. exists 1%nat. split; [lia|]. split; [reflexivity|]. intros i Hi. lia.
Qed.

Lemma NameSpace_genName_next_free
    (glGen : N -> list GLcall -> N) r (aG : bool) ns g l ns' g' :
  NameSpace_genName glGen r aG true (ns, g) = Ret (l, (ns', g')) ->
  next_free (rounds (m_localToGlobalMap ns)) (m_localToGlobalMap ns) (m_nextName ns)
  = Some l.
Proof.
  unfold NameSpace_genName. run.
  destruct (next_free _ _ _) as [l0|]; simpl; [|intros [=]].
  destruct aG; run.
  - destruct (GlobalNameSpace_genName glGen (m_type ns) g) as [[gname g1]| |];
      simpl; try (intros [=]; fail).
    intros [= <- _ _]. reflexivity.
  - intros [= <- _ _]. reflexivity.
Qed.

(** X6.  The local name [genName] picks is the first one after the counter
    that is neither 0 nor a key of the table: the name is not 0 and not a
    key, the counter stops at it, it is [k] steps after the old counter
    (modulo 2^64), and each of the values passed over on the way is 0 or a
    key. *)
Theorem genName_picks_first_free
    (glGen : N -> list GLcall -> N) (r : N) (aG : bool) ns g l ns' g' :
  NameSpace_genName glGen r aG true (ns, g) = Ret (l, (ns', g')) ->
  l <> 0 /\
  m_localToGlobalMap ns !! l = None /\
  m_nextName ns' = l /\
  exists k : nat,
    (1 <= k)%nat /\
    l = wrap local_name_bits (m_nextName ns + N.of_nat k) /\
    forall i : nat, (1 <= i < k)%nat ->
      wrap local_name_bits (m_nextName ns + N.of_nat i) = 0 \/
      is_Some (m_localToGlobalMap ns !!
                 wrap local_name_bits (m_nextName ns + N.of_nat i)).
Proof.
  intros E. pose proof (NameSpace_genName_next_free _ _ _ _ _ _ _ _ E) as Hfree.
  apply NameSpace_genName_inv in E as (_ & [Hnew Hnext] & _).
  apply taken_false in Hnew as [Hnz Hnokey].
  split; [exact Hnz|]. split; [exact Hnokey|]. split; [exact Hnext|].
  apply next_free_first in Hfree as (k & Hk & -> & Hbefore).
  exists k. split; [lia|]. split; [reflexivity|].
  intros i Hi. specialize (Hbefore i Hi). unfold taken in Hbefore.
  apply orb_true_iff in Hbefore as [H0|Hkey].
  - left. apply N.eqb_eq. assumption.
  - right. apply bool_decide_eq_true in Hkey. assumption.
Qed.

Lemma genName_picks_first_free_witness :
  NameSpace_genName counting 0 true true
    (framebuffer_before_wrap, after_one_gen FRAMEBUFFER)
  = Ret (2, (framebuffer_after_wrap, after_two_gens FRAMEBUFFER)) /\
  2 <> 0 /\
  m_localToGlobalMap framebuffer_before_wrap !! 2 = None /\
  m_nextName framebuffer_after_wrap = 2 /\
  exists k : nat,
    (1 <= k)%nat /\
    2 = wrap local_name_bits (m_nextName framebuffer_before_wrap + N.of_nat k) /\
    forall i : nat, (1 <= i < k)%nat ->
      wrap local_name_bits (m_nextName framebuffer_before_wrap + N.of_nat i) = 0 \/
      is_Some (m_localToGlobalMap framebuffer_before_wrap !!
                 wrap local_name_bits (m_nextName framebuffer_before_wrap + N.of_nat i)).
Proof.
  assert (E : NameSpace_genName counting 0 true true
                (framebuffer_before_wrap, after_one_gen FRAMEBUFFER)
              = Ret (2, (framebuffer_after_wrap, after_two_gens FRAMEBUFFER)))
    by (vm_compute; reflexivity).
  split; [exact E|].
  exact (genName_picks_first_free counting 0 true
           framebuffer_before_wrap (after_one_gen FRAMEBUFFER) 2
           framebuffer_after_wrap (after_two_gens FRAMEBUFFER) E).
Defined.

(** X7.  A name that [genName] brings into a table as a new name (with a
    global name from the allocator that is bound to no local name) and that
    [deleteName] then deletes leaves both maps as they were before the two
    calls; [deleteName] returns, because [genName] has bound the deleters. *)
Theorem genName_then_deleteName_restores_maps
    (glGen : N -> list GLcall -> N) (r : N) (aL : bool) ns g l ns1 g1 :
  m_type ns < NUM_OBJECT_TYPES ->
  brings_new_names glGen (Generate r true aL) (ns, g) ->
  NameSpace_genName glGen r true aL (ns, g) = Ret (l, (ns1, g1)) ->
  exists ns2 g2,
    NameSpace_deleteName l (ns1, g1) = Ret (tt, (ns2, g2)) /\
    m_localToGlobalMap ns2 = m_localToGlobalMap ns /\
    m_globalToLocalMap ns2 = m_globalToLocalMap ns /\
    m_type ns2 = m_type ns.
Proof.
  intros Ht [Hreq Hglobal] E. simpl in Hreq, Hglobal.
  apply NameSpace_genName_inv in E as (Hty & Hlocal & gname & Egen & Hl2g & Hg2l).
  assert (Hl : m_localToGlobalMap ns !! l = None).
  { destruct aL.
    - destruct Hlocal as [Hfree _]. apply taken_false in Hfree. tauto.
    - destruct Hlocal as [-> _]. auto. }
  assert (Hg : m_globalToLocalMap ns !! gname = None)
    by (apply Hglobal; rewrite Egen; reflexivity).
  assert (Hinit : m_deleteInitialized g1 = true).
  { destruct (GlobalNameSpace_genName_returns glGen (m_type ns) g)
      as (n0 & g0 & E0 & Hinit & _). rewrite E0 in Egen. injection Egen as _ <-. auto. }
  rewrite NameSpace_deleteName_run by (rewrite ?Hty; auto).
  assert (Hlk : m_localToGlobalMap ns1 !! l = Some gname)
    by (rewrite Hl2g; apply lookup_insert_eq).
  eexists _, _. rewrite Hlk. split; [reflexivity|]. simpl.
  rewrite Hl2g, Hg2l, !delete_insert_id by assumption. auto.
Qed.

Lemma genName_then_deleteName_restores_maps_witness :
  exists ns2 g2,
    NameSpace_deleteName 1 (one_framebuffer, after_one_gen FRAMEBUFFER)
    = Ret (tt, (ns2, g2)) /\
    m_localToGlobalMap ns2 = ∅ /\
    m_globalToLocalMap ns2 = ∅.
Proof.
  destruct (genName_then_deleteName_restores_maps counting 0 true
              (NameSpace_new FRAMEBUFFER) GlobalNameSpace_new 1
              one_framebuffer (after_one_gen FRAMEBUFFER))
    as (ns2 & g2 & E & H1 & H2 & _).
  - reflexivity.
  - split; [discriminate|]. intros gname _. apply lookup_empty.
  - reflexivity.
  - exists ns2, g2. auto.
Defined.

(** ** Tearing a name space down *)

Lemma destroy_names_log t (names : list (N * N)) : forall g,
  t < NUM_OBJECT_TYPES ->
  m_deleteInitialized g = true ->
  foldr (fun n rest => GlobalNameSpace_deleteName t n.2 ;;; rest) (ret tt) names g
  = Ret (tt, {| m_deleteInitialized := true;
                gl_calls := (if driver_type t
                             then rev ((fun n => GlDelete t n.2) <$> names)
                             else []) ++ gl_calls g |}).
Proof.
  induction names as [|[l gn] names IH]; intros g Ht Hinit; simpl.
  - destruct g; simpl in *; subst. destruct (driver_type t); reflexivity.
  - rewrite bind_run, GlobalNameSpace_deleteName_run by assumption.
    rewrite IH by (try assumption; destruct (driver_type t); assumption).
    destruct (driver_type t); simpl; [|reflexivity].
    rewrite <- app_assoc. reflexivity.
Qed.

(** X8.  The destructor of a name space, with the deleters bound, deletes
    through the driver every global name left in its table, once each, for
    the four types of the driver, textures included, and makes no call for
    shaders. *)
Theorem NameSpace_destroy_deletes_every_name ns g :
  m_type ns < NUM_OBJECT_TYPES ->
  m_deleteInitialized g = true ->
  exists g',
    NameSpace_destroy ns g = Ret (tt, g') /\
    gl_calls g' =
      (if driver_type (m_type ns)
       then rev ((fun n => GlDelete (m_type ns) n.2)
                   <$> map_to_list (m_localToGlobalMap ns))
       else []) ++ gl_calls g /\
    (driver_type (m_type ns) = true ->
     length (gl_calls g') = (size (m_localToGlobalMap ns) + length (gl_calls g))%nat /\
     forall l gn, m_localToGlobalMap ns !! l = Some gn ->
       GlDelete (m_type ns) gn ∈ gl_calls g').
Proof.
  intros Ht Hinit. unfold NameSpace_destroy. rewrite destroy_names_log by assumption.
  eexists. split; [reflexivity|]. simpl. split; [reflexivity|].
  intros ->. split.
  - rewrite length_app, length_rev, length_fmap, length_map_to_list. reflexivity.
  - intros l gn Hl. apply elem_of_app. left. apply list_elem_of_In, in_rev.
    rewrite rev_involutive. apply list_elem_of_In.
    apply list_elem_of_fmap. exists (l, gn). split; [reflexivity|].
    apply elem_of_map_to_list. assumption.
Qed.

Lemma NameSpace_destroy_deletes_every_name_witness :
  exists g',
    NameSpace_destroy
      {| m_type := TEXTURE; m_nextName := 1;
         m_localToGlobalMap := {[ 1 := 1 ]}; m_globalToLocalMap := {[ 1 := 1 ]} |}
      (after_one_gen TEXTURE) = Ret (tt, g') /\
    GlDelete TEXTURE 1 ∈ gl_calls g'.
Proof.
  destruct (NameSpace_destroy_deletes_every_name
              {| m_type := TEXTURE; m_nextName := 1;
                 m_localToGlobalMap := {[ 1 := 1 ]}; m_globalToLocalMap := {[ 1 := 1 ]} |}
              (after_one_gen TEXTURE) eq_refl eq_refl)
    as (g' & E & _ & H).
  exists g'. split; [exact E|]. apply (proj2 (H eq_refl) 1 1). reflexivity.
Defined.

(** ** Generating names in a group *)

Lemma counted_self gn c sg : counter sg gn = Some c -> counted c gn sg = sg.
Proof.
  unfold counter, counted. destruct sg as [v d [map|]]; simpl; [|discriminate].
  intros H. rewrite insert_id by assumption. reflexivity.
Qed.

Lemma typed_counted c gn sg : typed sg -> typed (counted c gn sg).
Proof. intros H i. apply H. Qed.

(** What a returning [genName] of a group has done, for any type of the
    enumeration. *)
Lemma ShareGroup_genName_inv
    (glGen : N -> list GLcall -> N) t i r (aL : bool) sg g l sg1 g1 :
  typed sg ->
  type_index t = Some i ->
  ShareGroup_genName glGen t r aL (sg, g) = Ret (l, (sg1, g1)) ->
  exists ns' gname,
    NameSpace_genName glGen r true aL (m_nameSpace sg !!! i, g) = Ret (l, (ns', g1)) /\
    GlobalNameSpace_genName glGen t g = Ret (gname, g1) /\
    m_localToGlobalMap ns' = <[l := gname]> (m_localToGlobalMap (m_nameSpace sg !!! i)) /\
    m_globalToLocalMap ns' = <[gname := l]> (m_globalToLocalMap (m_nameSpace sg !!! i)) /\
    m_nameSpace sg1 = vinsert i ns' (m_nameSpace sg) /\
    m_objectsData sg1 = m_objectsData sg /\
    sg1 = (if t =? TEXTURE
           then counted (wrap size_t_bits (default 0 (counter sg gname) + 1)) gname
           else fun sg0 => sg0)
            (set_nameSpace (vinsert i ns' (m_nameSpace sg)) sg) /\
    typed sg1 /\
    m_deleteInitialized g1 = true.
Proof.
  intros Hty Hi. unfold ShareGroup_genName.
  rewrite (in_range_leb t (type_index_lt t i Hi)).
  rewrite bind_run, (name_space_run t i) by assumption.
  destruct (NameSpace_genName glGen r true aL (m_nameSpace sg !!! i, g))
    as [[l0 [ns' g']]| |] eqn:E; try discriminate.
  pose proof E as Einv.
  apply NameSpace_genName_inv in Einv as (Htype & _ & gname & Egen & Hl2g & Hg2l).
  rewrite (typed_type sg t i Hty Hi) in Egen.
  assert (Hinit : m_deleteInitialized g' = true).
  { destruct (GlobalNameSpace_genName_returns glGen t g) as (n0 & g0 & E0 & Hinit & _).
    rewrite E0 in Egen. injection Egen as _ <-. apply Hinit, (type_index_lt t i Hi). }
  set (sgm := set_nameSpace (vinsert i ns' (m_nameSpace sg)) sg).
  assert (Htyped : typed sgm) by (apply typed_set_nameSpace; assumption).
  rewrite bind_run. destruct (t =? TEXTURE).
  - assert (Hglobal : m_localToGlobalMap (m_nameSpace sgm !!! i) !! l0 = Some gname).
    { unfold sgm. simpl. rewrite vlookup_insert, Hl2g. apply lookup_insert_eq. }
    rewrite bind_run.
    rewrite (name_space_read t i _ sgm g' gname Hi)
      by (rewrite NameSpace_getGlobalName_run, Hglobal; reflexivity).
    rewrite bind_run.
    change (ShareGroup_incTexRefCounterNoLock gname (sgm, g'))
      with (ShareGroup_incTexRefCounter gname (sgm, g')).
    rewrite incTexRefCounter_run. unfold ret.
    intros [= <- <- <-]. exists ns', gname.
    repeat split; first [assumption | reflexivity | apply typed_counted; assumption].
  - unfold ret. intros [= <- <- <-]. exists ns', gname.
    repeat split; try assumption; reflexivity.
Qed.

(** X9.  After [genName] of a group the three lookups agree on the new
    name: [isObject] holds of the local name returned, [getGlobalName]
    maps it to the global name the allocator gave, and [getLocalName] maps
    that global name back to it; every other local name of the group has
    the global name it had.  Without [genLocal] the name returned is the
    one requested. *)
Theorem genName_then_lookups
    (glGen : N -> list GLcall -> N) (t : N) (i : fin 5) (r : N) (aL : bool)
    sg g l sg1 g1 :
  typed sg ->
  type_index t = Some i ->
  ShareGroup_genName glGen t r aL (sg, g) = Ret (l, (sg1, g1)) ->
  exists gname,
    returned (GlobalNameSpace_genName glGen t g) = Some gname /\
    ShareGroup_isObject t l (sg1, g1) = Ret (true, (sg1, g1)) /\
    ShareGroup_getGlobalName t l (sg1, g1) = Ret (gname, (sg1, g1)) /\
    ShareGroup_getLocalName t gname (sg1, g1) = Ret (l, (sg1, g1)) /\
    (forall t' l', (t', l') <> (t, l) -> global_of sg1 t' l' = global_of sg t' l') /\
    (aL = false -> l = r).
Proof.
  intros Hty Hi E.
  destruct (ShareGroup_genName_inv glGen t i r aL sg g l sg1 g1 Hty Hi E)
    as (ns' & gname & Ens & Egen & Hl2g & Hg2l & Hspaces & _ & _ & _ & _).
  assert (Hslot : m_nameSpace sg1 !!! i = ns')
    by (rewrite Hspaces; apply vlookup_insert).
  exists gname. split; [rewrite Egen; reflexivity|].
  unfold ShareGroup_isObject, ShareGroup_getGlobalName, ShareGroup_getLocalName.
  rewrite (in_range_leb t (type_index_lt t i Hi)).
  split; [|split; [|split; [|split]]].
  - apply (name_space_read t i); [assumption|].
    rewrite NameSpace_isObject_run, Hslot, Hl2g, lookup_insert_eq. reflexivity.
  - apply (name_space_read t i); [assumption|].
    rewrite NameSpace_getGlobalName_run, Hslot, Hl2g, lookup_insert_eq. reflexivity.
  - apply (name_space_read t i); [assumption|].
    rewrite NameSpace_getLocalName_run, Hslot, Hg2l, lookup_insert_eq. reflexivity.
  - intros t' l' Hne. unfold global_of.
    destruct (type_index t') as [j|] eqn:Ej; [|reflexivity].
    rewrite Hspaces. destruct (decide (i = j)) as [<-|Hij].
    + rewrite vlookup_insert, Hl2g. apply lookup_insert_ne.
      pose proof (type_index_inj t t' i Hi Ej). congruence.
    + rewrite vlookup_insert_ne by assumption. reflexivity.
  - intros ->. apply NameSpace_genName_inv in Ens as (_ & [Hl _] & _). exact Hl.
Qed.

Lemma genName_then_lookups_witness :
  exists gname,
    ShareGroup_isObject FRAMEBUFFER 1 (group_with_one_framebuffer, after_one_gen FRAMEBUFFER)
    = Ret (true, (group_with_one_framebuffer, after_one_gen FRAMEBUFFER)) /\
    ShareGroup_getGlobalName FRAMEBUFFER 1
      (group_with_one_framebuffer, after_one_gen FRAMEBUFFER)
    = Ret (gname, (group_with_one_framebuffer, after_one_gen FRAMEBUFFER)) /\
    ShareGroup_getLocalName FRAMEBUFFER gname
      (group_with_one_framebuffer, after_one_gen FRAMEBUFFER)
    = Ret (1, (group_with_one_framebuffer, after_one_gen FRAMEBUFFER)).
Proof.
  destruct (genName_then_lookups counting FRAMEBUFFER 3%fin 0 true
              ShareGroup_new GlobalNameSpace_new 1
              group_with_one_framebuffer (after_one_gen FRAMEBUFFER)
              ShareGroup_new_typed eq_refl eq_refl)
    as (gname & _ & H1 & H2 & H3 & _).
  exists gname. auto.
Defined.

(** X10.  Two names a group generates one after the other for one type
    are different, neither is 0, and the group has both afterwards. *)
Theorem generated_names_are_distinct
    (glGen : N -> list GLcall -> N) (t : N) (i : fin 5) (r r' : N)
    sg g l1 sg1 g1 l2 sg2 g2 :
  typed sg ->
  type_index t = Some i ->
  ShareGroup_genName glGen t r true (sg, g) = Ret (l1, (sg1, g1)) ->
  ShareGroup_genName glGen t r' true (sg1, g1) = Ret (l2, (sg2, g2)) ->
  l1 <> l2 /\ l1 <> 0 /\ l2 <> 0 /\
  is_Some (global_of sg2 t l1) /\ is_Some (global_of sg2 t l2).
Proof.
  intros Hty Hi E1 E2.
  destruct (ShareGroup_genName_inv glGen t i r true sg g l1 sg1 g1 Hty Hi E1)
    as (ns1 & gn1 & Ens1 & _ & Hl2g1 & _ & Hspaces1 & _ & _ & Hty1 & _).
  destruct (ShareGroup_genName_inv glGen t i r' true sg1 g1 l2 sg2 g2 Hty1 Hi E2)
    as (ns2 & gn2 & Ens2 & _ & Hl2g2 & _ & Hspaces2 & _).
  apply NameSpace_genName_inv in Ens1 as (_ & [Hfree1 _] & _).
  apply NameSpace_genName_inv in Ens2 as (_ & [Hfree2 _] & _).
  apply taken_false in Hfree1 as [Hnz1 _].
  apply taken_false in Hfree2 as [Hnz2 Hnew2].
  rewrite Hspaces1, vlookup_insert, Hl2g1 in Hnew2.
  assert (Hne : l1 <> l2).
  { intros <-. rewrite lookup_insert_eq in Hnew2. discriminate. }
  repeat split; try assumption; unfold global_of; rewrite Hi, Hspaces2, vlookup_insert, Hl2g2.
  - rewrite lookup_insert_ne by congruence.
    rewrite Hspaces1, vlookup_insert, Hl2g1, lookup_insert_eq. eauto.
  - rewrite lookup_insert_eq. eauto.
Qed.

Lemma generated_names_are_distinct_witness :
  exists l2 sg2 g2,
    ShareGroup_genName counting TEXTURE 0 true
      (group_with_one_texture, after_one_gen TEXTURE) = Ret (l2, (sg2, g2)) /\
    1 <> l2 /\ l2 <> 0.
Proof.
  destruct (ShareGroup_genName_returns counting TEXTURE 1%fin 0 true
              group_with_one_texture (after_one_gen TEXTURE) eq_refl)
    as (l2 & sg2 & g2 & E2).
  - intros _. vm_compute. discriminate.
  - exists l2, sg2, g2. split; [exact E2|].
    destruct (generated_names_are_distinct counting TEXTURE 1%fin 0 0
                ShareGroup_new GlobalNameSpace_new 1
                group_with_one_texture (after_one_gen TEXTURE) l2 sg2 g2
                ShareGroup_new_typed eq_refl eq_refl E2)
      as (H1 & _ & H3 & _).
    auto.
Defined.

(** X11.  [genGlobalName] of a group is the [genName] of the global name
    space and nothing more: it returns its name and leaves the name tables,
    the object data and the texture counters of the group as they were (a
    texture name made this way gets no counter). *)
Theorem genGlobalName_leaves_group
    (glGen : N -> list GLcall -> N) (t : N) sg g :
  typed sg ->
  exists name g',
    GlobalNameSpace_genName glGen t g = Ret (name, g') /\
    ShareGroup_genGlobalName glGen t (sg, g) = Ret (name, (sg, g')).
Proof.
  intros Hty.
  destruct (GlobalNameSpace_genName_returns glGen t g) as (name & g' & E & _).
  exists name, g'. split; [exact E|].
  unfold ShareGroup_genGlobalName.
  destruct (N.leb_spec NUM_OBJECT_TYPES t) as [Hout|Hin].
  - unfold GlobalNameSpace_genName in E. rewrite (out_of_range_leb t Hout) in E.
    injection E as <- <-. reflexivity.
  - destruct (type_index_in_range t Hin) as (i & Hi & _).
    rewrite (name_space_run t i) by assumption.
    unfold NameSpace_genGlobalName. run.
    rewrite (typed_type sg t i Hty Hi), E. simpl.
    rewrite vlookup_insert_self. destruct sg. reflexivity.
Qed.

Lemma genGlobalName_leaves_group_witness :
  exists name g',
    GlobalNameSpace_genName counting TEXTURE GlobalNameSpace_new = Ret (name, g') /\
    ShareGroup_genGlobalName counting TEXTURE (ShareGroup_new, GlobalNameSpace_new)
    = Ret (name, (ShareGroup_new, g')).
Proof.
  exact (genGlobalName_leaves_group counting TEXTURE ShareGroup_new GlobalNameSpace_new
           ShareGroup_new_typed).
Defined.

(** ** Texture counters and the names of textures *)

(** X12.  On a global name that is counted, below the range of the
    counter, an acquire followed by a release is the identity: the release
    returns the count there was, the group and the global name space are as
    before, and the driver is not called. *)
Theorem acquire_then_release_restores (gn c : N) sg g :
  counter sg gn = Some c ->
  1 <= c ->
  c + 1 < 2 ^ 64 ->
  (ShareGroup_incTexRefCounter gn ;;;
   ShareGroup_decTexRefCounterAndReleaseIf0 gn) (sg, g) = Ret (c, (sg, g)).
Proof.
  intros Hc Hpos Hmax. rewrite bind_run, incTexRefCounter_run, Hc. simpl default.
  rewrite wrap_small by (unfold size_t_bits; lia).
  rewrite decTexRefCounter_run_more by assumption.
  rewrite counted_self by assumption. reflexivity.
Qed.

Lemma acquire_then_release_restores_witness :
  (ShareGroup_incTexRefCounter 3 ;;;
   ShareGroup_decTexRefCounterAndReleaseIf0 3)
    (counted 1 3 ShareGroup_new, GlobalNameSpace_new)
  = Ret (1, (counted 1 3 ShareGroup_new, GlobalNameSpace_new)).
Proof.
  exact (acquire_then_release_restores 3 1 (counted 1 3 ShareGroup_new)
           GlobalNameSpace_new eq_refl ltac:(discriminate) eq_refl).
Defined.

(** [ShareGroup::deleteName], run. *)
Lemma ShareGroup_deleteName_run t i l sg g :
  typed sg ->
  type_index t = Some i ->
  (forall gn, m_localToGlobalMap (m_nameSpace sg !!! i) !! l = Some gn ->
     deleted_with_name t = true -> m_deleteInitialized g = true) ->
  ShareGroup_deleteName t l (sg, g) =
    Ret (tt,
         ((match m_objectsData sg with
           | Some map => set_objectsData (Some (delete (TypedObjectName t l) map))
           | None => fun sg0 => sg0
           end)
            (set_nameSpace
               (vinsert i
                  (match m_localToGlobalMap (m_nameSpace sg !!! i) !! l with
                   | Some gn =>
                       set_maps (delete l (m_localToGlobalMap (m_nameSpace sg !!! i)))
                                (delete gn (m_globalToLocalMap (m_nameSpace sg !!! i)))
                                (m_nameSpace sg !!! i)
                   | None => m_nameSpace sg !!! i
                   end) (m_nameSpace sg)) sg),
          match m_localToGlobalMap (m_nameSpace sg !!! i) !! l with
          | Some gn => if deleted_with_name t then log_call (GlDelete t gn) g else g
          | None => g
          end)).
Proof.
  intros Hty Hi Hinit. pose proof (typed_type sg t i Hty Hi) as Htype.
  unfold ShareGroup_deleteName. rewrite (in_range_leb t (type_index_lt t i Hi)).
  rewrite bind_run, (name_space_run t i) by assumption.
  rewrite NameSpace_deleteName_run
    by (rewrite Htype; first [apply (type_index_lt t i Hi) | assumption]).
  rewrite Htype.
  destruct (m_localToGlobalMap (m_nameSpace sg !!! i) !! l) as [gn|]; run;
    destruct (m_objectsData sg); reflexivity.
Qed.

(** X13.  The driver's texture outlives the name of the texture.  After a
    texture name was generated with a global name that had no counter,
    [deleteName] of the name returns without a call of the driver; the name
    is gone from the table, the counter of the global name is still 1, and
    the release of the global name that follows is the last one: it returns
    0, erases the counter and has the driver delete the texture. *)
Theorem texture_outlives_its_name
    (glGen : N -> list GLcall -> N) (r : N) (aL : bool) sg g l sg1 g1 (gn : N) :
  typed sg ->
  ShareGroup_genName glGen TEXTURE r aL (sg, g) = Ret (l, (sg1, g1)) ->
  global_of sg1 TEXTURE l = Some gn ->
  counter sg gn = None ->
  exists sg2,
    ShareGroup_deleteName TEXTURE l (sg1, g1) = Ret (tt, (sg2, g1)) /\
    global_of sg2 TEXTURE l = None /\
    counter sg2 gn = Some 1 /\
    ShareGroup_decTexRefCounterAndReleaseIf0 gn (sg2, g1)
    = Ret (0, (uncounted gn sg2, log_call (GlDelete TEXTURE gn) g1)).
Proof.
  intros Hty E Hgn Hfirst.
  destruct (ShareGroup_genName_inv glGen TEXTURE 1%fin r aL sg g l sg1 g1 Hty eq_refl E)
    as (ns' & gname & _ & _ & Hl2g & _ & Hspaces & _ & Hsg1 & Hty1 & Hinit).
  change (TEXTURE =? TEXTURE) with true in Hsg1. cbv iota in Hsg1.
  assert (Hlk : m_localToGlobalMap (m_nameSpace sg1 !!! 1%fin) !! l = Some gname)
    by (rewrite Hspaces, vlookup_insert, Hl2g; apply lookup_insert_eq).
  assert (gname = gn) as ->.
  { unfold global_of in Hgn. simpl in Hgn. congruence. }
  assert (Hcount : counter sg1 gn = Some 1).
  { rewrite Hsg1, Hfirst. apply counter_counted. }
  rewrite (ShareGroup_deleteName_run TEXTURE 1%fin) by (auto || discriminate).
  rewrite Hlk. change (deleted_with_name TEXTURE) with false. cbv iota.
  match goal with |- context [Ret (tt, (?s, g1))] => set (sg2 := s) end.
  assert (Hc2 : counter sg2 gn = Some 1).
  { rewrite <- Hcount. unfold sg2. destruct (m_objectsData sg1); reflexivity. }
  exists sg2. split; [reflexivity|]. split; [|split; [exact Hc2|]].
  - unfold sg2, global_of.
    destruct (m_objectsData sg1); simpl; rewrite vlookup_insert; apply lookup_delete_eq.
  - pose proof (decTexRefCounter_run_last gn sg2 g1 Hinit) as Hlast.
    rewrite (counted_self gn 1 sg2 Hc2) in Hlast. exact Hlast.
Qed.

Lemma texture_outlives_its_name_witness :
  exists sg2,
    ShareGroup_deleteName TEXTURE 1 (group_with_one_texture, after_one_gen TEXTURE)
    = Ret (tt, (sg2, after_one_gen TEXTURE)) /\
    global_of sg2 TEXTURE 1 = None /\
    counter sg2 1 = Some 1 /\
    ShareGroup_decTexRefCounterAndReleaseIf0 1 (sg2, after_one_gen TEXTURE)
    = Ret (0, (uncounted 1 sg2, log_call (GlDelete TEXTURE 1) (after_one_gen TEXTURE))).
Proof.
  exact (texture_outlives_its_name counting 0 true
           ShareGroup_new GlobalNameSpace_new 1
           group_with_one_texture (after_one_gen TEXTURE) 1
           ShareGroup_new_typed eq_refl eq_refl eq_refl).
Defined.

(** ** Binding a local name to another global name *)

(** [NameSpace::replaceGlobalName], run. *)
Lemma NameSpace_replaceGlobalName_run l gn ns g :
  m_type ns < NUM_OBJECT_TYPES ->
  (forall g0, m_localToGlobalMap ns !! l = Some g0 ->
     deleted_with_name (m_type ns) = true -> m_deleteInitialized g = true) ->
  NameSpace_replaceGlobalName l gn (ns, g) =
    Ret (tt,
         match m_localToGlobalMap ns !! l with
         | Some g0 =>
             (set_maps (<[l := gn]> (m_localToGlobalMap ns))
                       (emplace gn l (delete g0 (m_globalToLocalMap ns))) ns,
              if deleted_with_name (m_type ns)
              then log_call (GlDelete (m_type ns) g0) g else g)
         | None => (ns, g)
         end).
Proof.
  unfold NUM_OBJECT_TYPES. intros Ht Hinit.
  unfold NameSpace_replaceGlobalName. run.
  destruct (m_localToGlobalMap ns !! l) as [g0|]; [|reflexivity].
  specialize (Hinit g0 eq_refl). revert Hinit.
  assert (m_type ns = 0 \/ m_type ns = 1 \/ m_type ns = 2 \/ m_type ns = 3 \/
          m_type ns = 4) as Hcases by lia.
  unfold GlobalNameSpace_deleteName.
  destruct Hcases as [->|[->|[->|[->| ->]]]]; run; intros Hinit;
    try rewrite (Hinit eq_refl); run; reflexivity.
Qed.

(** X14.  [replaceGlobalName] of a group on a local name the table does
    not have changes nothing.  On a local name the table has, with global
    name [g0], it returns with the local name bound to the new global name
    and every other local name as before; the entry that led from [g0] back
    is removed, and the new global name leads back to the local name unless
    it already led to another, which it keeps; the driver is called once, to
    delete [g0], for vertex buffers, renderbuffers and framebuffers, and not
    for textures and shaders; object data and texture counters stay. *)
Theorem replaceGlobalName_effect (t l gn : N) sg g :
  typed sg ->
  t < NUM_OBJECT_TYPES ->
  (forall g0, global_of sg t l = Some g0 -> deleted_with_name t = true ->
     m_deleteInitialized g = true) ->
  exists sg' g',
    ShareGroup_replaceGlobalName t l gn (sg, g) = Ret (tt, (sg', g')) /\
    m_objectsData sg' = m_objectsData sg /\
    m_globalTextureRefCounter sg' = m_globalTextureRefCounter sg /\
    match global_of sg t l with
    | Some g0 =>
        global_of sg' t l = Some gn /\
        (forall t' l', (t', l') <> (t, l) -> global_of sg' t' l' = global_of sg t' l') /\
        local_of sg' t gn
        = Some (if decide (gn = g0) then l else default l (local_of sg t gn)) /\
        (g0 <> gn -> local_of sg' t g0 = None) /\
        (forall t' g1, (t', g1) <> (t, gn) -> (t', g1) <> (t, g0) ->
           local_of sg' t' g1 = local_of sg t' g1) /\
        g' = (if deleted_with_name t then log_call (GlDelete t g0) g else g)
    | None => sg' = sg /\ g' = g
    end.
Proof.
  intros Hty Ht Hinit.
  destruct (type_index_in_range t Ht) as (i & Hi & _).
  pose proof (typed_type sg t i Hty Hi) as Htype.
  unfold global_of, local_of in *. rewrite Hi in *.
  unfold ShareGroup_replaceGlobalName. rewrite (in_range_leb t Ht).
  rewrite (name_space_run t i) by assumption.
  rewrite NameSpace_replaceGlobalName_run by (rewrite Htype; assumption).
  rewrite Htype. set (ns := m_nameSpace sg !!! i) in *.
  destruct (m_localToGlobalMap ns !! l) as [g0|] eqn:El.
  - eexists _, _. split; [reflexivity|]. simpl.
    split; [reflexivity|]. split; [reflexivity|].
    rewrite vlookup_insert. simpl.
    split; [apply lookup_insert_eq|]. split; [|split; [|split; [|split]]].
    + intros t' l' Hne.
      destruct (type_index t') as [j|] eqn:Ej; [|reflexivity].
      destruct (decide (i = j)) as [<-|Hij].
      * rewrite vlookup_insert. simpl. apply lookup_insert_ne.
        pose proof (type_index_inj t t' i Hi Ej). congruence.
      * rewrite vlookup_insert_ne by assumption. reflexivity.
    + rewrite emplace_lookup, lookup_delete.
      destruct (decide (gn = g0)) as [->|Hne].
      * rewrite decide_True by reflexivity. reflexivity.
      * rewrite decide_False by congruence. reflexivity.
    + intros Hne. rewrite emplace_lookup_ne by congruence. apply lookup_delete_eq.
    + intros t' g1 Hne1 Hne0.
      destruct (type_index t') as [j|] eqn:Ej; [|reflexivity].
      destruct (decide (i = j)) as [<-|Hij].
      * pose proof (type_index_inj t t' i Hi Ej) as <-.
        rewrite vlookup_insert. simpl.
        rewrite emplace_lookup_ne by congruence. apply lookup_delete_ne. congruence.
      * rewrite vlookup_insert_ne by assumption. reflexivity.
    + reflexivity.
  - exists sg, g. unfold ns. rewrite set_nameSpace_self. auto.
Qed.

Lemma replaceGlobalName_effect_witness :
  exists sg' g',
    ShareGroup_replaceGlobalName FRAMEBUFFER 1 9
      (group_with_one_framebuffer, after_one_gen FRAMEBUFFER) = Ret (tt, (sg', g')) /\
    global_of sg' FRAMEBUFFER 1 = Some 9 /\
    local_of sg' FRAMEBUFFER 9 = Some 1 /\
    local_of sg' FRAMEBUFFER 1 = None /\
    g' = log_call (GlDelete FRAMEBUFFER 1) (after_one_gen FRAMEBUFFER).
Proof.
  destruct (replaceGlobalName_effect FRAMEBUFFER 1 9
              group_with_one_framebuffer (after_one_gen FRAMEBUFFER))
    as (sg' & g' & E & _ & _ & H).
  - apply typed_set_nameSpace; [apply ShareGroup_new_typed | reflexivity].
  - reflexivity.
  - intros; reflexivity.
  - exists sg', g'. split; [exact E|]. destruct H as (H1 & _ & H2 & H3 & _ & H4).
    split; [exact H1|]. split; [exact H2|]. split; [apply H3; discriminate | exact H4].
Defined.

(** ** Object data of a key *)

(** X15.  [setObjectData] of a type of the enumeration returns and changes
    the entry of its key only: the key has an entry afterwards, the data
    given if it had none and the data it had otherwise; the entries of the
    other keys (another local name, or the same local name with another
    type), the name tables, the texture counters and the global name space
    stay as they were. *)
Theorem setObjectData_effect (t l : N) (d : option N) sg g :
  t < NUM_OBJECT_TYPES ->
  exists sg',
    ShareGroup_setObjectData t l d (sg, g) = Ret (tt, (sg', g)) /\
    stored sg' t l = Some (default d (stored sg t l)) /\
    (forall t' l', (t', l') <> (t, l) -> stored sg' t' l' = stored sg t' l') /\
    m_nameSpace sg' = m_nameSpace sg /\
    m_globalTextureRefCounter sg' = m_globalTextureRefCounter sg.
Proof.
  intros Ht%in_range_leb. unfold ShareGroup_setObjectData. rewrite Ht. run.
  eexists. split; [reflexivity|]. unfold stored. simpl.
  split; [|split; [|auto]].
  - rewrite emplace_lookup. destruct (m_objectsData sg); [reflexivity|].
    rewrite lookup_empty. reflexivity.
  - intros t' l' Hne. rewrite emplace_lookup_ne by (unfold TypedObjectName; congruence).
    destruct (m_objectsData sg); [reflexivity | apply lookup_empty].
Qed.

Lemma setObjectData_effect_witness :
  exists sg',
    ShareGroup_setObjectData TEXTURE 1 (Some 10) (ShareGroup_new, GlobalNameSpace_new)
    = Ret (tt, (sg', GlobalNameSpace_new)) /\
    stored sg' TEXTURE 1 = Some (Some 10) /\
    stored sg' VERTEXBUFFER 1 = None.
Proof.
  destruct (setObjectData_effect TEXTURE 1 (Some 10) ShareGroup_new GlobalNameSpace_new
              eq_refl) as (sg' & E & H1 & H2 & _).
  exists sg'. split; [exact E|]. split; [exact H1|].
  rewrite H2 by discriminate. reflexivity.
Defined.

Lemma sound_deleters sg g t i l gn :
  sound sg g ->
  m_localToGlobalMap (m_nameSpace sg !!! i) !! l = Some gn ->
  deleted_with_name t = true ->
  m_deleteInitialized g = true.
Proof.
  intros [_ [Hinit|Hempty]] Hl _; [assumption|].
  rewrite Hempty, lookup_empty in Hl. discriminate.
Qed.

(** X16.  Data that was set is replaced by deleting the name in between:
    in a group that can be destroyed, [setObjectData], [deleteName],
    [setObjectData] and [getObjectData] on one key return, and the data
    read is the data set last. *)
Theorem deleteName_lets_data_be_set_again (t l : N) (d1 d2 : option N) sg g :
  sound sg g ->
  t < NUM_OBJECT_TYPES ->
  exists s',
    (ShareGroup_setObjectData t l d1 ;;;
     ShareGroup_deleteName t l ;;;
     ShareGroup_setObjectData t l d2 ;;;
     ShareGroup_getObjectData t l) (sg, g) = Ret (d2, s').
Proof.
  intros Hsound Ht. destruct (type_index_in_range t Ht) as (i & Hi & _).
  rewrite bind_run.
  assert (Hset : exists sg1,
    ShareGroup_setObjectData t l d1 (sg, g) = Ret (tt, (sg1, g)) /\
    m_nameSpace sg1 = m_nameSpace sg /\ is_Some (m_objectsData sg1)).
  { unfold ShareGroup_setObjectData. rewrite (in_range_leb t Ht). run.
    eexists. split; [reflexivity|]. simpl. eauto. }
  destruct Hset as (sg1 & -> & Hspaces & [map Hmap]).
  assert (Hsound1 : sound sg1 g).
  { destruct Hsound as [Hty Hok]. split.
    - intros j. rewrite Hspaces. apply Hty.
    - destruct Hok as [|He]; [auto|]. right. intros j. rewrite Hspaces. apply He. }
  rewrite bind_run, (ShareGroup_deleteName_run t i)
    by (first [apply Hsound1 | assumption
              | intros gn Hl Hd; exact (sound_deleters sg1 g t i l gn Hsound1 Hl Hd)]).
  rewrite Hmap. rewrite bind_run.
  match goal with
  | |- context [ShareGroup_setObjectData t l d2 (?sg2, ?g2)] =>
      destruct (setObjectData_absent t l d2 sg2 g2 Ht) as (sg3 & -> & _ & ->);
        [unfold stored; simpl; apply lookup_delete_eq | eauto]
  end.
Qed.

Lemma deleteName_lets_data_be_set_again_witness :
  exists s',
    (ShareGroup_setObjectData TEXTURE 1 (Some 10) ;;;
     ShareGroup_deleteName TEXTURE 1 ;;;
     ShareGroup_setObjectData TEXTURE 1 (Some 20) ;;;
     ShareGroup_getObjectData TEXTURE 1) (ShareGroup_new, GlobalNameSpace_new)
    = Ret (Some 20, s').
Proof.
  apply (deleteName_lets_data_be_set_again TEXTURE 1 (Some 10) (Some 20)
           ShareGroup_new GlobalNameSpace_new).
  - split; [apply ShareGroup_new_typed | right; apply ShareGroup_new_empty].
  - reflexivity.
Defined.

(** ** What every group keeps *)

Lemma group_step_keeps_sound (glGen : N -> list GLcall -> N) c :
  keeps_sound (group_step glGen c).
Proof.
  destruct c; simpl;
    repeat first
      [ apply genName_keeps_sound | apply genGlobalName_keeps_sound
      | apply deleteName_keeps_sound | apply replaceGlobalName_keeps_sound
      | apply setObjectData_keeps_sound | apply incTexRefCounter_keeps_sound
      | apply decTexRefCounter_keeps_sound
      | apply keeps_sound_ret
      | apply keeps_sound_bind; [|intros ?] ].
  - unfold ShareGroup_getGlobalName. destruct (NUM_OBJECT_TYPES <=? t);
      [apply keeps_sound_ret|]. apply keeps_sound_name_space, reads_keep_sound_ns.
    intros. eexists. apply NameSpace_getGlobalName_run.
  - unfold ShareGroup_getLocalName. destruct (NUM_OBJECT_TYPES <=? t);
      [apply keeps_sound_ret|]. apply keeps_sound_name_space, reads_keep_sound_ns.
    intros. eexists. apply NameSpace_getLocalName_run.
  - unfold ShareGroup_isObject. destruct (NUM_OBJECT_TYPES <=? t);
      [apply keeps_sound_ret|]. apply keeps_sound_name_space, reads_keep_sound_ns.
    intros. eexists. apply NameSpace_isObject_run.
  - unfold ShareGroup_getObjectData. destruct (NUM_OBJECT_TYPES <=? t);
      [apply keeps_sound_ret|].
    apply keeps_sound_bind; [apply keeps_sound_this_sg|]. intros [map|];
      [|apply keeps_sound_ret].
    destruct (map !! TypedObjectName t l); apply keeps_sound_ret.
Qed.

(** X17.  Whatever calls of its public methods a group has gone through
    since its constructor, its name spaces carry the types of their slots,
    and the deleters of the global name space are bound unless all its name
    tables are empty: a name in a table was made by a [genName], and that
    bound the deleters. *)
Theorem reachable_groups_are_sound
    (glGen : N -> list GLcall -> N) (s : ShareGroup * GlobalNameSpace) :
  group_reaches glGen s -> sound s.1 s.2.
Proof.
  induction 1 as [g|[sg g] c [sg' g'] _ IH Hstep].
  - split; [apply ShareGroup_new_typed | right; apply ShareGroup_new_empty].
  - exact (proj1 (group_step_keeps_sound glGen c sg g tt sg' g' IH Hstep)).
Qed.

Lemma reachable_groups_are_sound_witness :
  sound group_with_one_framebuffer (after_one_gen FRAMEBUFFER).
Proof.
  apply (reachable_groups_are_sound counting
           (group_with_one_framebuffer, after_one_gen FRAMEBUFFER)).
  apply (group_goes_on counting (ShareGroup_new, GlobalNameSpace_new)
           (GenName FRAMEBUFFER 0 true)).
  - apply group_starts.
  - reflexivity.
Defined.

(** X18.  In a group that can be destroyed, [deleteName] and
    [replaceGlobalName] return for every type and name: they never call
    through an unbound deleter. *)
Theorem sound_groups_delete_without_fault (t l gn : N) sg g :
  sound sg g ->
  (exists s', ShareGroup_deleteName t l (sg, g) = Ret (tt, s')) /\
  (exists s', ShareGroup_replaceGlobalName t l gn (sg, g) = Ret (tt, s')).
Proof.
  intros Hsound. pose proof Hsound as [Hty _].
  unfold ShareGroup_replaceGlobalName.
  destruct (N.leb_spec NUM_OBJECT_TYPES t) as [Hout|Hin].
  - unfold ShareGroup_deleteName. rewrite (out_of_range_leb t Hout).
    split; eexists; reflexivity.
  - destruct (type_index_in_range t Hin) as (i & Hi & _). split.
    + rewrite (ShareGroup_deleteName_run t i)
        by (first [assumption
                  | intros g0 Hl Hd; exact (sound_deleters sg g t i l g0 Hsound Hl Hd)]).
      eexists. reflexivity.
    + rewrite (name_space_run t i) by assumption.
      rewrite NameSpace_replaceGlobalName_run.
      * destruct (m_localToGlobalMap (m_nameSpace sg !!! i) !! l); eexists; reflexivity.
      * rewrite (typed_type sg t i Hty Hi). assumption.
      * intros g0 Hl Hd. rewrite (typed_type sg t i Hty Hi) in Hd.
        exact (sound_deleters sg g t i l g0 Hsound Hl Hd).
Qed.

Lemma sound_groups_delete_without_fault_witness :
  (exists s', ShareGroup_deleteName FRAMEBUFFER 1
                (group_with_one_framebuffer, after_one_gen FRAMEBUFFER) = Ret (tt, s')) /\
  (exists s', ShareGroup_replaceGlobalName FRAMEBUFFER 1 9
                (group_with_one_framebuffer, after_one_gen FRAMEBUFFER) = Ret (tt, s')).
Proof.
  apply (sound_groups_delete_without_fault FRAMEBUFFER 1 9
           group_with_one_framebuffer (after_one_gen FRAMEBUFFER)).
  split.
  - apply typed_set_nameSpace; [apply ShareGroup_new_typed | reflexivity].
  - left. reflexivity.
Defined.

(** ** The registry under any calls *)

Lemma owned_true p w :
  owned p w = true <-> (exists k, m_groups w !! k = Some p) \/ p ∈ held w.
Proof.
  unfold owned. rewrite bool_decide_eq_true. split; intros [H|H]; auto; left.
  - apply list_elem_of_fmap in H as ([k q] & -> & H). exists k.
    apply elem_of_map_to_list. assumption.
  - destruct H as [k H]. apply list_elem_of_fmap. exists (k, p).
    split; [reflexivity|]. apply elem_of_map_to_list. assumption.
Qed.

Lemma remove_one_subset p q l : q ∈ remove_one p l -> q ∈ l.
Proof.
  induction l as [|x l IH]; simpl; [auto|].
  destruct (bool_decide_reflect (p = x)) as [_|_]; [right; assumption|].
  intros [->|H]%elem_of_cons; [left | right; auto].
Qed.

Lemma remove_one_other p q l : q <> p -> q ∈ l -> q ∈ remove_one p l.
Proof.
  intros Hne. induction l as [|x l IH]; simpl; [auto|].
  intros [->|H]%elem_of_cons.
  - destruct (bool_decide_reflect (p = x)) as [E|_]; [congruence | left].
  - destruct (bool_decide_reflect (p = x)) as [_|_]; [assumption | right; auto].
Qed.

(** The end of a pointer destroys the group it was the last owner of, and
    no other. *)
Lemma lives_release p w w' :
  (forall q, q <> p -> (is_Some (heap w !! q) <-> owned q w = true)) ->
  (owned p w = true -> is_Some (heap w !! p)) ->
  release p w = Ret (tt, w') ->
  lives_while_owned w'.
Proof.
  intros Hothers Hp. unfold release. run.
  destruct (owned p w) eqn:Eown.
  - intros [= <-]. intros q. destruct (decide (q = p)) as [->|Hne]; [|auto].
    rewrite Eown. split; auto.
  - destruct (heap w !! p) as [sg|] eqn:Ep.
    + run.
      destruct (ShareGroup_destroy sg (m_globalNameSpace w)) as [[[] g1]| |];
        try (intros [=]; fail).
      intros [= <-]. intros q.
      change (is_Some (delete p (heap w) !! q) <-> owned q w = true).
      destruct (decide (q = p)) as [->|Hne].
      * rewrite lookup_delete_eq, Eown. split; [intros [? [=]] | discriminate].
      * rewrite lookup_delete_ne by congruence. auto.
    + intros [= <-]. intros q. destruct (decide (q = p)) as [->|Hne]; [|auto].
      rewrite Ep, Eown. split; [intros [? [=]] | discriminate].
Qed.

Lemma lives_hand_out key p w :
  m_groups w !! key = Some p ->
  lives_while_owned w ->
  lives_while_owned (set_held (p :: held w) w).
Proof.
  intros Hkey Hlive q. rewrite owned_true. simpl.
  rewrite (Hlive q), owned_true. split.
  - intros [H|H]; [left | right; right]; assumption.
  - intros [H|[->|H]%elem_of_cons]; [left | left; eauto | right]; assumption.
Qed.

Lemma lives_createShareGroup key w ptr w' :
  lives_while_owned w ->
  ObjectNameManager_createShareGroup key w = Ret (ptr, w') ->
  lives_while_owned w'.
Proof.
  intros Hlive. unfold ObjectNameManager_createShareGroup, hand_out. run.
  destruct (m_groups w !! key) as [p|] eqn:E; intros [= <- <-].
  - apply (lives_hand_out key); assumption.
  - intros q. rewrite owned_true. simpl. rewrite (emplace_absent _ _ _ E).
    set (p := fresh (dom (heap w))).
    destruct (decide (q = p)) as [->|Hne].
    + rewrite lookup_insert_eq. split; [right; left | eauto].
    + rewrite lookup_insert_ne by congruence. rewrite (Hlive q), owned_true. split.
      * intros [[k H]|H]; [left; exists k | right; right; assumption].
        rewrite lookup_insert_ne; [assumption | congruence].
      * intros [[k H]|[->|H]%elem_of_cons]; [left; exists k | congruence | right; assumption].
        rewrite lookup_insert in H. case_decide; [congruence | assumption].
Qed.

Lemma lives_getShareGroup key w ptr w' :
  lives_while_owned w ->
  ObjectNameManager_getShareGroup key w = Ret (ptr, w') ->
  lives_while_owned w'.
Proof.
  intros Hlive. unfold ObjectNameManager_getShareGroup, hand_out. run.
  destruct (m_groups w !! key) as [p|] eqn:E; intros [= <- <-]; [|assumption].
  apply (lives_hand_out key); assumption.
Qed.

Lemma lives_attachShareGroup key existing w ptr w' :
  lives_while_owned w ->
  ObjectNameManager_attachShareGroup key existing w = Ret (ptr, w') ->
  lives_while_owned w'.
Proof.
  intros Hlive. unfold ObjectNameManager_attachShareGroup, hand_out. run.
  destruct (m_groups w !! existing) as [p|] eqn:E; [|intros [= <- <-]; assumption].
  destruct (m_groups w !! key) as [q0|] eqn:Ek; simpl; intros [= <- <-].
  - apply (lives_hand_out existing); assumption.
  - intros q. rewrite owned_true. simpl. rewrite (emplace_absent _ _ _ Ek).
    rewrite (Hlive q), owned_true. split.
    + intros [[k H]|H]; [left; exists k | right; right; assumption].
      rewrite lookup_insert_ne; [assumption | congruence].
    + intros [[k H]|[->|H]%elem_of_cons]; [|left; eauto | right; assumption].
      rewrite lookup_insert in H. case_decide; [|left; eauto].
      injection H as <-. left. eauto.
Qed.

Lemma lives_deleteShareGroup key w w' :
  lives_while_owned w ->
  ObjectNameManager_deleteShareGroup key w = Ret (tt, w') ->
  lives_while_owned w'.
Proof.
  intros Hlive. unfold ObjectNameManager_deleteShareGroup.
  rewrite bind_run. unfold gets.
  destruct (m_groups w !! key) as [p|] eqn:E; [|intros [= <-]; assumption].
  rewrite bind_run. unfold modify. apply lives_release.
  - intros q Hne. change (is_Some (heap w !! q) <->
                         owned q (set_groups (delete key (m_groups w)) w) = true).
    rewrite (Hlive q), !owned_true. simpl. split.
    + intros [[k H]|H]; [left; exists k | right; assumption].
      apply lookup_delete_Some. split; [congruence | assumption].
    + intros [[k [_ H]%lookup_delete_Some]|H]; [left; eauto | right; assumption].
  - intros Hown. apply Hlive. apply owned_true. apply owned_true in Hown. simpl in Hown.
    destruct Hown as [[k [_ H]%lookup_delete_Some]|H]; [left; eauto | right; assumption].
Qed.

Lemma lives_drop p w w' :
  lives_while_owned w -> ShareGroupPtr_drop p w = Ret (tt, w') -> lives_while_owned w'.
Proof.
  intros Hlive. unfold ShareGroupPtr_drop. rewrite bind_run. unfold gets.
  destruct (bool_decide (p ∈ held w)); [|intros [= <-]; assumption].
  rewrite bind_run. unfold modify. apply lives_release.
  - intros q Hne. change (is_Some (heap w !! q) <->
                         owned q (set_held (remove_one p (held w)) w) = true).
    rewrite (Hlive q), !owned_true. simpl. split.
    + intros [H|H]; [left; assumption | right; apply remove_one_other; assumption].
    + intros [H|H]; [left; assumption | right; apply (remove_one_subset p); assumption].
  - intros Hown. apply Hlive. apply owned_true. apply owned_true in Hown. simpl in Hown.
    destruct Hown as [H|H]; [left; assumption | right; apply (remove_one_subset p); assumption].
Qed.

Lemma lives_through {A} p (m : M (ShareGroup * GlobalNameSpace) A) w a w' :
  lives_while_owned w -> through (Some p) m w = Ret (a, w') -> lives_while_owned w'.
Proof.
  intros Hlive. unfold through.
  destruct (heap w !! p) as [sg|] eqn:Ep; [|intros [=]]. run.
  destruct (m (sg, m_globalNameSpace w)) as [[a0 [sg1 g1]]| |]; try (intros [=]; fail).
  intros [= <- <-] q.
  change (is_Some (<[p := sg1]> (heap w) !! q) <-> owned q w = true).
  rewrite <- (Hlive q). rewrite lookup_insert. case_decide; [|reflexivity].
  subst q. rewrite Ep. split; eauto.
Qed.

Lemma registry_reaches_inv (glGen : N -> list GLcall -> N) w :
  registry_reaches glGen w -> destructible w /\ lives_while_owned w.
Proof.
  induction 1 as [g|w c w' _ [Hsafe Hlive] Hstep].
  - split; [apply destructible_new|]. intros p. simpl. rewrite lookup_empty.
    split; [intros [? [=]]|]. intros [[k H]|H]%owned_true; simpl in *.
    + rewrite lookup_empty in H. discriminate.
    + inversion H.
  - destruct c; simpl in Hstep.
    + rewrite bind_run in Hstep.
      destruct (ObjectNameManager_createShareGroup key w) as [[ptr w1]| |] eqn:E;
        try discriminate.
      injection Hstep as <-.
      eauto using destructible_createShareGroup, lives_createShareGroup.
    + rewrite bind_run in Hstep.
      destruct (ObjectNameManager_getShareGroup key w) as [[ptr w1]| |] eqn:E;
        try discriminate.
      injection Hstep as <-.
      eauto using destructible_getShareGroup, lives_getShareGroup.
    + rewrite bind_run in Hstep.
      destruct (ObjectNameManager_attachShareGroup key existing w) as [[ptr w1]| |] eqn:E;
        try discriminate.
      injection Hstep as <-.
      eauto using destructible_attachShareGroup, lives_attachShareGroup.
    + eauto using destructible_deleteShareGroup, lives_deleteShareGroup.
    + injection Hstep as <-. auto.
    + eauto using destructible_drop, lives_drop.
    + split.
      * apply (destructible_through p (group_step glGen c) w tt w');
          [apply group_step_keeps_sound | assumption | assumption].
      * apply (lives_through p (group_step glGen c) w tt w'); assumption.
Qed.

(** X19.  Whatever calls the manager and its groups have gone through since
    the constructor, a group lives exactly as long as a shared pointer owns
    it: every key of the registry and every copy a caller holds leads to a
    group that lives, and no group lives that no key and no copy leads to. *)
Theorem groups_live_while_owned (glGen : N -> list GLcall -> N) w :
  registry_reaches glGen w ->
  (forall key p, m_groups w !! key = Some p -> is_Some (heap w !! p)) /\
  (forall p, p ∈ held w -> is_Some (heap w !! p)) /\
  (forall p, is_Some (heap w !! p) ->
     (exists key, m_groups w !! key = Some p) \/ p ∈ held w).
Proof.
  intros [_ Hlive]%registry_reaches_inv. split; [|split].
  - intros key p H. apply Hlive, owned_true. eauto.
  - intros p H. apply Hlive, owned_true. auto.
  - intros p H. apply owned_true, Hlive. assumption.
Qed.

Lemma registry_reaches_one_key_one_group_held :
  registry_reaches counting one_key_one_group_held.
Proof.
  apply (registry_goes_on counting (ObjectNameManager_new GlobalNameSpace_new)
           (CreateShareGroup 100)).
  - apply registry_starts.
  - reflexivity.
Qed.

Lemma groups_live_while_owned_witness :
  is_Some (heap one_key_one_group_held !! 0).
Proof.
  apply (proj1 (groups_live_while_owned counting one_key_one_group_held
                  registry_reaches_one_key_one_group_held) 100 0).
  reflexivity.
Defined.

Lemma release_returns p w :
  destructible w -> exists w', release p w = Ret (tt, w').
Proof.
  intros Hsafe. unfold release. run.
  destruct (owned p w); [eauto|].
  destruct (heap w !! p) as [sg|] eqn:Ep; [|eauto]. run.
  destruct (Hsafe p sg Ep) as [Hty Hok].
  destruct (ShareGroup_destroy_returns sg (m_globalNameSpace w) Hty Hok) as (g' & ->).
  eauto.
Qed.

(** X20.  Whatever calls the manager and its groups have gone through since
    the constructor, every method of the registry returns, for every key,
    and so does the end of a pointer: no destructor of a group calls
    through a deleter that is not bound. *)
Theorem registry_methods_return (glGen : N -> list GLcall -> N) w (c : registry_call) :
  registry_reaches glGen w ->
  of_registry c = true ->
  exists w', registry_step glGen c w = Ret (tt, w').
Proof.
  intros [Hsafe _]%registry_reaches_inv Hc. destruct c; simpl; try discriminate.
  - unfold ObjectNameManager_createShareGroup, hand_out. run.
    destruct (m_groups w !! key); eauto.
  - unfold ObjectNameManager_getShareGroup, hand_out. run.
    destruct (m_groups w !! key); eauto.
  - unfold ObjectNameManager_attachShareGroup, hand_out. run.
    destruct (m_groups w !! existing); [|eauto].
    destruct (bool_decide (m_groups w !! key = None)); eauto.
  - unfold ObjectNameManager_deleteShareGroup. rewrite bind_run. unfold gets.
    destruct (m_groups w !! key) as [p|]; [|unfold ret; eauto].
    rewrite bind_run. unfold modify. apply release_returns.
    apply (destructible_ext w); [reflexivity..|assumption].
  - unfold ObjectNameManager_getGlobalContext. run. eauto.
  - unfold ShareGroupPtr_drop. rewrite bind_run. unfold gets.
    destruct (bool_decide (p ∈ held w)); [|unfold ret; eauto].
    rewrite bind_run. unfold modify. apply release_returns.
    apply (destructible_ext w); [reflexivity..|assumption].
Qed.

Lemma registry_methods_return_witness :
  exists w', ObjectNameManager_deleteShareGroup 100 one_key_one_group_held = Ret (tt, w').
Proof.
  exact (registry_methods_return counting one_key_one_group_held (DeleteShareGroup 100)
           registry_reaches_one_key_one_group_held eq_refl).
Defined.

(** ** Names that are generated twice, and names of shaders *)

Lemma deletions_log_gen t n t' name calls :
  deletions t n (GlGen t' name :: calls) = deletions t n calls.
Proof. unfold deletions. rewrite filter_cons_False; [reflexivity | discriminate]. Qed.

(** X21.  [genName] without [genLocal] does not look whether the name is
    there.  On a local name the group has, it returns the name, has the
    allocator make a new global name and binds the local name to it.  The
    old global name is not given back to the driver, and when the new one
    differs from it, it still leads to the local name in [getLocalName]. *)
Theorem genName_of_present_name_rebinds
    (glGen : N -> list GLcall -> N) (t l old : N) sg g :
  typed sg ->
  t < NUM_OBJECT_TYPES ->
  global_of sg t l = Some old ->
  local_of sg t old = Some l ->
  exists gname sg1 g1,
    ShareGroup_genName glGen t l false (sg, g) = Ret (l, (sg1, g1)) /\
    GlobalNameSpace_genName glGen t g = Ret (gname, g1) /\
    global_of sg1 t l = Some gname /\
    (gname <> old ->
     ShareGroup_getLocalName t old (sg1, g1) = Ret (l, (sg1, g1))) /\
    (forall t' n, deletions t' n (gl_calls g1) = deletions t' n (gl_calls g)).
Proof.
  intros Hty Ht Hold Hback. destruct (type_index_in_range t Ht) as (i & Hi & _).
  destruct (ShareGroup_genName_returns glGen t i l false sg g Hi)
    as (l' & sg1 & g1 & E); [discriminate|].
  destruct (ShareGroup_genName_inv glGen t i l false sg g l' sg1 g1 Hty Hi E)
    as (ns' & gname & Ens & Egen & Hl2g & Hg2l & Hspaces & _ & _ & _ & _).
  assert (l' = l) as ->
    by (apply NameSpace_genName_inv in Ens as (_ & [Hl _] & _); exact Hl).
  assert (Hslot : m_nameSpace sg1 !!! i = ns')
    by (rewrite Hspaces; apply vlookup_insert).
  unfold global_of, local_of in *. rewrite Hi in *.
  exists gname, sg1, g1. split; [exact E|]. split; [exact Egen|].
  split; [|split].
  - rewrite Hslot, Hl2g. apply lookup_insert_eq.
  - intros Hne. unfold ShareGroup_getLocalName. rewrite (in_range_leb t Ht).
    apply (name_space_read t i); [assumption|].
    rewrite NameSpace_getLocalName_run, Hslot, Hg2l.
    rewrite lookup_insert_ne by assumption. rewrite Hback. reflexivity.
  - intros t' n.
    destruct (GlobalNameSpace_genName_returns glGen t g)
      as (n0 & g0 & E0 & _ & _ & [Hcalls|Hcalls]);
      rewrite E0 in Egen; injection Egen as -> ->; rewrite Hcalls;
      [reflexivity | apply deletions_log_gen].
Qed.

Lemma genName_of_present_name_rebinds_witness :
  exists gname sg1 g1,
    ShareGroup_genName counting FRAMEBUFFER 1 false
      (group_with_one_framebuffer, after_one_gen FRAMEBUFFER) = Ret (1, (sg1, g1)) /\
    global_of sg1 FRAMEBUFFER 1 = Some gname /\
    deletions FRAMEBUFFER 1 (gl_calls g1) = 0%nat.
Proof.
  destruct (genName_of_present_name_rebinds counting FRAMEBUFFER 1 1
              group_with_one_framebuffer (after_one_gen FRAMEBUFFER))
    as (gname & sg1 & g1 & E & _ & Hg & _ & Hdel).
  - apply typed_set_nameSpace; [apply ShareGroup_new_typed | reflexivity].
  - reflexivity.
  - reflexivity.
  - reflexivity.
  - exists gname, sg1, g1. split; [exact E|]. split; [exact Hg|].
    rewrite Hdel. reflexivity.
Defined.

(** X22.  The names of shaders never reach the driver.  [genName] of a
    shader makes no call of the driver and binds the local name to the
    global name 0, so that [getGlobalName] answers for a shader that is
    there what it answers for a name that is not; [deleteName] of the name
    returns, again without a call of the driver, and the name is gone. *)
Theorem shader_names_never_reach_the_driver
    (glGen : N -> list GLcall -> N) (r : N) (aL : bool) sg g l sg1 g1 :
  typed sg ->
  ShareGroup_genName glGen SHADER r aL (sg, g) = Ret (l, (sg1, g1)) ->
  gl_calls g1 = gl_calls g /\
  global_of sg1 SHADER l = Some 0 /\
  ShareGroup_getGlobalName SHADER l (sg1, g1) = Ret (0, (sg1, g1)) /\
  exists sg2,
    ShareGroup_deleteName SHADER l (sg1, g1) = Ret (tt, (sg2, g1)) /\
    global_of sg2 SHADER l = None.
Proof.
  intros Hty E.
  destruct (ShareGroup_genName_inv glGen SHADER 4%fin r aL sg g l sg1 g1 Hty eq_refl E)
    as (ns' & gname & _ & Egen & Hl2g & _ & Hspaces & _ & _ & Hty1 & _).
  assert (Hslot : m_nameSpace sg1 !!! 4%fin = ns')
    by (rewrite Hspaces; apply vlookup_insert).
  assert (Hshader : gname = 0 /\ g1 = set_deleteInitialized true g \/
                    gname = 0 /\ g1 = g).
  { revert Egen. unfold GlobalNameSpace_genName. destruct g as [[] calls]; run;
      intros [= <- <-]; auto. }
  assert (gname = 0 /\ gl_calls g1 = gl_calls g) as [-> Hcalls]
    by (destruct Hshader as [[-> ->]|[-> ->]]; auto).
  assert (Hlk : m_localToGlobalMap (m_nameSpace sg1 !!! 4%fin) !! l = Some 0)
    by (rewrite Hslot, Hl2g; apply lookup_insert_eq).
  split; [exact Hcalls|]. split; [exact Hlk|]. split.
  - unfold ShareGroup_getGlobalName. change (NUM_OBJECT_TYPES <=? SHADER) with false.
    cbv iota. apply (name_space_read SHADER 4%fin); [reflexivity|].
    rewrite NameSpace_getGlobalName_run, Hlk. reflexivity.
  - rewrite (ShareGroup_deleteName_run SHADER 4%fin) by (auto || discriminate).
    rewrite Hlk. change (deleted_with_name SHADER) with false. cbv iota.
    eexists. split; [reflexivity|].
    unfold global_of. simpl.
    destruct (m_objectsData sg1); simpl; rewrite vlookup_insert; apply lookup_delete_eq.
Qed.

Lemma shader_names_never_reach_the_driver_witness :
  exists l sg1 g1,
    ShareGroup_genName counting SHADER 0 true (ShareGroup_new, GlobalNameSpace_new)
    = Ret (l, (sg1, g1)) /\
    gl_calls g1 = [] /\
    global_of sg1 SHADER l = Some 0.
Proof.
  destruct (ShareGroup_genName_returns counting SHADER 4%fin 0 true
              ShareGroup_new GlobalNameSpace_new eq_refl)
    as (l & sg1 & g1 & E).
  - intros _. vm_compute. discriminate.
  - exists l, sg1, g1. split; [exact E|].
    destruct (shader_names_never_reach_the_driver counting 0 true
                ShareGroup_new GlobalNameSpace_new l sg1 g1 ShareGroup_new_typed E)
      as (Hcalls & Hg & _).
    auto.
Defined.
